(** * cloud-pubsub-emulator-lite: the storage and delivery engine

    A shallow embedding of the in-memory [Storage] of the emulator
    (storage.go and models.go) together with the part of the HTTP layer
    that prepares the argument of [Pull] (handlers.go), and the
    properties of the engine proved on it.

    Conventions of the embedding.
    - A [time.Time] is an instant, counted in nanoseconds from Go's zero
      [time.Time{}]; instants are unbounded integers.
    - Go maps are finite maps ([gmap]); a slice of pointers to
      [InternalMessage] is a list of records.  Every pointer stored in a
      queue is created by [Publish] and stored in exactly one queue, so no
      two queues alias a message and the in-place updates of [Pull] are
      updates of the queue that holds the message.
    - The mutex of [Storage] serialises the operations; each operation is a
      function from the state before to a result and the state after.
    - The clock reading [time.Now()] of an operation is an argument of it,
      and so is the value of [testing.Testing()].
    - [uuid.New().String()] is the next value of a generator [uuid]; the
      number of values drawn so far is threaded through [Publish].
    - The order in which [range] visits a Go map is unspecified; [Publish]
      takes the order of its visit to [s.subscriptions] as an argument.
    - An [int] is an integer, and memory is unbounded: [make] succeeds for
      every capacity that is not negative and panics for a negative one.
      The limit of the runtime on the size of one allocation is not part
      of [Pull]; it is stated apart ([capInRange]), and the properties on
      the completion of a pull whose capacity a client chooses are stated
      for the capacities within it.
    - [ModifyAckDeadline] is not part of storage.go as it is at hand; its
      definition below is written from the specification and marked so. *)

From stdpp Require Import gmap strings list fin_maps pretty.
From Stdlib Require Import ZArith Lia Ascii.

(** ** Time *)

Definition Time : Type := Z.

(** [time.Time{}] *)
Definition zeroTime : Time := 0%Z.

(** [time.Duration] values, in nanoseconds. *)
Definition Millisecond : Z := 1000000%Z.
Definition Second : Z := 1000000000%Z.

(** [t.Before(u)] *)
Definition Before (t u : Time) : bool := (t <? u)%Z.

(** [t.Add(d)] *)
Definition Add (t : Time) (d : Z) : Time := (t + d)%Z.

(** ** models.go *)

Record Topic := mkTopic {
  Topic_Name : string
}.

Record Subscription := mkSubscription {
  Subscription_Name : string;
  Subscription_Topic : string
}.

Record Message := mkMessage {
  Message_Data : string;
  Message_Attributes : option (gmap string string);
  Message_MessageID : string;
  Message_PublishTime : string
}.

Record ReceivedMessage := mkReceivedMessage {
  ReceivedMessage_AckID : string;
  ReceivedMessage_Message : Message
}.

Record PubSubMessage := mkPubSubMessage {
  PubSubMessage_Data : string;
  PubSubMessage_Attributes : option (gmap string string)
}.

Record InternalMessage := mkInternalMessage {
  InternalMessage_Message : Message;
  InternalMessage_AckID : string;
  InternalMessage_AckedAt : option Time;
  InternalMessage_DeadlineAt : Time
}.

#[global] Instance Topic_eq_dec : EqDecision Topic.
Proof. solve_decision. Defined.
#[global] Instance Subscription_eq_dec : EqDecision Subscription.
Proof. solve_decision. Defined.
#[global] Instance Message_eq_dec : EqDecision Message.
Proof. solve_decision. Defined.
#[global] Instance ReceivedMessage_eq_dec : EqDecision ReceivedMessage.
Proof. solve_decision. Defined.
#[global] Instance InternalMessage_eq_dec : EqDecision InternalMessage.
Proof. solve_decision. Defined.

(** ** storage.go: errors and results *)

Inductive error :=
  | ErrTopicNotFound
  | ErrTopicAlreadyExists
  | ErrSubscriptionNotFound
  | ErrSubscriptionAlreadyExists
  | ErrNoMessages  (* fmt.Errorf("no messages for subscription") *)
  | ErrInvalidLeaseToken  (* the failure of ModifyAckDeadline, see below *).

(** The outcome of a call: a value, a returned [error], or a run-time
    panic that aborts the call. *)
Inductive result (A : Type) :=
  | Ok (a : A)
  | Err (e : error)
  | Panic.
Arguments Ok {A} a.
Arguments Err {A} e.
Arguments Panic {A}.

(** ** storage.go: the state *)

Record Storage := mkStorage {
  topics : gmap string Topic;
  subscriptions : gmap string Subscription;
  messages : gmap string (list InternalMessage)
}.

Definition set_topics (f : gmap string Topic → gmap string Topic) (s : Storage) : Storage :=
  {| topics := f (topics s); subscriptions := subscriptions s; messages := messages s |}.

Definition set_subscriptions
    (f : gmap string Subscription → gmap string Subscription) (s : Storage) : Storage :=
  {| topics := topics s; subscriptions := f (subscriptions s); messages := messages s |}.

Definition set_messages
    (f : gmap string (list InternalMessage) → gmap string (list InternalMessage))
    (s : Storage) : Storage :=
  {| topics := topics s; subscriptions := subscriptions s; messages := f (messages s) |}.

Definition NewStorage : Storage :=
  {| topics := ∅; subscriptions := ∅; messages := ∅ |}.

(** ** storage.go: the entity registry *)

Definition CreateTopic (name : string) (s : Storage) : result Topic * Storage :=
  match topics s !! name with
  | Some _ => (Err ErrTopicAlreadyExists, s)
  | None =>
      let topic := {| Topic_Name := name |} in
      (Ok topic, set_topics (insert name topic) s)
  end.

Definition GetTopic (name : string) (s : Storage) : result Topic * Storage :=
  match topics s !! name with
  | None => (Err ErrTopicNotFound, s)
  | Some topic => (Ok topic, s)
  end.

Definition DeleteTopic (name : string) (s : Storage) : result unit * Storage :=
  match topics s !! name with
  | None => (Err ErrTopicNotFound, s)
  | Some _ => (Ok (), set_topics (delete name) s)
  end.

(** [for _, topic := range s.topics { topics = append(topics, topic) }],
    visiting the entries in the order [order]. *)
Definition ListTopics (order : list (string * Topic)) (s : Storage)
    : list Topic * Storage :=
  (order.*2, s).

Definition CreateSubscription (name topicName : string) (s : Storage)
    : result Subscription * Storage :=
  match subscriptions s !! name with
  | Some _ => (Err ErrSubscriptionAlreadyExists, s)
  | None =>
      match topics s !! topicName with
      | None => (Err ErrTopicNotFound, s)
      | Some _ =>
          let subscription :=
            {| Subscription_Name := name; Subscription_Topic := topicName |} in
          (Ok subscription,
           set_messages (insert name []) (set_subscriptions (insert name subscription) s))
      end
  end.

Definition GetSubscription (name : string) (s : Storage) : result Subscription * Storage :=
  match subscriptions s !! name with
  | None => (Err ErrSubscriptionNotFound, s)
  | Some subscription => (Ok subscription, s)
  end.

Definition DeleteSubscription (name : string) (s : Storage) : result unit * Storage :=
  match subscriptions s !! name with
  | None => (Err ErrSubscriptionNotFound, s)
  | Some _ => (Ok (), set_messages (delete name) (set_subscriptions (delete name) s))
  end.

Definition ListSubscriptions (order : list (string * Subscription)) (s : Storage)
    : list Subscription * Storage :=
  (order.*2, s).

(** ** storage.go: Pull *)

(** The lease granted by a pull: 50ms under [testing.Testing()], 10s
    otherwise. *)
Definition leaseDuration (testing : bool) : Z :=
  if testing then (50 * Millisecond)%Z else (10 * Second)%Z.

(** [msg.AckedAt == nil && msg.DeadlineAt.Before(now)] *)
Definition visible (now : Time) (msg : InternalMessage) : bool :=
  bool_decide (InternalMessage_AckedAt msg = None)
  && Before (InternalMessage_DeadlineAt msg) now.

Definition toReceived (msg : InternalMessage) : ReceivedMessage :=
  {| ReceivedMessage_AckID := InternalMessage_AckID msg;
     ReceivedMessage_Message := InternalMessage_Message msg |}.

(** [msg.DeadlineAt = now.Add(...)] *)
Definition grant (testing : bool) (now : Time) (msg : InternalMessage) : InternalMessage :=
  {| InternalMessage_Message := InternalMessage_Message msg;
     InternalMessage_AckID := InternalMessage_AckID msg;
     InternalMessage_AckedAt := InternalMessage_AckedAt msg;
     InternalMessage_DeadlineAt := Add now (leaseDuration testing) |}.

(** The loop of [Pull] over the queue: the messages after the loop and the
    value of [receivedMessages]. *)
Fixpoint pullLoop (testing : bool) (now : Time) (maxMessages : Z)
    (msgs : list InternalMessage) (receivedMessages : list ReceivedMessage)
    : list InternalMessage * list ReceivedMessage :=
  match msgs with
  | [] => ([], receivedMessages)
  | msg :: rest =>
      if (Z.of_nat (length receivedMessages) >=? maxMessages)%Z
      then (msg :: rest, receivedMessages)                         (* break *)
      else if visible now msg
      then
        let '(rest', received) :=
          pullLoop testing now maxMessages rest (receivedMessages ++ [toReceived msg]) in
        (grant testing now msg :: rest', received)
      else
        let '(rest', received) := pullLoop testing now maxMessages rest receivedMessages in
        (msg :: rest', received)
  end.

(** [make([]ReceivedMessage, 0, maxMessages)] panics at run time when the
    capacity is negative. *)
Definition Pull (testing : bool) (now : Time) (subscriptionName : string)
    (maxMessages : Z) (s : Storage) : result (list ReceivedMessage) * Storage :=
  match subscriptions s !! subscriptionName with
  | None => (Err ErrSubscriptionNotFound, s)
  | Some _ =>
      match messages s !! subscriptionName with
      | None => (Ok [], s)
      | Some msgs =>
          if (maxMessages <? 0)%Z then (Panic, s)
          else
            let '(msgs', receivedMessages) := pullLoop testing now maxMessages msgs [] in
            (Ok receivedMessages, set_messages (insert subscriptionName msgs') s)
      end
  end.

(** handlers.go, [handlePull]: [if req.MaxMessages <= 0 { req.MaxMessages = 1 }] *)
Definition handlePull_MaxMessages (reqMaxMessages : Z) : Z :=
  if (reqMaxMessages <=? 0)%Z then 1%Z else reqMaxMessages.

(** ** storage.go: Acknowledge *)

(** [ackIDSet := make(map[string]bool); for _, id := range ackIDs { ackIDSet[id] = true }] *)
Definition mkAckIDSet (ackIDs : list string) : gmap string bool :=
  foldl (λ ackIDSet id, <[id := true]> ackIDSet) ∅ ackIDs.

(** [ackIDSet[id]]: a missing key reads as [false]. *)
Definition inAckIDSet (ackIDSet : gmap string bool) (id : string) : bool :=
  default false (ackIDSet !! id).

(** [msg.AckedAt = &now] *)
Definition markAcked (now : Time) (msg : InternalMessage) : InternalMessage :=
  {| InternalMessage_Message := InternalMessage_Message msg;
     InternalMessage_AckID := InternalMessage_AckID msg;
     InternalMessage_AckedAt := Some now;
     InternalMessage_DeadlineAt := InternalMessage_DeadlineAt msg |}.

(** The loop of [Acknowledge]: the messages of the old queue as the loop
    leaves them, and [newMessages]. *)
Fixpoint ackLoop (now : Time) (ackIDSet : gmap string bool)
    (msgs : list InternalMessage) (newMessages : list InternalMessage)
    : list InternalMessage * list InternalMessage :=
  match msgs with
  | [] => ([], newMessages)
  | msg :: rest =>
      let msg' :=
        if inAckIDSet ackIDSet (InternalMessage_AckID msg) then markAcked now msg else msg in
      let newMessages' :=
        if bool_decide (InternalMessage_AckedAt msg' = None)
        then newMessages ++ [msg'] else newMessages in
      let '(rest', final) := ackLoop now ackIDSet rest newMessages' in
      (msg' :: rest', final)
  end.

Definition Acknowledge (now : Time) (subscriptionName : string) (ackIDs : list string)
    (s : Storage) : result unit * Storage :=
  match subscriptions s !! subscriptionName with
  | None => (Err ErrSubscriptionNotFound, s)
  | Some _ =>
      match messages s !! subscriptionName with
      | None => (Err ErrNoMessages, s)
      | Some msgs =>
          let ackIDSet := mkAckIDSet ackIDs in
          let '(_, newMessages) := ackLoop now ackIDSet msgs [] in
          (Ok (), set_messages (insert subscriptionName newMessages) s)
      end
  end.

(** ** storage.go: Publish *)

(** [for i := range messages { messageIDs[i] = uuid.New().String() }],
    starting with [k] identifiers already drawn from the generator. *)
Fixpoint genMessageIDs (uuid : nat → string) (messages : list PubSubMessage) (k : nat)
    : list string * nat :=
  match messages with
  | [] => ([], k)
  | _ :: rest =>
      let '(messageIDs, k') := genMessageIDs uuid rest (S k) in
      (uuid k :: messageIDs, k')
  end.

Definition newInternalMessage (now : string) (pubsubMsg : PubSubMessage)
    (messageID ackID : string) : InternalMessage :=
  let msg :=
    {| Message_Data := PubSubMessage_Data pubsubMsg;
       Message_Attributes := PubSubMessage_Attributes pubsubMsg;
       Message_MessageID := messageID;
       Message_PublishTime := now |} in
  {| InternalMessage_Message := msg;
     InternalMessage_AckID := ackID;
     InternalMessage_AckedAt := None;
     InternalMessage_DeadlineAt := zeroTime |}.

(** [append(s.messages[name], internalMsg)]: a missing key reads as the
    nil slice. *)
Definition appendMessage (name : string) (internalMsg : InternalMessage)
    (msgs : gmap string (list InternalMessage)) : gmap string (list InternalMessage) :=
  <[name := default [] (msgs !! name) ++ [internalMsg]]> msgs.

(** The inner loop of [Publish], [for i, pubsubMsg := range messages], for
    one subscription; [batch] pairs each message with [messageIDs[i]]. *)
Fixpoint deliver (uuid : nat → string) (now : string) (subName : string)
    (batch : list (PubSubMessage * string)) (k : nat)
    (msgs : gmap string (list InternalMessage))
    : gmap string (list InternalMessage) * nat :=
  match batch with
  | [] => (msgs, k)
  | (pubsubMsg, messageID) :: rest =>
      let ackID := uuid k in
      let internalMsg := newInternalMessage now pubsubMsg messageID ackID in
      deliver uuid now subName rest (S k) (appendMessage subName internalMsg msgs)
  end.

(** The outer loop of [Publish], [for _, sub := range s.subscriptions],
    visiting the entries in the order [order]. *)
Fixpoint fanOut (uuid : nat → string) (now : string) (topicName : string)
    (batch : list (PubSubMessage * string)) (order : list (string * Subscription))
    (k : nat) (msgs : gmap string (list InternalMessage))
    : gmap string (list InternalMessage) * nat :=
  match order with
  | [] => (msgs, k)
  | (_, sub) :: rest =>
      if decide (Subscription_Topic sub = topicName)
      then
        let '(msgs', k') := deliver uuid now (Subscription_Name sub) batch k msgs in
        fanOut uuid now topicName batch rest k' msgs'
      else fanOut uuid now topicName batch rest k msgs
  end.

(** [now] is [time.Now().Format(time.RFC3339)]; [k] counts the identifiers
    drawn from the generator before the call, and the last component of
    the value those drawn after it. *)
Definition Publish (uuid : nat → string) (order : list (string * Subscription))
    (now : string) (topicName : string) (messages_ : list PubSubMessage)
    (s : Storage) (k : nat) : result (list string) * Storage * nat :=
  match topics s !! topicName with
  | None => (Err ErrTopicNotFound, s, k)
  | Some _ =>
      let '(messageIDs, k1) := genMessageIDs uuid messages_ k in
      let '(msgs', k2) :=
        fanOut uuid now topicName (zip messages_ messageIDs) order k1 (messages s) in
      (Ok messageIDs, set_messages (λ _, msgs') s, k2)
  end.

(** An order in which [range s.subscriptions] may visit the map. *)
Definition rangeOrder (order : list (string * Subscription)) (s : Storage) : Prop :=
  order ≡ₚ map_to_list (subscriptions s).

(** ** The operations of the engine as a transition system *)

Definition World : Type := Storage * nat.

Inductive Op :=
  | OpCreateTopic (name : string)
  | OpGetTopic (name : string)
  | OpDeleteTopic (name : string)
  | OpCreateSubscription (name topicName : string)
  | OpGetSubscription (name : string)
  | OpDeleteSubscription (name : string)
  | OpPublish (order : list (string * Subscription)) (now : string)
      (topicName : string) (messages_ : list PubSubMessage)
  | OpPull (now : Time) (subscriptionName : string) (maxMessages : Z)
  | OpAcknowledge (now : Time) (subscriptionName : string) (ackIDs : list string)
  | OpListTopics (order : list (string * Topic))
  | OpListSubscriptions (order : list (string * Subscription)).

Definition exec (uuid : nat → string) (testing : bool) (op : Op) (w : World) : World :=
  match op with
  | OpCreateTopic name => ((CreateTopic name w.1).2, w.2)
  | OpGetTopic name => ((GetTopic name w.1).2, w.2)
  | OpDeleteTopic name => ((DeleteTopic name w.1).2, w.2)
  | OpCreateSubscription name topicName => ((CreateSubscription name topicName w.1).2, w.2)
  | OpGetSubscription name => ((GetSubscription name w.1).2, w.2)
  | OpDeleteSubscription name => ((DeleteSubscription name w.1).2, w.2)
  | OpPublish order now topicName messages_ =>
      let r := Publish uuid order now topicName messages_ w.1 w.2 in (r.1.2, r.2)
  | OpPull now subscriptionName maxMessages =>
      ((Pull testing now subscriptionName maxMessages w.1).2, w.2)
  | OpAcknowledge now subscriptionName ackIDs =>
      ((Acknowledge now subscriptionName ackIDs w.1).2, w.2)
  | OpListTopics order => ((ListTopics order w.1).2, w.2)
  | OpListSubscriptions order => ((ListSubscriptions order w.1).2, w.2)
  end.

(** The only constraint on an operation: the visiting order of a [range]
    is an order of the map it ranges over. *)
Definition admissible (op : Op) (w : World) : Prop :=
  match op with
  | OpPublish order _ _ _ => rangeOrder order w.1
  | OpListTopics order => order ≡ₚ map_to_list (topics w.1)
  | OpListSubscriptions order => rangeOrder order w.1
  | _ => True
  end.

(** States of a server: [NewStorage()] followed by any operations. *)
Inductive reachable (uuid : nat → string) (testing : bool) : World → Prop :=
  | reachable_new k : reachable uuid testing (NewStorage, k)
  | reachable_step op w :
      reachable uuid testing w → admissible op w →
      reachable uuid testing (exec uuid testing op w).

(** Running a list of operations, each admissible where it runs. *)
Inductive steps (uuid : nat → string) (testing : bool) : list Op → World → World → Prop :=
  | steps_nil w : steps uuid testing [] w w
  | steps_cons op ops w w' :
      admissible op w → steps uuid testing ops (exec uuid testing op w) w' →
      steps uuid testing (op :: ops) w w'.

(** The clock reading of an operation that compares deadlines with it. *)
Definition pullTime (op : Op) : option Time :=
  match op with
  | OpPull now _ _ => Some now
  | _ => None
  end.

(** ** ModifyAckDeadline *)

(** A lease of the queue that [id] addresses: it carries the token and is
    not acknowledged. *)
Definition pendingWith (id : string) (msg : InternalMessage) : bool :=
  bool_decide (InternalMessage_AckID msg = id)
  && bool_decide (InternalMessage_AckedAt msg = None).

(** The deadline the call sets; the spec gives the cases [= 0] and [> 0]. *)
Definition newDeadline (now : Time) (extensionSeconds : Z) : Time :=
  if (extensionSeconds =? 0)%Z then now else Add now (extensionSeconds * Second).

Definition modifyLease (now : Time) (ackIDs : list string) (extensionSeconds : Z)
    (msg : InternalMessage) : InternalMessage :=
  if bool_decide (InternalMessage_AckID msg ∈ ackIDs)
     && bool_decide (InternalMessage_AckedAt msg = None)
  then
    {| InternalMessage_Message := InternalMessage_Message msg;
       InternalMessage_AckID := InternalMessage_AckID msg;
       InternalMessage_AckedAt := InternalMessage_AckedAt msg;
       InternalMessage_DeadlineAt := newDeadline now extensionSeconds |}
  else msg.

(** Modelled from the spec: [Storage.ModifyAckDeadline], whose body is not
    in storage.go as it is given here (its tests and the README name it).
    By the spec the call fails with SubscriptionNotFound if the
    subscription is unregistered; fails as a whole, with an
    InvalidLeaseToken error, if any supplied token does not correspond to
    a pending lease of the subscription; and otherwise sets the deadline
    of each addressed pending lease to "now" for [extensionSeconds = 0]
    and to "now + extensionSeconds" for [extensionSeconds > 0]. *)
Definition ModifyAckDeadline (now : Time) (subscriptionName : string)
    (ackIDs : list string) (extensionSeconds : Z) (s : Storage) : result unit * Storage :=
  match subscriptions s !! subscriptionName with
  | None => (Err ErrSubscriptionNotFound, s)
  | Some _ =>
      let msgs := default [] (messages s !! subscriptionName) in
      if forallb (λ id, existsb (pendingWith id) msgs) ackIDs
      then (Ok (),
            set_messages
              (alter (map (modifyLease now ackIDs extensionSeconds)) subscriptionName) s)
      else (Err ErrInvalidLeaseToken, s)
  end.

(** ** handlers.go: the request handlers

    A handler is given the request body as the JSON decoder returns it
    ([None] when decoding fails) and answers with a status and a body;
    headers and log lines are left out.  A panic of the storage call
    aborts the handler. *)

#[global] Instance error_eq_dec : EqDecision error.
Proof. solve_decision. Defined.

(** [err.Error()].  The last error is the one of the modelled
    [ModifyAckDeadline]; no handler below receives it. *)
Definition errorText (e : error) : string :=
  match e with
  | ErrTopicNotFound => "topic not found"
  | ErrTopicAlreadyExists => "topic already exists"
  | ErrSubscriptionNotFound => "subscription not found"
  | ErrSubscriptionAlreadyExists => "subscription already exists"
  | ErrNoMessages => "no messages for subscription"
  | ErrInvalidLeaseToken => "invalid lease token"
  end.

(** [strings.Contains(s, substr)] *)
Definition Contains (s substr : string) : bool :=
  match String.index 0 substr s with
  | Some _ => true
  | None => false
  end.

(** [strings.HasPrefix(s, prefix)] *)
Definition HasPrefix (s prefix : string) : bool := String.prefix prefix s.

Definition StatusOK : Z := 200%Z.
Definition StatusNoContent : Z := 204%Z.
Definition StatusBadRequest : Z := 400%Z.
Definition StatusNotFound : Z := 404%Z.
Definition StatusMethodNotAllowed : Z := 405%Z.
Definition StatusConflict : Z := 409%Z.
Definition StatusInternalServerError : Z := 500%Z.

(** What a handler writes after the status line. *)
Inductive Body :=
  | BodyError (text : string)            (* map[string]string{"error": text} *)
  | BodyTopic (topic : Topic)
  | BodySubscription (subscription : Subscription)
  | BodyPublishResponse (messageIDs : list string)
  | BodyPullResponse (receivedMessages : list ReceivedMessage)
  | BodyListTopicsResponse (topics_ : list Topic)
  | BodyListSubscriptionsResponse (subscriptions_ : list Subscription)
  | BodyText (text : string)             (* w.Write, http.Error *)
  | BodyNone.

Record Response := mkResponse {
  Response_Status : Z;
  Response_Body : Body
}.

Inductive Outcome :=
  | Responded (response : Response)
  | Aborted.

(** [writeJSON(w, status, data)] *)
Definition writeJSON (status : Z) (data : Body) : Outcome :=
  Responded {| Response_Status := status; Response_Body := data |}.

(** The answer to a request whose body does not decode. *)
Definition invalidRequestBody : Outcome :=
  writeJSON StatusBadRequest (BodyError "Invalid request body").

Definition handleCreateTopic (topicName : string) (s : Storage) : Outcome * Storage :=
  match CreateTopic topicName s with
  | (Err err, s') =>
      if decide (err = ErrTopicAlreadyExists)
      then (writeJSON StatusConflict (BodyError (errorText err)), s')
      else (writeJSON StatusInternalServerError (BodyError (errorText err)), s')
  | (Ok topic, s') => (writeJSON StatusOK (BodyTopic topic), s')
  | (Panic, s') => (Aborted, s')
  end.

Definition handleGetTopic (topicName : string) (s : Storage) : Outcome * Storage :=
  match GetTopic topicName s with
  | (Err err, s') =>
      if decide (err = ErrTopicNotFound)
      then (writeJSON StatusNotFound (BodyError (errorText err)), s')
      else (writeJSON StatusInternalServerError (BodyError (errorText err)), s')
  | (Ok topic, s') => (writeJSON StatusOK (BodyTopic topic), s')
  | (Panic, s') => (Aborted, s')
  end.

Definition handleDeleteTopic (topicName : string) (s : Storage) : Outcome * Storage :=
  match DeleteTopic topicName s with
  | (Err err, s') =>
      if decide (err = ErrTopicNotFound)
      then (writeJSON StatusNotFound (BodyError (errorText err)), s')
      else (writeJSON StatusInternalServerError (BodyError (errorText err)), s')
  | (Ok _, s') =>
      (Responded {| Response_Status := StatusNoContent; Response_Body := BodyNone |}, s')
  | (Panic, s') => (Aborted, s')
  end.

(** The decoded body is the field [Topic] of the request. *)
Definition handleCreateSubscription (body : option string) (subscriptionName : string)
    (s : Storage) : Outcome * Storage :=
  match body with
  | None => (invalidRequestBody, s)
  | Some reqTopic =>
      match CreateSubscription subscriptionName reqTopic s with
      | (Err err, s') =>
          if decide (err = ErrSubscriptionAlreadyExists)
          then (writeJSON StatusConflict (BodyError (errorText err)), s')
          else if decide (err = ErrTopicNotFound)
          then (writeJSON StatusNotFound (BodyError (errorText err)), s')
          else (writeJSON StatusInternalServerError (BodyError (errorText err)), s')
      | (Ok subscription, s') => (writeJSON StatusOK (BodySubscription subscription), s')
      | (Panic, s') => (Aborted, s')
      end
  end.

Definition handleGetSubscription (subscriptionName : string) (s : Storage)
    : Outcome * Storage :=
  match GetSubscription subscriptionName s with
  | (Err err, s') =>
      if decide (err = ErrSubscriptionNotFound)
      then (writeJSON StatusNotFound (BodyError (errorText err)), s')
      else (writeJSON StatusInternalServerError (BodyError (errorText err)), s')
  | (Ok subscription, s') => (writeJSON StatusOK (BodySubscription subscription), s')
  | (Panic, s') => (Aborted, s')
  end.

Definition handleDeleteSubscription (subscriptionName : string) (s : Storage)
    : Outcome * Storage :=
  match DeleteSubscription subscriptionName s with
  | (Err err, s') =>
      if decide (err = ErrSubscriptionNotFound)
      then (writeJSON StatusNotFound (BodyError (errorText err)), s')
      else (writeJSON StatusInternalServerError (BodyError (errorText err)), s')
  | (Ok _, s') =>
      (Responded {| Response_Status := StatusNoContent; Response_Body := BodyNone |}, s')
  | (Panic, s') => (Aborted, s')
  end.

(** The decoded body is the field [Messages] of the request. *)
Definition handlePublish (uuid : nat → string) (order : list (string * Subscription))
    (now : string) (body : option (list PubSubMessage)) (topicName : string)
    (s : Storage) (k : nat) : Outcome * Storage * nat :=
  match body with
  | None => (invalidRequestBody, s, k)
  | Some reqMessages =>
      match Publish uuid order now topicName reqMessages s k with
      | (Err err, s', k') =>
          if decide (err = ErrTopicNotFound)
          then (writeJSON StatusNotFound (BodyError (errorText err)), s', k')
          else (writeJSON StatusInternalServerError (BodyError (errorText err)), s', k')
      | (Ok messageIDs, s', k') =>
          (writeJSON StatusOK (BodyPublishResponse messageIDs), s', k')
      | (Panic, s', k') => (Aborted, s', k')
      end
  end.

(** The decoded body is the field [MaxMessages] of the request. *)
Definition handlePull (testing : bool) (now : Time) (body : option Z)
    (subscriptionName : string) (s : Storage) : Outcome * Storage :=
  match body with
  | None => (invalidRequestBody, s)
  | Some reqMaxMessages =>
      let maxMessages := handlePull_MaxMessages reqMaxMessages in
      match Pull testing now subscriptionName maxMessages s with
      | (Err err, s') =>
          if decide (err = ErrSubscriptionNotFound)
          then (writeJSON StatusNotFound (BodyError (errorText err)), s')
          else (writeJSON StatusInternalServerError (BodyError (errorText err)), s')
      | (Ok messages_, s') => (writeJSON StatusOK (BodyPullResponse messages_), s')
      | (Panic, s') => (Aborted, s')
      end
  end.

(** The decoded body is the field [AckIDs] of the request. *)
Definition handleAcknowledge (now : Time) (body : option (list string))
    (subscriptionName : string) (s : Storage) : Outcome * Storage :=
  match body with
  | None => (invalidRequestBody, s)
  | Some reqAckIDs =>
      match Acknowledge now subscriptionName reqAckIDs s with
      | (Err err, s') =>
          if decide (err = ErrSubscriptionNotFound)
          then (writeJSON StatusNotFound (BodyError (errorText err)), s')
          else if Contains (errorText err) "no messages"
          then (writeJSON StatusBadRequest (BodyError (errorText err)), s')
          else (writeJSON StatusInternalServerError (BodyError (errorText err)), s')
      | (Ok _, s') =>
          (Responded {| Response_Status := StatusOK; Response_Body := BodyText "{}" |}, s')
      | (Panic, s') => (Aborted, s')
      end
  end.

(** [fmt.Sprintf("projects/%s/topics/", projectID)] *)
Definition topicsPrefix (projectID : string) : string :=
  "projects/" +:+ projectID +:+ "/topics/".

(** [fmt.Sprintf("projects/%s/subscriptions/", projectID)] *)
Definition subscriptionsPrefix (projectID : string) : string :=
  "projects/" +:+ projectID +:+ "/subscriptions/".

Definition handleListTopics (order : list (string * Topic)) (projectID : string)
    (s : Storage) : Outcome * Storage :=
  let '(topics_, s') := ListTopics order s in
  let filteredTopics :=
    List.filter (λ topic, HasPrefix (Topic_Name topic) (topicsPrefix projectID)) topics_ in
  (writeJSON StatusOK (BodyListTopicsResponse filteredTopics), s').

Definition handleListSubscriptions (order : list (string * Subscription))
    (projectID : string) (s : Storage) : Outcome * Storage :=
  let '(subscriptions_, s') := ListSubscriptions order s in
  let filteredSubs :=
    List.filter
      (λ sub, HasPrefix (Subscription_Name sub) (subscriptionsPrefix projectID))
      subscriptions_ in
  (writeJSON StatusOK (BodyListSubscriptionsResponse filteredSubs), s').

(** The status of an outcome, if the handler answered. *)
Definition statusOf (o : Outcome) : option Z :=
  match o with
  | Responded r => Some (Response_Status r)
  | Aborted => None
  end.

(** A project identifier as the router extracts it: [[^/]+]. *)
Fixpoint noSlash (s : string) : bool :=
  match s with
  | EmptyString => true
  | String c rest => negb (Ascii.eqb c "/"%char) && noSlash rest
  end.

(** ** handlers.go: the router

    The seven patterns of the router are anchored at both ends and made
    of literal text and of the capturing group [([^/]+)]. *)

Inductive Piece :=
  | Lit (text : string)
  | Seg.                                 (* ([^/]+) *)

Definition Regexp : Type := list Piece.

Definition listTopicsRegex : Regexp :=
  [Lit "/v1/projects/"; Seg; Lit "/topics"].
Definition listSubscriptionsRegex : Regexp :=
  [Lit "/v1/projects/"; Seg; Lit "/subscriptions"].
Definition topicPathRegex : Regexp :=
  [Lit "/v1/projects/"; Seg; Lit "/topics/"; Seg].
Definition topicPublishRegex : Regexp :=
  [Lit "/v1/projects/"; Seg; Lit "/topics/"; Seg; Lit ":publish"].
Definition subscriptionPathRegex : Regexp :=
  [Lit "/v1/projects/"; Seg; Lit "/subscriptions/"; Seg].
Definition subscriptionPullRegex : Regexp :=
  [Lit "/v1/projects/"; Seg; Lit "/subscriptions/"; Seg; Lit ":pull"].
Definition subscriptionAckRegex : Regexp :=
  [Lit "/v1/projects/"; Seg; Lit "/subscriptions/"; Seg; Lit ":acknowledge"].

(** What follows a literal at the start of a text. *)
Fixpoint afterLiteral (text s : string) : option string :=
  match text, s with
  | EmptyString, _ => Some s
  | String c text', String d rest =>
      if Ascii.eqb c d then afterLiteral text' rest else None
  | String _ _, EmptyString => None
  end.

(** A group at the start of [s], followed by a match of the rest of the
    pattern, [k]: the group is not empty, holds no slash, and takes as
    many bytes as the rest of the pattern allows. *)
Fixpoint matchGroup (k : string → option (list string)) (s : string)
    : option (string * list string) :=
  match s with
  | EmptyString => None
  | String c rest =>
      if Ascii.eqb c "/" then None
      else match matchGroup k rest with
           | Some (group, groups) => Some (String c group, groups)
           | None => pair (String c EmptyString) <$> k rest
           end
  end.

(** The groups of the match of an anchored pattern against a text. *)
Fixpoint matchPieces (re : Regexp) (s : string) : option (list string) :=
  match re with
  | [] => if decide (s = "") then Some [] else None
  | Lit text :: re' => afterLiteral text s ≫= matchPieces re'
  | Seg :: re' => (λ m, m.1 :: m.2) <$> matchGroup (matchPieces re') s
  end.

(** [re.FindStringSubmatch(s)]: the matched text, then the groups. *)
Definition FindStringSubmatch (re : Regexp) (s : string) : option (list string) :=
  cons s <$> matchPieces re s.

Definition MethodGet : string := "GET".
Definition MethodPost : string := "POST".
Definition MethodPut : string := "PUT".
Definition MethodDelete : string := "DELETE".

(** A request: its method, [r.URL.Path], and its body as the decoder of
    each handler reads it ([None] when decoding fails). *)
Record Request := mkRequest {
  Request_Method : string;
  Request_Path : string;
  Request_Topic : option string;                    (* CreateSubscriptionRequest *)
  Request_Messages : option (list PubSubMessage);   (* PublishRequest *)
  Request_MaxMessages : option Z;                   (* PullRequest *)
  Request_AckIDs : option (list string)             (* AcknowledgeRequest *)
}.

(** What a request finds outside the storage: the clock, and the order
    in which a [range] visits a map. *)
Record Env := mkEnv {
  Env_now : Time;                                         (* Pull, Acknowledge *)
  Env_publishTime : string;                               (* Publish *)
  Env_subscriptions : list (string * Subscription);
  Env_topics : list (string * Topic)
}.

(** [http.Error(w, text, code)] writes the text and a newline. *)
Definition httpError (text : string) (code : Z) : Outcome :=
  Responded {| Response_Status := code;
               Response_Body := BodyText (text +:+ String "010"%char EmptyString) |}.

(** [http.NotFound(w, r)] *)
Definition NotFound : Outcome := httpError "404 page not found" StatusNotFound.

Definition ServeHTTP (uuid : nat → string) (testing : bool) (env : Env)
    (r : Request) (w : World) : Outcome * World :=
  let path := Request_Path r in
  let method := Request_Method r in
  let methodNotAllowed := (httpError "Method not allowed" StatusMethodNotAllowed, w) in
  let inWorld (answer : Outcome * Storage) := (answer.1, (answer.2, w.2)) in
  match FindStringSubmatch topicPublishRegex path with
  | Some matches =>
      match matches !! 1%nat, matches !! 2%nat with
      | Some project, Some topic =>
          let topicName := "projects/" +:+ project +:+ "/topics/" +:+ topic in
          if decide (method = MethodPost)
          then
            let answer :=
              handlePublish uuid (Env_subscriptions env) (Env_publishTime env)
                (Request_Messages r) topicName w.1 w.2 in
            (answer.1.1, (answer.1.2, answer.2))
          else methodNotAllowed
      | _, _ => (Aborted, w)
      end
  | None =>
  match FindStringSubmatch subscriptionPullRegex path with
  | Some matches =>
      match matches !! 1%nat, matches !! 2%nat with
      | Some project, Some subscription =>
          let subscriptionName :=
            "projects/" +:+ project +:+ "/subscriptions/" +:+ subscription in
          if decide (method = MethodPost)
          then inWorld (handlePull testing (Env_now env) (Request_MaxMessages r)
                          subscriptionName w.1)
          else methodNotAllowed
      | _, _ => (Aborted, w)
      end
  | None =>
  match FindStringSubmatch subscriptionAckRegex path with
  | Some matches =>
      match matches !! 1%nat, matches !! 2%nat with
      | Some project, Some subscription =>
          let subscriptionName :=
            "projects/" +:+ project +:+ "/subscriptions/" +:+ subscription in
          if decide (method = MethodPost)
          then inWorld (handleAcknowledge (Env_now env) (Request_AckIDs r)
                          subscriptionName w.1)
          else methodNotAllowed
      | _, _ => (Aborted, w)
      end
  | None =>
  match FindStringSubmatch listTopicsRegex path with
  | Some matches =>
      match matches !! 1%nat with
      | Some projectID =>
          if decide (method = MethodGet)
          then inWorld (handleListTopics (Env_topics env) projectID w.1)
          else methodNotAllowed
      | None => (Aborted, w)
      end
  | None =>
  match FindStringSubmatch listSubscriptionsRegex path with
  | Some matches =>
      match matches !! 1%nat with
      | Some projectID =>
          if decide (method = MethodGet)
          then inWorld (handleListSubscriptions (Env_subscriptions env) projectID w.1)
          else methodNotAllowed
      | None => (Aborted, w)
      end
  | None =>
  match FindStringSubmatch topicPathRegex path with
  | Some matches =>
      match matches !! 1%nat, matches !! 2%nat with
      | Some project, Some topic =>
          let topicName := "projects/" +:+ project +:+ "/topics/" +:+ topic in
          if decide (method = MethodPut)
          then inWorld (handleCreateTopic topicName w.1)
          else if decide (method = MethodGet)
          then inWorld (handleGetTopic topicName w.1)
          else if decide (method = MethodDelete)
          then inWorld (handleDeleteTopic topicName w.1)
          else methodNotAllowed
      | _, _ => (Aborted, w)
      end
  | None =>
  match FindStringSubmatch subscriptionPathRegex path with
  | Some matches =>
      match matches !! 1%nat, matches !! 2%nat with
      | Some project, Some subscription =>
          let subscriptionName :=
            "projects/" +:+ project +:+ "/subscriptions/" +:+ subscription in
          if decide (method = MethodPut)
          then inWorld (handleCreateSubscription (Request_Topic r) subscriptionName w.1)
          else if decide (method = MethodGet)
          then inWorld (handleGetSubscription subscriptionName w.1)
          else if decide (method = MethodDelete)
          then inWorld (handleDeleteSubscription subscriptionName w.1)
          else methodNotAllowed
      | _, _ => (Aborted, w)
      end
  | None => (NotFound, w)
  end end end end end end end.

(** ** Notions used to state the properties *)

(** The condition under which [Pull] takes a lease, as a proposition. *)
Definition eligible (now : Time) (msg : InternalMessage) : Prop :=
  InternalMessage_AckedAt msg = None ∧ (InternalMessage_DeadlineAt msg < now)%Z.

#[global] Instance eligible_dec now msg : Decision (eligible now msg).
Proof. unfold eligible. apply _. Defined.

(** The visibility of a lease in the words of the specification: no
    acknowledgement timestamp, and the current time at or after the
    deadline. *)
Definition visibleAtOrAfter (now : Time) (msg : InternalMessage) : Prop :=
  InternalMessage_AckedAt msg = None ∧ (InternalMessage_DeadlineAt msg <= now)%Z.

(** The number of eligible leases stored before position [i] of a queue. *)
Definition rank (now : Time) (msgs : list InternalMessage) (i : nat) : nat :=
  length (filter (eligible now) (take i msgs)).

(** A subscription is registered. *)
Definition registered (s : Storage) (name : string) : Prop :=
  is_Some (subscriptions s !! name).

(** A subscription registered under [name] and bound to [topicName]. *)
Definition bound (s : Storage) (topicName name : string) : Prop :=
  ∃ sub, subscriptions s !! name = Some sub ∧ Subscription_Topic sub = topicName.

(** The queue of a subscription, empty if there is none. *)
Definition queue (s : Storage) (name : string) : list InternalMessage :=
  default [] (messages s !! name).

(** The state invariant kept by the operations: a subscription is stored
    under its own name, it is registered exactly when it has a queue
    record, and no acknowledged lease stays in a queue. *)
Record StorageInv (s : Storage) : Prop := {
  inv_name : ∀ name sub, subscriptions s !! name = Some sub → Subscription_Name sub = name;
  inv_queue : ∀ name, is_Some (subscriptions s !! name) ↔ is_Some (messages s !! name);
  inv_pending : ∀ name msgs msg,
    messages s !! name = Some msgs → msg ∈ msgs → InternalMessage_AckedAt msg = None
}.

(** The queue after a pull that may still take [n] leases: the first [n]
    eligible leases are granted, the others are as they were. *)
Fixpoint grantUpTo (testing : bool) (now : Time) (n : nat) (msgs : list InternalMessage)
    : list InternalMessage :=
  match msgs, n with
  | [], _ => []
  | _, O => msgs
  | msg :: rest, S n' =>
      if decide (eligible now msg)
      then grant testing now msg :: grantUpTo testing now n' rest
      else msg :: grantUpTo testing now n rest
  end.

(** What the loop of [Acknowledge] does to one message. *)
Definition ackMark (now : Time) (ackIDs : list string) (msg : InternalMessage)
    : InternalMessage :=
  if decide (InternalMessage_AckID msg ∈ ackIDs) then markAcked now msg else msg.

(** The messages the loop of [Acknowledge] keeps. *)
Definition ackKept (ackIDs : list string) (msg : InternalMessage) : Prop :=
  (InternalMessage_AckID msg ∉ ackIDs) ∧ InternalMessage_AckedAt msg = None.

#[global] Instance ackKept_dec ackIDs msg : Decision (ackKept ackIDs msg).
Proof. unfold ackKept. apply _. Defined.

(** The leases [Publish] creates for one subscription, when [k]
    identifiers were drawn before its turn. *)
Fixpoint newLeases (uuid : nat → string) (now : string)
    (batch : list (PubSubMessage * string)) (k : nat) : list InternalMessage :=
  match batch with
  | [] => []
  | (pubsubMsg, messageID) :: rest =>
      newInternalMessage now pubsubMsg messageID (uuid k) :: newLeases uuid now rest (S k)
  end.

(** The entries of a visiting order that are bound to a topic. *)
Definition boundIn (topicName : string) (order : list (string * Subscription))
    : list (string * Subscription) :=
  filter (λ entry, Subscription_Topic entry.2 = topicName) order.

(** The invariant of the lease tokens, for a state with [w.2] identifiers
    drawn: every token stored was drawn from the generator, and no queue
    holds a token twice. *)
Record TokenInv (uuid : nat → string) (w : World) : Prop := {
  inv_drawn : ∀ name msgs msg,
    messages w.1 !! name = Some msgs → msg ∈ msgs →
    ∃ j, (j < w.2)%nat ∧ InternalMessage_AckID msg = uuid j;
  inv_nodup : ∀ name msgs,
    messages w.1 !! name = Some msgs → NoDup (map InternalMessage_AckID msgs)
}.

(** Every lease of the queue of [name] that carries the token [tok] has
    its deadline at [D] or later. *)
Definition heldUntil (name tok : string) (D : Time) (s : Storage) : Prop :=
  ∀ msgs msg,
    messages s !! name = Some msgs → msg ∈ msgs →
    InternalMessage_AckID msg = tok → (D <= InternalMessage_DeadlineAt msg)%Z.


(** ** A scenario

    The run of the storage tests: a topic, a subscription on it, one
    published message, a pull.  The generator numbers its identifiers. *)

Definition scenario_uuid : nat → string := pretty.

Definition scenario_topic : string := "projects/test/topics/topic1".
Definition scenario_sub : string := "projects/test/subscriptions/sub1".
Definition scenario_message : PubSubMessage :=
  {| PubSubMessage_Data := "dGVzdA=="; PubSubMessage_Attributes := None |}.

Definition scenario_created : World :=
  exec scenario_uuid true (OpCreateSubscription scenario_sub scenario_topic)
    (exec scenario_uuid true (OpCreateTopic scenario_topic) (NewStorage, 0%nat)).

Definition scenario_published : World :=
  exec scenario_uuid true
    (OpPublish (map_to_list (subscriptions scenario_created.1)) "2024-01-01T00:00:00Z"
       scenario_topic [scenario_message])
    scenario_created.

(** The pull reads the clock at 1000ns and grants 50ms. *)
Definition scenario_pulled : World :=
  exec scenario_uuid true (OpPull 1000%Z scenario_sub 10%Z) scenario_published.

(** The fan-out test: a second subscription on the topic. *)
Definition scenario_sub2 : string := "projects/test/subscriptions/sub2".

Definition scenario_two_subs : World :=
  exec scenario_uuid true (OpCreateSubscription scenario_sub2 scenario_topic)
    scenario_created.

(** Running a list of operations from a state. *)
Definition run (uuid : nat → string) (testing : bool) (ops : list Op) (w : World) : World :=
  foldl (λ w op, exec uuid testing op w) w ops.

(** Five messages published to the subscription of the scenario (the
    max-messages test). *)
Definition scenario_five : World :=
  run scenario_uuid true
    [OpCreateTopic scenario_topic;
     OpCreateSubscription scenario_sub scenario_topic;
     OpPublish [(scenario_sub, mkSubscription scenario_sub scenario_topic)]
       "2024-01-01T00:00:00Z" scenario_topic (replicate 5 scenario_message)]
    (NewStorage, 0%nat).

(** The queues of two different subscriptions share no lease token. *)
Definition tokensApart (s : Storage) : Prop :=
  ∀ name1 name2 msgs1 msgs2 msg1 msg2,
    name1 ≠ name2 →
    messages s !! name1 = Some msgs1 → messages s !! name2 = Some msgs2 →
    msg1 ∈ msgs1 → msg2 ∈ msgs2 →
    InternalMessage_AckID msg1 ≠ InternalMessage_AckID msg2.

(** No lease of the queue of [name] carries the token [tok]. *)
Definition absent (name tok : string) (s : Storage) : Prop :=
  ∀ msgs msg,
    messages s !! name = Some msgs → msg ∈ msgs → InternalMessage_AckID msg ≠ tok.

(** Topics are stored under their own names. *)
Definition topicsNamed (s : Storage) : Prop :=
  ∀ name topic, topics s !! name = Some topic → Topic_Name topic = name.

(** A path segment as a group matches it: not empty, no slash. *)
Definition segment (s : string) : Prop := s ≠ "" ∧ noSlash s = true.

(** The texts an anchored pattern matches, with the groups. *)
Fixpoint Matches (re : Regexp) (s : string) (groups : list string) : Prop :=
  match re with
  | [] => s = "" ∧ groups = []
  | Lit text :: re' => ∃ rest, s = text +:+ rest ∧ Matches re' rest groups
  | Seg :: re' =>
      ∃ group groups' rest,
        groups = group :: groups' ∧ s = group +:+ rest ∧ segment group
        ∧ Matches re' rest groups'
  end.

(** The capacities [runtime.makeslice] accepts for the result of [Pull].
    Beside a negative capacity, [make([]ReceivedMessage, 0, maxMessages)]
    panics ("makeslice: cap out of range") when the capacity times the
    size of an element overflows or exceeds [maxAlloc], the largest
    allocation of the runtime.  On a 64-bit platform a [ReceivedMessage]
    (a string, and a [Message] of three strings and a map) takes 72 bytes
    and [maxAlloc] is [1 << 48]. *)
Definition sizeofReceivedMessage : Z := 72%Z.

Definition maxAlloc : Z := 281474976710656%Z.

Definition capInRange (cap : Z) : Prop :=
  (0 <= cap)%Z ∧ (cap * sizeofReceivedMessage <= maxAlloc)%Z.

(** * Properties *)

(** ** Time and visibility *)

Lemma visible_eligible now msg : visible now msg = true ↔ eligible now msg.
Proof.
  unfold visible, eligible, Before.
  rewrite andb_true_iff, bool_decide_eq_true, Z.ltb_lt. done.
Qed.

Lemma visible_not_eligible now msg : visible now msg = false ↔ ¬ eligible now msg.
Proof. rewrite <- visible_eligible. destruct (visible now msg); naive_solver. Qed.

Lemma leaseDuration_pos testing : (0 < leaseDuration testing)%Z.
Proof. destruct testing; reflexivity. Qed.


(** ** The loop of Pull

    One pull: the lease duration of the build and the clock reading are
    fixed. *)

Section PullLoop.

Context (testing : bool) (now : Time).

Lemma grantUpTo_0 msgs : grantUpTo testing now 0 msgs = msgs.
Proof. by destruct msgs. Qed.

Lemma pullLoop_eq maxMessages msgs received :
  let n := (Z.to_nat maxMessages - length received)%nat in
  pullLoop testing now maxMessages msgs received =
  (grantUpTo testing now n msgs,
   received ++ map toReceived (take n (filter (eligible now) msgs))).
Proof.
  revert received. induction msgs as [|msg rest IH]; intros received n; simpl.
  { by rewrite filter_nil, take_nil, app_nil_r. }
  destruct (Z.geb_spec (Z.of_nat (length received)) maxMessages) as [Hge|Hlt].
  { assert (n = 0%nat) as -> by (unfold n; lia). by rewrite app_nil_r. }
  assert (∃ n', n = S n' ∧
            (Z.to_nat maxMessages - length (received ++ [toReceived msg]))%nat = n')
    as (n' & Hn & Hn').
  { exists (n - 1)%nat. rewrite length_app; simpl. unfold n; lia. }
  rewrite Hn. destruct (visible now msg) eqn:Hvis.
  - apply visible_eligible in Hvis.
    rewrite IH, Hn'. rewrite decide_True by done.
    rewrite filter_cons_True by done. simpl. by rewrite <- app_assoc.
  - apply visible_not_eligible in Hvis.
    rewrite IH. fold n. rewrite Hn. rewrite decide_False by done.
    by rewrite filter_cons_False by done.
Qed.

Lemma rank_0 msgs : rank now msgs 0 = 0%nat.
Proof. done. Qed.

Lemma rank_S msg rest i :
  rank now (msg :: rest) (S i) =
  ((if decide (eligible now msg) then 1 else 0) + rank now rest i)%nat.
Proof.
  unfold rank. simpl. case_decide.
  - by rewrite filter_cons_True.
  - by rewrite filter_cons_False.
Qed.

Lemma length_grantUpTo n msgs :
  length (grantUpTo testing now n msgs) = length msgs.
Proof.
  revert n. induction msgs as [|msg rest IH]; intros [|n]; simpl; try done.
  case_decide; simpl; by rewrite IH.
Qed.

(** Position by position: the lease at [i] is granted exactly when it is
    eligible and fewer than [n] eligible leases are stored before it. *)
Lemma grantUpTo_lookup n msgs i :
  grantUpTo testing now n msgs !! i =
  (λ msg, if decide (eligible now msg ∧ (rank now msgs i < n)%nat)
          then grant testing now msg else msg) <$> msgs !! i.
Proof.
  revert n i. induction msgs as [|msg rest IH]; intros n i; [by destruct n|].
  destruct n as [|n].
  { rewrite grantUpTo_0. destruct (_ !! i) eqn:E; simpl; [|done].
    rewrite decide_False; [done|lia]. }
  simpl. destruct i as [|i].
  - rewrite rank_0. simpl. destruct (decide (eligible now msg)).
    + rewrite decide_True; [done|split; [done|lia]].
    + rewrite decide_False; [done|tauto].
  - rewrite rank_S. destruct (decide (eligible now msg)); simpl; rewrite IH;
      destruct (rest !! i); simpl; try done; f_equal;
      repeat case_decide; try done; exfalso; intuition lia.
Qed.


Lemma map_AckID_grantUpTo n msgs :
  map InternalMessage_AckID (grantUpTo testing now n msgs) = map InternalMessage_AckID msgs.
Proof.
  revert n. induction msgs as [|msg rest IH]; intros [|n]; simpl; try done.
  case_decide; simpl; by rewrite IH.
Qed.

(** A lease of the queue after the loop is a lease of the queue before it,
    as it was or granted. *)
Lemma elem_of_grantUpTo n msgs msg' :
  msg' ∈ grantUpTo testing now n msgs →
  msg' ∈ msgs ∨ ∃ msg, msg ∈ msgs ∧ eligible now msg ∧ msg' = grant testing now msg.
Proof.
  revert n. induction msgs as [|msg rest IH]; intros [|n]; simpl; try by left.
  case_decide; rewrite !elem_of_cons; intros [->|Hin].
  - right. exists msg. rewrite elem_of_cons. auto.
  - destruct (IH _ Hin) as [?|(m & ? & ? & ?)]; [auto|].
    right. exists m. rewrite elem_of_cons. auto.
  - auto.
  - destruct (IH _ Hin) as [?|(m & ? & ? & ?)]; [auto|].
    right. exists m. rewrite elem_of_cons. auto.
Qed.


End PullLoop.

(** ** Pull *)

Lemma Pull_unregistered testing now name maxMessages s :
  subscriptions s !! name = None →
  Pull testing now name maxMessages s = (Err ErrSubscriptionNotFound, s).
Proof. unfold Pull. by intros ->. Qed.

Lemma Pull_no_queue testing now name maxMessages s :
  registered s name → messages s !! name = None →
  Pull testing now name maxMessages s = (Ok [], s).
Proof. unfold Pull. by intros [sub ->] ->. Qed.

Lemma Pull_negative testing now name maxMessages s :
  registered s name → is_Some (messages s !! name) → (maxMessages < 0)%Z →
  Pull testing now name maxMessages s = (Panic, s).
Proof.
  unfold Pull. intros [sub ->] [msgs ->] Hneg.
  by destruct (Z.ltb_spec maxMessages 0); [|lia].
Qed.

Lemma Pull_queue testing now name maxMessages s msgs :
  registered s name → messages s !! name = Some msgs → (0 <= maxMessages)%Z →
  Pull testing now name maxMessages s =
  (Ok (map toReceived (take (Z.to_nat maxMessages) (filter (eligible now) msgs))),
   set_messages (insert name (grantUpTo testing now (Z.to_nat maxMessages) msgs)) s).
Proof.
  unfold Pull. intros [sub ->] -> Hmax.
  destruct (Z.ltb_spec maxMessages 0); [lia|].
  rewrite pullLoop_eq. simpl. by rewrite Nat.sub_0_r.
Qed.

(** [Pull] in terms of [queue], whether or not the queue record exists. *)
Lemma Pull_result testing now name maxMessages s :
  registered s name → (0 <= maxMessages)%Z →
  ∃ s', Pull testing now name maxMessages s =
          (Ok (map toReceived
                 (take (Z.to_nat maxMessages) (filter (eligible now) (queue s name)))), s')
        ∧ topics s' = topics s
        ∧ subscriptions s' = subscriptions s
        ∧ queue s' name = grantUpTo testing now (Z.to_nat maxMessages) (queue s name)
        ∧ (∀ other, other ≠ name → messages s' !! other = messages s !! other)
        ∧ (is_Some (messages s' !! name) ↔ is_Some (messages s !! name)).
Proof.
  intros Hreg Hmax. unfold queue. destruct (messages s !! name) as [msgs|] eqn:Hq.
  - eexists. split; [by apply Pull_queue|]. simpl.
    rewrite lookup_insert_eq. split_and!; eauto.
    + intros other Hne. by rewrite lookup_insert_ne.
    + split; eauto.
  - exists s. rewrite Pull_no_queue by done. rewrite Hq. simpl.
    rewrite filter_nil, take_nil, grantUpTo_0 || rewrite filter_nil, take_nil.
    split_and!; try done; by destruct (Z.to_nat _).
Qed.

(** ** The loop of Acknowledge *)

Lemma inAckIDSet_foldl ackIDs acc id :
  inAckIDSet (foldl (λ ackIDSet id, <[id := true]> ackIDSet) acc ackIDs) id = true
  ↔ id ∈ ackIDs ∨ inAckIDSet acc id = true.
Proof.
  revert acc. induction ackIDs as [|a ackIDs IH]; intros acc; simpl.
  { rewrite elem_of_nil. tauto. }
  rewrite IH, elem_of_cons. unfold inAckIDSet.
  destruct (decide (a = id)) as [->|Hne].
  - rewrite lookup_insert_eq. simpl. tauto.
  - rewrite lookup_insert_ne by done.
    split; (intros [[?|?]|?]; [congruence|tauto|tauto]) || (intros [?|?]; tauto).
Qed.

Lemma inAckIDSet_mkAckIDSet ackIDs id :
  inAckIDSet (mkAckIDSet ackIDs) id = true ↔ id ∈ ackIDs.
Proof.
  unfold mkAckIDSet. rewrite inAckIDSet_foldl. unfold inAckIDSet.
  rewrite lookup_empty. simpl. split; [intros [?|?]; [done|congruence]|tauto].
Qed.

Lemma ackLoop_eq now ackIDs msgs newMessages :
  ackLoop now (mkAckIDSet ackIDs) msgs newMessages =
  (map (ackMark now ackIDs) msgs, newMessages ++ filter (ackKept ackIDs) msgs).
Proof.
  revert newMessages. induction msgs as [|msg rest IH]; intros newMessages; simpl.
  { by rewrite filter_nil, app_nil_r. }
  unfold ackMark at 1.
  destruct (inAckIDSet _ _) eqn:Hin.
  - apply inAckIDSet_mkAckIDSet in Hin. rewrite decide_True by done.
    simpl. rewrite IH. rewrite filter_cons_False; [done|]. unfold ackKept. tauto.
  - assert (InternalMessage_AckID msg ∉ ackIDs) as Hnin.
    { rewrite <- inAckIDSet_mkAckIDSet. by rewrite Hin. }
    rewrite decide_False by done.
    destruct (decide (InternalMessage_AckedAt msg = None)) as [Hp|Hp].
    + rewrite bool_decide_true by done. rewrite IH.
      rewrite (filter_cons_True _ msg rest) by done. by rewrite <- app_assoc.
    + rewrite bool_decide_false by done. rewrite IH.
      rewrite filter_cons_False; [done|]. unfold ackKept. tauto.
Qed.

(** ** Acknowledge *)

Lemma Acknowledge_unregistered now name ackIDs s :
  subscriptions s !! name = None →
  Acknowledge now name ackIDs s = (Err ErrSubscriptionNotFound, s).
Proof. unfold Acknowledge. by intros ->. Qed.

Lemma Acknowledge_no_queue now name ackIDs s :
  registered s name → messages s !! name = None →
  Acknowledge now name ackIDs s = (Err ErrNoMessages, s).
Proof. unfold Acknowledge. by intros [sub ->] ->. Qed.

Lemma Acknowledge_queue now name ackIDs s msgs :
  registered s name → messages s !! name = Some msgs →
  Acknowledge now name ackIDs s =
  (Ok (), set_messages (insert name (filter (ackKept ackIDs) msgs)) s).
Proof.
  unfold Acknowledge. intros [sub ->] ->. by rewrite ackLoop_eq.
Qed.

(** On a queue of pending leases the loop keeps the leases whose token is
    not in the list. *)
Lemma filter_ackKept_pending ackIDs (msgs : list InternalMessage) :
  (∀ msg, msg ∈ msgs → InternalMessage_AckedAt msg = None) →
  filter (ackKept ackIDs) msgs = filter (λ msg, InternalMessage_AckID msg ∉ ackIDs) msgs.
Proof.
  induction msgs as [|msg rest IH]; intros Hp; [done|].
  assert (InternalMessage_AckedAt msg = None) as Hmsg by (apply Hp; left).
  assert (filter (ackKept ackIDs) rest =
          filter (λ msg, InternalMessage_AckID msg ∉ ackIDs) rest) as IH'.
  { apply IH. intros m Hm. apply Hp. by right. }
  destruct (decide (InternalMessage_AckID msg ∈ ackIDs)) as [Hin|Hin].
  - rewrite !filter_cons_False; [done|tauto|unfold ackKept; tauto].
  - rewrite !filter_cons_True; [by rewrite IH'|done|by split].
Qed.

Lemma filter_ackKept_idemp ackIDs ackIDs' (msgs : list InternalMessage) :
  ackIDs' ⊆ ackIDs →
  filter (ackKept ackIDs') (filter (ackKept ackIDs) msgs) = filter (ackKept ackIDs) msgs.
Proof.
  intros Hsub. induction msgs as [|msg rest IH]; [done|].
  destruct (decide (ackKept ackIDs msg)) as [Hk|Hk].
  - rewrite (filter_cons_True _ msg rest) by done.
    rewrite filter_cons_True; [by rewrite IH|].
    destruct Hk as [Hk1 Hk2]. split; [|done]. intros Hin. apply Hk1. by apply Hsub.
  - by rewrite filter_cons_False.
Qed.

(** ** The loops of Publish *)

Lemma genMessageIDs_eq uuid msgs k :
  genMessageIDs uuid msgs k = (map uuid (seq k (length msgs)), (k + length msgs)%nat).
Proof.
  revert k. induction msgs as [|m rest IH]; intros k; simpl.
  - by rewrite Nat.add_0_r.
  - rewrite IH. simpl. f_equal. lia.
Qed.

Lemma length_newLeases uuid now batch k :
  length (newLeases uuid now batch k) = length batch.
Proof.
  revert k. induction batch as [|[m id] rest IH]; intros k; simpl; [done|].
  by rewrite IH.
Qed.

Lemma newLeases_lookup uuid now batch k i m id :
  batch !! i = Some (m, id) →
  newLeases uuid now batch k !! i = Some (newInternalMessage now m id (uuid (k + i)%nat)).
Proof.
  revert k i. induction batch as [|[m' id'] rest IH]; intros k i; [done|].
  destruct i as [|i]; simpl.
  - intros [= -> ->]. by rewrite Nat.add_0_r.
  - intros Hi. rewrite (IH (S k) i Hi). do 3 f_equal. lia.
Qed.

Lemma elem_of_newLeases uuid now batch k msg :
  msg ∈ newLeases uuid now batch k →
  ∃ i m id, batch !! i = Some (m, id) ∧ msg = newInternalMessage now m id (uuid (k + i)%nat).
Proof.
  intros Hin. apply list_elem_of_lookup in Hin as [i Hi].
  pose proof (lookup_lt_Some _ _ _ Hi) as Hlt. rewrite length_newLeases in Hlt.
  destruct (lookup_lt_is_Some_2 batch i Hlt) as [[m id] Hb].
  exists i, m, id. split; [done|].
  rewrite (newLeases_lookup _ _ _ _ _ _ _ Hb) in Hi. congruence.
Qed.

Lemma deliver_eq uuid now name batch k msgs q :
  msgs !! name = Some q →
  deliver uuid now name batch k msgs =
  (<[name := q ++ newLeases uuid now batch k]> msgs, (k + length batch)%nat).
Proof.
  revert k msgs q. induction batch as [|[m id] rest IH]; intros k msgs q Hq; simpl.
  - rewrite app_nil_r, insert_id by done. by rewrite Nat.add_0_r.
  - unfold appendMessage. rewrite Hq. simpl.
    erewrite IH by apply lookup_insert_eq.
    rewrite insert_insert_eq, <- app_assoc. simpl. do 2 f_equal. lia.
Qed.

Lemma boundIn_cons topicName key sub order :
  boundIn topicName ((key, sub) :: order) =
  if decide (Subscription_Topic sub = topicName)
  then (key, sub) :: boundIn topicName order else boundIn topicName order.
Proof.
  unfold boundIn. case_decide.
  - by rewrite filter_cons_True.
  - by rewrite filter_cons_False.
Qed.

(** The effect of the fan-out on the queues: the [j]-th bound subscription
    of the visit gets the leases drawn at its turn, every other queue is
    as it was. *)
Lemma fanOut_spec uuid now topicName batch order k msgs :
  NoDup (map (λ entry, Subscription_Name entry.2) order) →
  (∀ entry, entry ∈ order → is_Some (msgs !! Subscription_Name entry.2)) →
  ∃ msgs',
    fanOut uuid now topicName batch order k msgs =
      (msgs', (k + length (boundIn topicName order) * length batch)%nat)
    ∧ (∀ name, name ∉ map (λ entry, Subscription_Name entry.2) (boundIn topicName order) →
         msgs' !! name = msgs !! name)
    ∧ (∀ j entry q,
         boundIn topicName order !! j = Some entry →
         msgs !! Subscription_Name entry.2 = Some q →
         msgs' !! Subscription_Name entry.2 =
           Some (q ++ newLeases uuid now batch (k + j * length batch)%nat)).
Proof.
  revert k msgs. induction order as [|[key sub] rest IH]; intros k msgs Hnd Hq.
  { exists msgs. simpl. split_and!; [f_equal; lia|done|done]. }
  simpl in Hnd. apply NoDup_cons in Hnd as [Hfresh Hnd].
  rewrite boundIn_cons. simpl.
  destruct (decide (Subscription_Topic sub = topicName)) as [Hb|Hb].
  - destruct (Hq (key, sub)) as [q0 Hq0]; [left|]. simpl in Hq0.
    rewrite (deliver_eq _ _ _ _ _ _ _ Hq0).
    destruct (IH (k + length batch)%nat
                (<[Subscription_Name sub := q0 ++ newLeases uuid now batch k]> msgs) Hnd)
      as (msgs' & Heq & Hother & Hbound).
    { intros entry Hin. destruct (decide (Subscription_Name sub = Subscription_Name entry.2))
        as [->|Hne]; [rewrite lookup_insert_eq; eauto|].
      rewrite lookup_insert_ne by done. apply Hq. by right. }
    exists msgs'. split_and!.
    + rewrite Heq. f_equal. simpl. lia.
    + intros name Hname. simpl in Hname. rewrite not_elem_of_cons in Hname.
      destruct Hname as [Hne Hname]. rewrite (Hother _ Hname).
      by rewrite lookup_insert_ne.
    + intros [|j] entry q; simpl.
      * intros [= <-] Hqe. simpl in *. rewrite Hother.
        -- rewrite lookup_insert_eq, Nat.add_0_r. congruence.
        -- intros Hin. apply Hfresh. apply list_elem_of_fmap in Hin as (e & He & Hin).
           apply list_elem_of_fmap. exists e. split; [done|].
           by apply list_elem_of_filter in Hin as [_ ?].
      * intros Hj Hqe. assert (Subscription_Name sub ≠ Subscription_Name entry.2) as Hne.
        { intros Heq'. apply Hfresh. apply list_elem_of_fmap. exists entry.
          split; [done|]. apply list_elem_of_lookup_2 in Hj.
          by apply list_elem_of_filter in Hj as [_ ?]. }
        rewrite (Hbound j entry q Hj) by (by rewrite lookup_insert_ne).
        do 3 f_equal. lia.
  - destruct (IH k msgs Hnd) as (msgs' & Heq & Hother & Hbound).
    { intros entry Hin. apply Hq. by right. }
    exists msgs'. by split_and!.
Qed.

(** ** Publish *)

Lemma Publish_unregistered uuid order now topicName msgs s k :
  topics s !! topicName = None →
  Publish uuid order now topicName msgs s k = (Err ErrTopicNotFound, s, k).
Proof. unfold Publish. by intros ->. Qed.

Lemma rangeOrder_elem_of order s key sub :
  rangeOrder order s → (key, sub) ∈ order ↔ subscriptions s !! key = Some sub.
Proof. unfold rangeOrder. intros ->. apply elem_of_map_to_list. Qed.

Lemma rangeOrder_names order s :
  StorageInv s → rangeOrder order s →
  map (λ entry : string * Subscription, Subscription_Name entry.2) order = order.*1.
Proof.
  intros Hinv Hord. apply map_ext_in. intros [key sub] Hin. simpl.
  apply list_elem_of_In in Hin. apply (rangeOrder_elem_of _ _ _ _ Hord) in Hin.
  by apply (inv_name _ Hinv).
Qed.

Lemma rangeOrder_NoDup order s :
  StorageInv s → rangeOrder order s →
  NoDup (map (λ entry : string * Subscription, Subscription_Name entry.2) order).
Proof.
  intros Hinv Hord. rewrite (rangeOrder_names _ _ Hinv Hord).
  unfold rangeOrder in Hord. rewrite Hord. apply NoDup_fst_map_to_list.
Qed.

Lemma boundIn_elem_of topicName order s key sub :
  rangeOrder order s →
  (key, sub) ∈ boundIn topicName order
  ↔ subscriptions s !! key = Some sub ∧ Subscription_Topic sub = topicName.
Proof.
  intros Hord. unfold boundIn. rewrite list_elem_of_filter. simpl.
  rewrite (rangeOrder_elem_of _ _ _ _ Hord). tauto.
Qed.

(** [Publish] on a state that satisfies the invariant. *)
Lemma Publish_ok uuid order now topicName msgs s k :
  StorageInv s → rangeOrder order s → is_Some (topics s !! topicName) →
  let n := length msgs in
  let ids := map uuid (seq k n) in
  let slots := boundIn topicName order in
  ∃ msgs',
    Publish uuid order now topicName msgs s k =
      (Ok ids, set_messages (λ _, msgs') s, (k + n + length slots * n)%nat)
    ∧ (∀ name, ¬ bound s topicName name → msgs' !! name = messages s !! name)
    ∧ (∀ name, bound s topicName name →
         ∃ j sub q, slots !! j = Some (name, sub)
           ∧ messages s !! name = Some q
           ∧ msgs' !! name =
               Some (q ++ newLeases uuid now (zip msgs ids) (k + n + j * n)%nat)).
Proof.
  intros Hinv Hord [topic Htopic] n ids slots. unfold Publish. rewrite Htopic.
  rewrite genMessageIDs_eq. fold n ids.
  destruct (fanOut_spec uuid now topicName (zip msgs ids) order (k + n)%nat (messages s))
    as (msgs' & Heq & Hother & Hbound).
  { by eapply rangeOrder_NoDup. }
  { intros [key sub] Hin. simpl.
    apply (rangeOrder_elem_of _ _ _ _ Hord) in Hin.
    rewrite (inv_name _ Hinv _ _ Hin). apply (inv_queue _ Hinv). eauto. }
  assert (length (zip msgs ids) = n) as Hlen.
  { rewrite length_zip_with. unfold ids. rewrite length_map, length_seq. fold n. lia. }
  rewrite Hlen in Heq, Hbound. fold slots in Heq, Hother, Hbound.
  exists msgs'. rewrite Heq. split_and!; [done| |].
  - intros name Hnb. apply Hother. intros Hin.
    apply list_elem_of_fmap in Hin as ([key sub] & -> & Hin). simpl in Hnb.
    apply (boundIn_elem_of _ _ _ _ _ Hord) in Hin as [Hsub Htop].
    apply Hnb. exists sub. by rewrite <- (inv_name _ Hinv _ _ Hsub) in Hsub.
  - intros name (sub & Hsub & Htop).
    assert ((name, sub) ∈ slots) as Hin by (by apply (boundIn_elem_of _ _ _ _ _ Hord)).
    apply list_elem_of_lookup in Hin as [j Hj].
    destruct (proj1 (inv_queue _ Hinv name)) as [q Hq]; [eauto|].
    exists j, sub, q. split_and!; [done|done|].
    specialize (Hbound j (name, sub) q Hj). simpl in Hbound.
    rewrite (inv_name _ Hinv _ _ Hsub) in Hbound. by apply Hbound.
Qed.

(** ** The state invariant *)

Lemma StorageInv_NewStorage : StorageInv NewStorage.
Proof.
  split; simpl.
  - intros name sub. by rewrite lookup_empty.
  - intros name. rewrite !lookup_empty. split; by intros [? ?].
  - intros name msgs msg. by rewrite lookup_empty.
Qed.

(** An operation that leaves the registry of subscriptions and the queues
    alone keeps the invariant. *)
Lemma StorageInv_same s s' :
  subscriptions s' = subscriptions s → messages s' = messages s →
  StorageInv s → StorageInv s'.
Proof. intros Hs Hm [H1 H2 H3]. split; rewrite ?Hs, ?Hm; eauto. Qed.

Lemma StorageInv_CreateTopic name s : StorageInv s → StorageInv (CreateTopic name s).2.
Proof. unfold CreateTopic. destruct (topics s !! name); [done|]. by apply StorageInv_same. Qed.

Lemma StorageInv_DeleteTopic name s : StorageInv s → StorageInv (DeleteTopic name s).2.
Proof. unfold DeleteTopic. destruct (topics s !! name); [|done]. by apply StorageInv_same. Qed.

Lemma StorageInv_CreateSubscription name topicName s :
  StorageInv s → StorageInv (CreateSubscription name topicName s).2.
Proof.
  intros Hinv. unfold CreateSubscription.
  destruct (subscriptions s !! name) eqn:Hsub; [done|].
  destruct (topics s !! topicName); [|done]. destruct Hinv as [H1 H2 H3].
  split; simpl.
  - intros n sub. destruct (decide (name = n)) as [->|Hne].
    + rewrite lookup_insert_eq. by intros [= <-].
    + rewrite lookup_insert_ne by done. apply H1.
  - intros n. destruct (decide (name = n)) as [->|Hne].
    + rewrite !lookup_insert_eq. split; eauto.
    + rewrite !lookup_insert_ne by done. apply H2.
  - intros n msgs msg. destruct (decide (name = n)) as [->|Hne].
    + rewrite lookup_insert_eq. intros [= <-]. by rewrite elem_of_nil.
    + rewrite lookup_insert_ne by done. apply H3.
Qed.

Lemma StorageInv_DeleteSubscription name s :
  StorageInv s → StorageInv (DeleteSubscription name s).2.
Proof.
  intros Hinv. unfold DeleteSubscription.
  destruct (subscriptions s !! name) eqn:Hsub; [|done]. destruct Hinv as [H1 H2 H3].
  split; simpl.
  - intros n sub. destruct (decide (name = n)) as [->|Hne].
    + by rewrite lookup_delete_eq.
    + rewrite lookup_delete_ne by done. apply H1.
  - intros n. destruct (decide (name = n)) as [->|Hne].
    + rewrite !lookup_delete_eq. split; by intros [? ?].
    + rewrite !lookup_delete_ne by done. apply H2.
  - intros n msgs msg. destruct (decide (name = n)) as [->|Hne].
    + by rewrite lookup_delete_eq.
    + rewrite lookup_delete_ne by done. apply H3.
Qed.

(** Replacing the queue of a subscription that has one keeps the
    invariant if the new queue holds pending leases only. *)
Lemma StorageInv_insert_queue name msgs' s :
  is_Some (messages s !! name) →
  (∀ msg, msg ∈ msgs' → InternalMessage_AckedAt msg = None) →
  StorageInv s → StorageInv (set_messages (insert name msgs') s).
Proof.
  intros Hq Hp [H1 H2 H3]. split; simpl; [done| |].
  - intros n. destruct (decide (name = n)) as [->|Hne].
    + rewrite lookup_insert_eq. rewrite H2. split; eauto.
    + rewrite lookup_insert_ne by done. apply H2.
  - intros n msgs msg. destruct (decide (name = n)) as [->|Hne].
    + rewrite lookup_insert_eq. intros [= <-]. apply Hp.
    + rewrite lookup_insert_ne by done. apply H3.
Qed.

Lemma StorageInv_Pull testing now name maxMessages s :
  StorageInv s → StorageInv (Pull testing now name maxMessages s).2.
Proof.
  intros Hinv. destruct (subscriptions s !! name) as [sub|] eqn:Hsub;
    [|by rewrite Pull_unregistered].
  assert (registered s name) as Hreg by (by exists sub).
  destruct (messages s !! name) as [msgs|] eqn:Hq; [|by rewrite Pull_no_queue].
  destruct (Z.ltb_spec maxMessages 0) as [Hneg|Hpos].
  { rewrite Pull_negative; eauto. }
  rewrite (Pull_queue _ _ _ _ _ msgs) by done. simpl.
  apply StorageInv_insert_queue; [eauto| |done].
  intros msg' Hin. apply elem_of_grantUpTo in Hin as [Hin|(msg & Hin & _ & ->)];
    simpl; by apply (inv_pending _ Hinv name msgs).
Qed.

Lemma StorageInv_Acknowledge now name ackIDs s :
  StorageInv s → StorageInv (Acknowledge now name ackIDs s).2.
Proof.
  intros Hinv. destruct (subscriptions s !! name) as [sub|] eqn:Hsub;
    [|by rewrite Acknowledge_unregistered].
  assert (registered s name) as Hreg by (by exists sub).
  destruct (messages s !! name) as [msgs|] eqn:Hq; [|by rewrite Acknowledge_no_queue].
  rewrite (Acknowledge_queue _ _ _ _ msgs) by done. simpl.
  apply StorageInv_insert_queue; [eauto| |done].
  intros msg Hin. by apply list_elem_of_filter in Hin as [[_ ?] _].
Qed.

Lemma newLeases_pending uuid now batch k msg :
  msg ∈ newLeases uuid now batch k → InternalMessage_AckedAt msg = None.
Proof. intros Hin. by apply elem_of_newLeases in Hin as (i & m & id & _ & ->). Qed.

Lemma StorageInv_Publish uuid order now topicName msgs s k :
  StorageInv s → rangeOrder order s →
  StorageInv (Publish uuid order now topicName msgs s k).1.2.
Proof.
  intros Hinv Hord. destruct (topics s !! topicName) as [topic|] eqn:Htopic;
    [|by rewrite Publish_unregistered].
  destruct (Publish_ok uuid order now topicName msgs s k Hinv Hord)
    as (msgs' & -> & Hother & Hbound); [eauto|]. simpl.
  assert (∀ name, bound s topicName name ∨ ¬ bound s topicName name) as Hdec.
  { intros name. unfold bound. destruct (subscriptions s !! name) as [sub|]; [|right; by intros (? & ? & ?)].
    destruct (decide (Subscription_Topic sub = topicName)); [left; eauto|right].
    intros (sub' & [= <-] & ?). done. }
  split; simpl.
  - apply (inv_name _ Hinv).
  - intros name. destruct (Hdec name) as [Hb|Hnb].
    + destruct (Hbound name Hb) as (j & sub & q & _ & Hq & ->).
      rewrite (inv_queue _ Hinv), Hq. split; eauto.
    + rewrite (Hother name Hnb). apply (inv_queue _ Hinv).
  - intros name q' msg. destruct (Hdec name) as [Hb|Hnb].
    + destruct (Hbound name Hb) as (j & sub & q & _ & Hq & ->).
      intros [= <-]. rewrite elem_of_app. intros [Hin|Hin].
      * by apply (inv_pending _ Hinv name q).
      * by eapply newLeases_pending.
    + rewrite (Hother name Hnb). apply (inv_pending _ Hinv).
Qed.

Lemma StorageInv_exec uuid testing op w :
  admissible op w → StorageInv w.1 → StorageInv (exec uuid testing op w).1.
Proof.
  destruct w as [s k]. destruct op; simpl; intros Hadm Hinv.
  - by apply StorageInv_CreateTopic.
  - unfold GetTopic. by destruct (topics s !! name).
  - by apply StorageInv_DeleteTopic.
  - by apply StorageInv_CreateSubscription.
  - unfold GetSubscription. by destruct (subscriptions s !! name).
  - by apply StorageInv_DeleteSubscription.
  - by apply StorageInv_Publish.
  - by apply StorageInv_Pull.
  - by apply StorageInv_Acknowledge.
  - done.
  - done.
Qed.

Lemma reachable_StorageInv uuid testing w :
  reachable uuid testing w → StorageInv w.1.
Proof.
  induction 1 as [k|op w Hreach IH Hadm].
  - apply StorageInv_NewStorage.
  - by apply StorageInv_exec.
Qed.

Lemma sublist_map_filter {A B} (f : A → B) (P : A → Prop) `{!∀ x, Decision (P x)}
    (l : list A) :
  sublist (map f (filter P l)) (map f l).
Proof.
  induction l as [|x l IH]; [done|].
  destruct (decide (P x)).
  - rewrite filter_cons_True by done. simpl. by constructor.
  - rewrite filter_cons_False by done. simpl. by constructor.
Qed.

(** ** Lease tokens

    The lemmas of this section are about one generator [uuid], taken to
    return a new value at each call, as [uuid.New()] is relied on to. *)

Section Tokens.

Context (uuid : nat → string) (testing : bool).
Hypothesis uuid_fresh : Inj (=) (=) uuid.

(** *** The invariant of the lease tokens *)

Lemma map_AckID_newLeases now batch k :
  map InternalMessage_AckID (newLeases uuid now batch k) = map uuid (seq k (length batch)).
Proof.
  revert k. induction batch as [|[m id] rest IH]; intros k; simpl; [done|].
  by rewrite IH.
Qed.

Lemma TokenInv_same s s' k k' :
  messages s' = messages s → (k ≤ k')%nat → TokenInv uuid (s, k) → TokenInv uuid (s', k').
Proof.
  intros Hm Hk [H1 H2]. split; simpl in *; rewrite Hm; [|done].
  intros name msgs msg Hq Hin. destruct (H1 name msgs msg Hq Hin) as (j & Hj & ?).
  exists j. split; [lia|done].
Qed.

(** Replacing a queue by one whose tokens are a sublist of the tokens it
    held keeps the invariant. *)
Lemma TokenInv_insert_sublist name msgs msgs' s k :
  messages s !! name = Some msgs →
  sublist (map InternalMessage_AckID msgs') (map InternalMessage_AckID msgs) →
  TokenInv uuid (s, k) → TokenInv uuid (set_messages (insert name msgs') s, k).
Proof.
  intros Hq Hsub [H1 H2]. simpl in *. split; simpl.
  - intros n q msg. destruct (decide (name = n)) as [->|Hne].
    + rewrite lookup_insert_eq. intros [= <-] Hin.
      assert (InternalMessage_AckID msg ∈ map InternalMessage_AckID msgs) as Hin'.
      { eapply elem_of_sublist; [|done]. apply list_elem_of_fmap. eauto. }
      apply list_elem_of_fmap in Hin' as (msg0 & -> & Hin0). by apply (H1 n msgs).
    + rewrite lookup_insert_ne by done. apply H1.
  - intros n q. destruct (decide (name = n)) as [->|Hne].
    + rewrite lookup_insert_eq. intros [= <-]. eapply sublist_NoDup; [by eapply H2|done].
    + rewrite lookup_insert_ne by done. apply H2.
Qed.

Lemma TokenInv_Pull now name maxMessages s k :
  TokenInv uuid (s, k) → TokenInv uuid ((Pull testing now name maxMessages s).2, k).
Proof.
  intros Hinv. destruct (subscriptions s !! name) as [sub|] eqn:Hsub;
    [|by rewrite Pull_unregistered].
  assert (registered s name) as Hreg by (by exists sub).
  destruct (messages s !! name) as [msgs|] eqn:Hq; [|by rewrite Pull_no_queue].
  destruct (Z.ltb_spec maxMessages 0) as [Hneg|Hpos].
  { rewrite Pull_negative; eauto. }
  rewrite (Pull_queue _ _ _ _ _ msgs) by done. simpl.
  apply (TokenInv_insert_sublist _ msgs); [done| |done].
  by rewrite map_AckID_grantUpTo.
Qed.

Lemma TokenInv_Acknowledge now name ackIDs s k :
  TokenInv uuid (s, k) → TokenInv uuid ((Acknowledge now name ackIDs s).2, k).
Proof.
  intros Hinv. destruct (subscriptions s !! name) as [sub|] eqn:Hsub;
    [|by rewrite Acknowledge_unregistered].
  assert (registered s name) as Hreg by (by exists sub).
  destruct (messages s !! name) as [msgs|] eqn:Hq; [|by rewrite Acknowledge_no_queue].
  rewrite (Acknowledge_queue _ _ _ _ msgs) by done. simpl.
  apply (TokenInv_insert_sublist _ msgs); [done| |done].
  apply sublist_map_filter.
Qed.

Lemma TokenInv_CreateSubscription name topicName s k :
  TokenInv uuid (s, k) → TokenInv uuid ((CreateSubscription name topicName s).2, k).
Proof.
  intros [H1 H2]. unfold CreateSubscription.
  destruct (subscriptions s !! name); [done|]. destruct (topics s !! topicName); [|done].
  simpl in *. split; simpl.
  - intros n q msg. destruct (decide (name = n)) as [->|Hne].
    + rewrite lookup_insert_eq. intros [= <-]. by rewrite elem_of_nil.
    + rewrite lookup_insert_ne by done. apply H1.
  - intros n q. destruct (decide (name = n)) as [->|Hne].
    + rewrite lookup_insert_eq. intros [= <-]. constructor.
    + rewrite lookup_insert_ne by done. apply H2.
Qed.

Lemma TokenInv_DeleteSubscription name s k :
  TokenInv uuid (s, k) → TokenInv uuid ((DeleteSubscription name s).2, k).
Proof.
  intros [H1 H2]. unfold DeleteSubscription.
  destruct (subscriptions s !! name); [|done].
  simpl in *. split; simpl.
  - intros n q msg. destruct (decide (name = n)) as [->|Hne].
    + by rewrite lookup_delete_eq.
    + rewrite lookup_delete_ne by done. apply H1.
  - intros n q. destruct (decide (name = n)) as [->|Hne].
    + by rewrite lookup_delete_eq.
    + rewrite lookup_delete_ne by done. apply H2.
Qed.

Lemma Publish_counter_le order now topicName msgs s k :
  (k ≤ (Publish uuid order now topicName msgs s k).2)%nat.
Proof.
  unfold Publish. destruct (topics s !! topicName); [|done].
  rewrite genMessageIDs_eq.
  assert (∀ batch k0 m,
    (k0 ≤ (fanOut uuid now topicName batch order k0 m).2)%nat) as Hfan.
  { intros batch. induction order as [|[key sub] rest IH]; intros k0 m; simpl; [done|].
    case_decide; [|apply IH].
    assert (∀ k1 m1, (deliver uuid now (Subscription_Name sub) batch k1 m1).2
                     = (k1 + length batch)%nat) as Hd.
    { clear. induction batch as [|[pm id] batch IHb]; intros k1 m1; simpl; [lia|].
      rewrite IHb. lia. }
    specialize (Hd k0 m). destruct (deliver _ _ _ _ _ _) as [m' k'] eqn:E.
    simpl in Hd. subst k'. etrans; [|apply IH]. lia. }
  specialize (Hfan (zip msgs (map uuid (seq k (length msgs)))) (k + length msgs)%nat
                (messages s)).
  destruct (fanOut _ _ _ _ _ _ _) as [m' k']. simpl in *. lia.
Qed.

Lemma TokenInv_Publish order now topicName msgs s k :
  StorageInv s → rangeOrder order s → TokenInv uuid (s, k) →
  let r := Publish uuid order now topicName msgs s k in TokenInv uuid (r.1.2, r.2).
Proof.
  intros Hinv Hord Htok. destruct (topics s !! topicName) as [topic|] eqn:Htopic;
    [|by rewrite Publish_unregistered].
  destruct (Publish_ok uuid order now topicName msgs s k Hinv Hord)
    as (msgs' & Heq & Hother & Hbound); [eauto|]. simpl. rewrite Heq. simpl.
  set (n := length msgs) in *. set (ids := map uuid (seq k n)) in *.
  set (slots := boundIn topicName order) in *.
  assert (length (zip msgs ids) = n) as Hlen.
  { rewrite length_zip_with. unfold ids. rewrite length_map, length_seq. fold n. lia. }
  assert (∀ name, bound s topicName name ∨ ¬ bound s topicName name) as Hdec.
  { intros name. unfold bound.
    destruct (subscriptions s !! name) as [sub|]; [|right; by intros (? & ? & ?)].
    destruct (decide (Subscription_Topic sub = topicName)); [left; eauto|right].
    intros (sub' & [= <-] & ?). done. }
  destruct Htok as [H1 H2]. simpl in *. split; simpl.
  - intros name q' msg. destruct (Hdec name) as [Hb|Hnb].
    + destruct (Hbound name Hb) as (j & sub & q & Hj & Hq & ->).
      apply lookup_lt_Some in Hj.
      intros [= <-]. rewrite elem_of_app. intros [Hin|Hin].
      * destruct (H1 name q msg Hq Hin) as (i & Hi & ?). exists i. split; [lia|done].
      * apply elem_of_newLeases in Hin as (i & m & id & Hi & ->). simpl.
        apply lookup_lt_Some in Hi. rewrite Hlen in Hi.
        eexists. split; [|done]. nia.
    + rewrite (Hother name Hnb). intros Hq Hin.
      destruct (H1 name q' msg Hq Hin) as (i & Hi & ?). exists i. split; [lia|done].
  - intros name q'. destruct (Hdec name) as [Hb|Hnb].
    + destruct (Hbound name Hb) as (j & sub & q & Hj & Hq & ->).
      intros [= <-]. rewrite map_app, map_AckID_newLeases, Hlen.
      apply NoDup_app. split_and!.
      * by eapply H2.
      * intros tok Hold Hnew.
        apply list_elem_of_fmap in Hold as (msg & -> & Hmsg).
        destruct (H1 name q msg Hq Hmsg) as (i & Hi & Htok).
        apply list_elem_of_fmap in Hnew as (i' & Htok' & Hi').
        apply elem_of_seq in Hi'. rewrite Htok in Htok'. apply uuid_fresh in Htok'. lia.
      * apply (NoDup_fmap_2 uuid). apply NoDup_seq.
    + rewrite (Hother name Hnb). apply H2.
Qed.

Lemma exec_counter_le op w : (w.2 ≤ (exec uuid testing op w).2)%nat.
Proof. destruct w as [s k], op; simpl; try done. apply Publish_counter_le. Qed.

Lemma TokenInv_exec op w :
  admissible op w → StorageInv w.1 → TokenInv uuid w →
  TokenInv uuid (exec uuid testing op w).
Proof.
  destruct w as [s k]. destruct op; simpl; intros Hadm Hinv Htok.
  - unfold CreateTopic. destruct (topics s !! name); [done|].
    by apply (TokenInv_same s _ k k).
  - unfold GetTopic. by destruct (topics s !! name).
  - unfold DeleteTopic. destruct (topics s !! name); [|done].
    by apply (TokenInv_same s _ k k).
  - by apply TokenInv_CreateSubscription.
  - unfold GetSubscription. by destruct (subscriptions s !! name).
  - by apply TokenInv_DeleteSubscription.
  - by apply TokenInv_Publish.
  - by apply TokenInv_Pull.
  - by apply TokenInv_Acknowledge.
  - done.
  - done.
Qed.

Lemma reachable_TokenInv w :
  reachable uuid testing w → TokenInv uuid w.
Proof.
  induction 1 as [k|op w Hreach IH Hadm].
  - split; simpl; intros *; by rewrite lookup_empty.
  - apply TokenInv_exec; try done. by eapply reachable_StorageInv.
Qed.

(** *** A granted lease is held until its deadline *)



(** No pull at [D] or before returns a held token. *)
Lemma heldUntil_not_pulled now name maxMessages tok D s r :
  heldUntil name tok D s → (now <= D)%Z →
  (Pull testing now name maxMessages s).1 = Ok r →
  tok ∉ map ReceivedMessage_AckID r.
Proof.
  intros Hheld Hnow. unfold Pull.
  destruct (subscriptions s !! name); [|done].
  destruct (messages s !! name) as [msgs|] eqn:Hq.
  2:{ intros [= <-]. apply not_elem_of_nil. }
  destruct (maxMessages <? 0)%Z; [done|].
  rewrite pullLoop_eq. simpl. intros [= <-] Hin.
  apply list_elem_of_fmap in Hin as (rm & -> & Hin).
  apply list_elem_of_fmap in Hin as (msg & -> & Hin). simpl in *.
  apply subseteq_take in Hin. apply list_elem_of_filter in Hin as [[_ Hlt] Hin].
  specialize (Hheld msgs msg Hq Hin eq_refl). lia.
Qed.

Lemma heldUntil_same name tok D s s' :
  messages s' !! name = messages s !! name → heldUntil name tok D s → heldUntil name tok D s'.
Proof. unfold heldUntil. by intros ->. Qed.

(** Replacing the queue keeps the token held if every lease of the new
    queue with that token does. *)
Lemma heldUntil_insert name other tok D msgs' s :
  (other = name → ∀ msg, msg ∈ msgs' → InternalMessage_AckID msg = tok →
     (D <= InternalMessage_DeadlineAt msg)%Z) →
  heldUntil name tok D s → heldUntil name tok D (set_messages (insert other msgs') s).
Proof.
  intros Hnew Hheld. destruct (decide (other = name)) as [->|Hne].
  - unfold heldUntil. simpl. rewrite lookup_insert_eq. intros msgs msg [= <-]. by apply Hnew.
  - eapply heldUntil_same; [|done]. simpl. by rewrite lookup_insert_ne.
Qed.

Lemma heldUntil_Pull now other maxMessages name tok D s :
  (now <= D)%Z → heldUntil name tok D s →
  heldUntil name tok D (Pull testing now other maxMessages s).2.
Proof.
  intros Hnow Hheld. unfold Pull.
  destruct (subscriptions s !! other); [|done].
  destruct (messages s !! other) as [msgs|] eqn:Hq; [|done].
  destruct (maxMessages <? 0)%Z; [done|].
  rewrite pullLoop_eq. simpl. apply heldUntil_insert; [|done].
  intros -> msg' Hin Hid.
  apply elem_of_grantUpTo in Hin as [Hin|(msg & Hin & [_ Hlt] & ->)].
  - by apply (Hheld msgs).
  - simpl in *. specialize (Hheld msgs msg Hq Hin Hid). lia.
Qed.

Lemma heldUntil_Acknowledge now other ackIDs name tok D s :
  heldUntil name tok D s → heldUntil name tok D (Acknowledge now other ackIDs s).2.
Proof.
  intros Hheld. unfold Acknowledge.
  destruct (subscriptions s !! other); [|done].
  destruct (messages s !! other) as [msgs|] eqn:Hq; [|done].
  rewrite ackLoop_eq. simpl. apply heldUntil_insert; [|done].
  intros -> msg Hin Hid. apply list_elem_of_filter in Hin as [_ Hin].
  by apply (Hheld msgs).
Qed.

Lemma heldUntil_CreateSubscription other topicName name tok D s :
  heldUntil name tok D s → heldUntil name tok D (CreateSubscription other topicName s).2.
Proof.
  intros Hheld. unfold CreateSubscription.
  destruct (subscriptions s !! other); [done|]. destruct (topics s !! topicName); [|done].
  simpl. unfold heldUntil. simpl. intros msgs msg.
  destruct (decide (other = name)) as [->|Hne].
  - rewrite lookup_insert_eq. intros [= <-]. by rewrite elem_of_nil.
  - rewrite lookup_insert_ne by done. apply Hheld.
Qed.

Lemma heldUntil_DeleteSubscription other name tok D s :
  heldUntil name tok D s → heldUntil name tok D (DeleteSubscription other s).2.
Proof.
  intros Hheld. unfold DeleteSubscription.
  destruct (subscriptions s !! other); [|done].
  simpl. unfold heldUntil. simpl. intros msgs msg.
  destruct (decide (other = name)) as [->|Hne].
  - by rewrite lookup_delete_eq.
  - rewrite lookup_delete_ne by done. apply Hheld.
Qed.

(** [Publish] adds leases with tokens drawn after [k] only. *)
Lemma heldUntil_Publish order now topicName msgs name j D s k :
  StorageInv s → rangeOrder order s → (j < k)%nat →
  heldUntil name (uuid j) D s →
  heldUntil name (uuid j) D (Publish uuid order now topicName msgs s k).1.2.
Proof.
  intros Hinv Hord Hj Hheld.
  destruct (topics s !! topicName) as [topic|] eqn:Htopic;
    [|by rewrite Publish_unregistered].
  destruct (Publish_ok uuid order now topicName msgs s k Hinv Hord)
    as (msgs' & -> & Hother & Hbound); [eauto|]. simpl.
  unfold heldUntil. simpl. intros q' msg.
  destruct (subscriptions s !! name) as [sub|] eqn:Hsub.
  - destruct (decide (Subscription_Topic sub = topicName)) as [Htop|Htop].
    + destruct (Hbound name) as (i & sub' & q & _ & Hq & ->); [by exists sub|].
      intros [= <-]. rewrite elem_of_app. intros [Hin|Hin]; [by apply (Hheld q)|].
      apply elem_of_newLeases in Hin as (i' & m & id & _ & ->). simpl.
      intros Heq. apply uuid_fresh in Heq. lia.
    + rewrite Hother; [apply Hheld|]. intros (sub' & Hsub' & ?). congruence.
  - rewrite Hother; [apply Hheld|]. intros (sub' & Hsub' & ?). congruence.
Qed.

Lemma heldUntil_exec op name j D w :
  admissible op w → StorageInv w.1 → (j < w.2)%nat →
  (∀ now, pullTime op = Some now → (now <= D)%Z) →
  heldUntil name (uuid j) D w.1 →
  heldUntil name (uuid j) D (exec uuid testing op w).1.
Proof.
  destruct w as [s k]. destruct op; simpl; intros Hadm Hinv Hj Htime Hheld.
  - unfold CreateTopic. by destruct (topics s !! name0).
  - unfold GetTopic. by destruct (topics s !! name0).
  - unfold DeleteTopic. by destruct (topics s !! name0).
  - by apply heldUntil_CreateSubscription.
  - unfold GetSubscription. by destruct (subscriptions s !! name0).
  - by apply heldUntil_DeleteSubscription.
  - by apply heldUntil_Publish.
  - apply heldUntil_Pull; [|done]. by apply Htime.
  - by apply heldUntil_Acknowledge.
  - done.
  - done.
Qed.

Lemma steps_reachable ops w w' :
  steps uuid testing ops w w' → reachable uuid testing w → reachable uuid testing w'.
Proof.
  induction 1 as [w|op ops w w' Hadm Hsteps IH]; [done|].
  intros Hreach. apply IH. by constructor.
Qed.


End Tokens.


(** ** The storage tests, replayed *)

(** Publish and pull: the lease is returned at once, not again within its
    deadline, and again after it. *)
Example replay_PublishAndPull :
  (Pull true 1000%Z scenario_sub 10%Z scenario_published.1).1
    = Ok [ {| ReceivedMessage_AckID := "1";
              ReceivedMessage_Message :=
                {| Message_Data := "dGVzdA=="; Message_Attributes := None;
                   Message_MessageID := "0";
                   Message_PublishTime := "2024-01-01T00:00:00Z" |} |} ]
  ∧ (Pull true 2000%Z scenario_sub 10%Z scenario_pulled.1).1 = Ok []
  ∧ ∃ again, (Pull true 100001000%Z scenario_sub 10%Z scenario_pulled.1).1 = Ok again
             ∧ length again = 1%nat.
Proof. split_and!; [vm_compute; reflexivity..|eexists; split; vm_compute; reflexivity]. Qed.

(** Five messages, pulls of at most three: the first three in publishing
    order, then the other two. *)
Example replay_PullWithMaxMessages :
  let first := Pull true 1000%Z scenario_sub 3%Z scenario_five.1 in
  let second := Pull true 1000%Z scenario_sub 3%Z first.2 in
  rangeOrder [(scenario_sub, mkSubscription scenario_sub scenario_topic)]
    scenario_created.1
  ∧ ∃ r1 r2,
      first.1 = Ok r1 ∧ second.1 = Ok r2
      ∧ map (λ r, Message_MessageID (ReceivedMessage_Message r)) r1 = ["0"; "1"; "2"]
      ∧ map (λ r, Message_MessageID (ReceivedMessage_Message r)) r2 = ["3"; "4"].
Proof.
  split; [unfold rangeOrder; vm_compute; reflexivity|].
  eexists _, _. split_and!; vm_compute; reflexivity.
Qed.

(** Pull, acknowledge, then ModifyAckDeadline on the acknowledged token
    fails; on the pending token it succeeds. *)
Example replay_ModifyAckDeadline_AfterAcknowledge :
  (ModifyAckDeadline 3000%Z scenario_sub ["1"] 30%Z
     (Acknowledge 2000%Z scenario_sub ["1"] scenario_pulled.1).2).1
    = Err ErrInvalidLeaseToken
  ∧ (ModifyAckDeadline 3000%Z scenario_sub ["1"] 30%Z scenario_pulled.1).1 = Ok ().
Proof. split; vm_compute; reflexivity. Qed.

(** * The claims *)

(** ** Pull: which leases are selected *)


Lemma scenario_created_reachable : reachable scenario_uuid true scenario_created.
Proof. unfold scenario_created. repeat (apply reachable_step; [|done]). constructor. Qed.

Lemma scenario_published_reachable : reachable scenario_uuid true scenario_published.
Proof.
  unfold scenario_published. apply reachable_step; [apply scenario_created_reachable|].
  simpl. unfold rangeOrder. done.
Qed.

Lemma scenario_pulled_reachable : reachable scenario_uuid true scenario_pulled.
Proof.
  unfold scenario_pulled. apply reachable_step; [apply scenario_published_reachable|done].
Qed.

Lemma scenario_published_registered : registered scenario_published.1 scenario_sub.
Proof. eexists. vm_compute. reflexivity. Qed.

Lemma scenario_pulled_registered : registered scenario_pulled.1 scenario_sub.
Proof. eexists. vm_compute. reflexivity. Qed.



(** ** Pull: the cap *)

Lemma handlePull_MaxMessages_pos req : (0 < handlePull_MaxMessages req)%Z.
Proof. unfold handlePull_MaxMessages. destruct (Z.leb_spec req 0); lia. Qed.

(** C10 (as amended).  For every registered subscription and every
    [maxMessages] that is not negative, zero included, and within the
    limit of the runtime on the capacity of the result, [Pull] runs to
    completion and returns at most [maxMessages] messages.  For every
    integer the client sends, the value [handlePull] passes on is at
    least 1, and it is the integer itself when that is positive: no
    upper guard is applied.  When the value passed on is within the
    limit, as it is for every integer the client sends that is not
    positive, the pull of the handler runs to completion and returns at
    most that many messages. *)
Theorem Pull_cap_nonnegative testing now name s :
  registered s name →
  (∀ maxMessages, capInRange maxMessages →
     ∃ received s',
       Pull testing now name maxMessages s = (Ok received, s')
       ∧ (Z.of_nat (length received) <= maxMessages)%Z)
  ∧ (∀ reqMaxMessages,
       let maxMessages := handlePull_MaxMessages reqMaxMessages in
       (1 <= maxMessages)%Z
       ∧ (0 < reqMaxMessages → maxMessages = reqMaxMessages)%Z
       ∧ ((reqMaxMessages <= 0)%Z → capInRange maxMessages)
       ∧ (capInRange maxMessages →
          ∃ received s',
            Pull testing now name maxMessages s = (Ok received, s')
            ∧ (Z.of_nat (length received) <= maxMessages)%Z)).
Proof.
  intros Hreg.
  assert (∀ maxMessages, capInRange maxMessages →
     ∃ received s',
       Pull testing now name maxMessages s = (Ok received, s')
       ∧ (Z.of_nat (length received) <= maxMessages)%Z) as Hcap.
  { intros maxMessages [Hmax _].
    destruct (Pull_result testing now name maxMessages s Hreg Hmax) as (s' & -> & _).
    eexists _, _. split; [done|]. rewrite length_map, length_take. lia. }
  split; [done|]. intros req maxMessages.
  pose proof (handlePull_MaxMessages_pos req). split; [unfold maxMessages; lia|].
  split_and!; [| |apply Hcap].
  - unfold maxMessages, handlePull_MaxMessages. destruct (Z.leb_spec req 0); lia.
  - intros Hreq. unfold maxMessages, handlePull_MaxMessages, capInRange,
      sizeofReceivedMessage, maxAlloc.
    destruct (Z.leb_spec req 0); lia.
Qed.

(** The theorem of C10 in the scenario: a cap of 0 returns nothing. *)
Lemma Pull_cap_nonnegative_witness :
  registered scenario_published.1 scenario_sub
  ∧ (Pull true 1000%Z scenario_sub 0%Z scenario_published.1).1 = Ok [].
Proof.
  split; [apply scenario_published_registered|].
  destruct (Pull_cap_nonnegative true 1000%Z scenario_sub scenario_published.1
              scenario_published_registered) as [Hcap _].
  destruct (Hcap 0%Z ltac:(by split)) as (received & s' & -> & Hlen).
  simpl. destruct received; [done|]. simpl in Hlen. lia.
Defined.

(** C10, counterexample.  In the scenario, a reachable state whose
    subscription is registered, [Pull] with [maxMessages = -1] does not
    run to completion: allocating the result with a negative capacity
    panics. *)
Lemma Pull_negative_cap_panics :
  reachable scenario_uuid true scenario_published
  ∧ registered scenario_published.1 scenario_sub
  ∧ Pull true 1000%Z scenario_sub (-1)%Z scenario_published.1
    = (Panic, scenario_published.1).
Proof.
  split; [apply scenario_published_reachable|].
  split; [apply scenario_published_registered|]. vm_compute. reflexivity.
Qed.

(** ** The entity registry *)

(** C7 (as amended).  [CreateSubscription] checks the subscription name
    first: if it is registered the call fails with AlreadyExists, whether
    or not the topic is registered; otherwise, if the topic is not
    registered, it fails with TopicNotFound; otherwise it registers the
    subscription bound to the topic with an empty queue.  A failed call
    leaves the state as it was. *)
Theorem CreateSubscription_cases name topicName s :
  (is_Some (subscriptions s !! name) →
     CreateSubscription name topicName s = (Err ErrSubscriptionAlreadyExists, s))
  ∧ (subscriptions s !! name = None → topics s !! topicName = None →
     CreateSubscription name topicName s = (Err ErrTopicNotFound, s))
  ∧ (subscriptions s !! name = None → is_Some (topics s !! topicName) →
     let sub := {| Subscription_Name := name; Subscription_Topic := topicName |} in
     ∃ s', CreateSubscription name topicName s = (Ok sub, s')
           ∧ topics s' = topics s
           ∧ subscriptions s' = <[name := sub]> (subscriptions s)
           ∧ messages s' = <[name := []]> (messages s)
           ∧ bound s' topicName name
           ∧ messages s' !! name = Some []).
Proof.
  unfold CreateSubscription. split_and!.
  - by intros [sub ->].
  - by intros -> ->.
  - intros -> [topic ->]. simpl. eexists. split; [done|]. simpl.
    split_and!; try done.
    + eexists. split; [apply lookup_insert_eq|done].
    + apply lookup_insert_eq.
Qed.

(** C7, counterexample.  In the scenario the subscription is registered
    and the topic "projects/test/topics/missing" is not; creating the
    subscription again on that topic fails with AlreadyExists, not with
    TopicNotFound. *)
Lemma CreateSubscription_existing_name_missing_topic :
  reachable scenario_uuid true scenario_created
  ∧ is_Some (subscriptions scenario_created.1 !! scenario_sub)
  ∧ topics scenario_created.1 !! "projects/test/topics/missing" = None
  ∧ CreateSubscription scenario_sub "projects/test/topics/missing" scenario_created.1
    = (Err ErrSubscriptionAlreadyExists, scenario_created.1).
Proof.
  split; [apply scenario_created_reachable|].
  split; [eexists; vm_compute; reflexivity|].
  split; vm_compute; reflexivity.
Qed.

Lemma Pull_set_topics f testing now name maxMessages s :
  Pull testing now name maxMessages (set_topics f s) =
  ((Pull testing now name maxMessages s).1,
   set_topics f (Pull testing now name maxMessages s).2).
Proof.
  unfold Pull. simpl. destruct (subscriptions s !! name); [|done].
  destruct (messages s !! name); [|done].
  destruct (maxMessages <? 0)%Z; [done|]. by destruct (pullLoop _ _ _ _ _).
Qed.

Lemma Acknowledge_set_topics f now name ackIDs s :
  Acknowledge now name ackIDs (set_topics f s) =
  ((Acknowledge now name ackIDs s).1, set_topics f (Acknowledge now name ackIDs s).2).
Proof.
  unfold Acknowledge. simpl. destruct (subscriptions s !! name); [|done].
  destruct (messages s !! name); [|done]. by destruct (ackLoop _ _ _ _).
Qed.

(** C8.  Deleting a registered topic removes its registry entry only:
    the registered subscriptions and every queue are as before.
    Afterwards [Publish] to the topic fails with TopicNotFound and
    changes nothing, while [Pull] and [Acknowledge] on any subscription
    return what they return without the deletion and leave the
    subscriptions and the queues as they leave them without it. *)
Theorem DeleteTopic_frame topicName s :
  is_Some (topics s !! topicName) →
  ∃ s',
    DeleteTopic topicName s = (Ok (), s')
    ∧ topics s' = delete topicName (topics s)
    ∧ subscriptions s' = subscriptions s
    ∧ messages s' = messages s
    ∧ (∀ uuid order now msgs k,
         Publish uuid order now topicName msgs s' k = (Err ErrTopicNotFound, s', k))
    ∧ (∀ testing now name maxMessages,
         let before := Pull testing now name maxMessages s in
         let after := Pull testing now name maxMessages s' in
         after.1 = before.1
         ∧ subscriptions after.2 = subscriptions before.2
         ∧ messages after.2 = messages before.2
         ∧ topics after.2 = delete topicName (topics before.2))
    ∧ (∀ now name ackIDs,
         let before := Acknowledge now name ackIDs s in
         let after := Acknowledge now name ackIDs s' in
         after.1 = before.1
         ∧ subscriptions after.2 = subscriptions before.2
         ∧ messages after.2 = messages before.2
         ∧ topics after.2 = delete topicName (topics before.2)).
Proof.
  intros [topic Htopic]. unfold DeleteTopic. rewrite Htopic.
  eexists. split; [done|]. split_and!; try done.
  - intros. apply Publish_unregistered. simpl. apply lookup_delete_eq.
  - intros. by rewrite Pull_set_topics.
  - intros. by rewrite Acknowledge_set_topics.
Qed.

(** The theorem of C8 in the scenario: the topic is deleted, the queue of
    its subscription stays and a pull still returns the lease. *)
Lemma DeleteTopic_frame_witness :
  is_Some (topics scenario_published.1 !! scenario_topic)
  ∧ ∃ s', DeleteTopic scenario_topic scenario_published.1 = (Ok (), s')
          ∧ messages s' = messages scenario_published.1
          ∧ (Pull true 1000%Z scenario_sub 10%Z s').1
            = (Pull true 1000%Z scenario_sub 10%Z scenario_published.1).1.
Proof.
  assert (is_Some (topics scenario_published.1 !! scenario_topic)) as Htopic.
  { eexists. vm_compute. reflexivity. }
  split; [exact Htopic|].
  destruct (DeleteTopic_frame scenario_topic scenario_published.1 Htopic)
    as (s' & Hdel & _ & _ & Hmsgs & _ & HPull & _).
  exists s'. split; [exact Hdel|]. split; [exact Hmsgs|].
  apply (HPull true 1000%Z scenario_sub 10%Z).
Defined.

(** ** The registry and the queue records *)

(** C9.  In every state reachable from [NewStorage()] by the operations
    of the engine, a subscription name is registered exactly when a queue
    record exists for it; so [Acknowledge] never fails with the
    missing-queue error there. *)
Theorem reachable_registered_iff_queue uuid testing w :
  reachable uuid testing w →
  (∀ name, registered w.1 name ↔ is_Some (messages w.1 !! name))
  ∧ (∀ now name ackIDs, (Acknowledge now name ackIDs w.1).1 ≠ Err ErrNoMessages).
Proof.
  intros Hreach. pose proof (reachable_StorageInv _ _ _ Hreach) as Hinv.
  split; [apply (inv_queue _ Hinv)|].
  intros now name ackIDs. unfold Acknowledge.
  destruct (subscriptions w.1 !! name) as [sub|] eqn:Hsub; [|done].
  destruct (proj1 (inv_queue _ Hinv name)) as [msgs ->]; [by exists sub|].
  by destruct (ackLoop _ _ _ _).
Qed.

(** The theorem of C9 at the state of the scenario after the pull. *)
Lemma reachable_registered_iff_queue_witness :
  reachable scenario_uuid true scenario_pulled
  ∧ (registered scenario_pulled.1 scenario_sub
     ↔ is_Some (messages scenario_pulled.1 !! scenario_sub))
  ∧ (Acknowledge 2000%Z scenario_sub ["1"] scenario_pulled.1).1 ≠ Err ErrNoMessages.
Proof.
  split; [apply scenario_pulled_reachable|].
  destruct (reachable_registered_iff_queue scenario_uuid true scenario_pulled
              scenario_pulled_reachable) as [Hiff Hack].
  split; [apply Hiff|apply Hack].
Defined.

(** ** Acknowledge *)

Lemma Storage_eq s s' :
  topics s = topics s' → subscriptions s = subscriptions s' → messages s = messages s' →
  s = s'.
Proof. destruct s, s'. simpl. by intros -> -> ->. Qed.

(** [Acknowledge] fails exactly on an unregistered subscription and on a
    registered one without a queue record, and a failed call changes
    nothing. *)
Lemma Acknowledge_failure now name ackIDs s :
  ((Acknowledge now name ackIDs s).1 ≠ Ok ()
   ↔ ¬ registered s name ∨ messages s !! name = None)
  ∧ ((Acknowledge now name ackIDs s).1 ≠ Ok () → (Acknowledge now name ackIDs s).2 = s).
Proof.
  unfold Acknowledge, registered.
  destruct (subscriptions s !! name) as [sub|] eqn:Hsub; simpl.
  2:{ split; [|done]. split; [intros _; left; by intros [? ?]|done]. }
  destruct (messages s !! name) as [msgs|] eqn:Hq; simpl.
  2:{ split; [|done]. split; [by right|done]. }
  destruct (ackLoop _ _ _ _). simpl. split; [|done].
  split; [done|]. intros [Hno|?]; [|done]. exfalso. apply Hno. eauto.
Qed.

(** C4.  In a state reachable by the operations of the engine and for a
    registered subscription, [Acknowledge] succeeds; its loop records the
    acknowledgement timestamp [now] on exactly the leases of the queue
    whose token is in the supplied list, and the queue it stores holds,
    in order, exactly the leases whose token is not in the list.  Tokens
    that match no lease of the subscription change nothing and raise no
    error.  In any state at all the call fails if and only if the
    subscription is unregistered (SubscriptionNotFound) or its queue
    record is absent (the missing-queue error), and a failed call leaves
    the state as it was. *)
Theorem Acknowledge_prunes_exactly uuid testing w now name ackIDs :
  reachable uuid testing w →
  (registered w.1 name →
     ∃ msgs,
       messages w.1 !! name = Some msgs
       ∧ Acknowledge now name ackIDs w.1 =
           (Ok (), set_messages
                     (insert name
                        (filter (λ msg, InternalMessage_AckID msg ∉ ackIDs) msgs)) w.1)
       ∧ (∀ i msg, msgs !! i = Some msg →
            (ackLoop now (mkAckIDSet ackIDs) msgs []).1 !! i =
            Some (if decide (InternalMessage_AckID msg ∈ ackIDs)
                  then markAcked now msg else msg))
       ∧ (∀ unknown,
            (∀ msg, msg ∈ msgs → InternalMessage_AckID msg ∉ unknown) →
            Acknowledge now name (ackIDs ++ unknown) w.1
            = Acknowledge now name ackIDs w.1)
       ∧ ((∀ msg, msg ∈ msgs → InternalMessage_AckID msg ∉ ackIDs) →
            Acknowledge now name ackIDs w.1 = (Ok (), w.1)))
  ∧ (∀ s0 : Storage,
       (subscriptions s0 !! name = None →
          Acknowledge now name ackIDs s0 = (Err ErrSubscriptionNotFound, s0))
       ∧ (registered s0 name → messages s0 !! name = None →
          Acknowledge now name ackIDs s0 = (Err ErrNoMessages, s0))
       ∧ ((Acknowledge now name ackIDs s0).1 ≠ Ok ()
          ↔ ¬ registered s0 name ∨ messages s0 !! name = None)
       ∧ ((Acknowledge now name ackIDs s0).1 ≠ Ok () →
          (Acknowledge now name ackIDs s0).2 = s0)).
Proof.
  intros Hreach. pose proof (reachable_StorageInv _ _ _ Hreach) as Hinv.
  destruct w as [s k]. simpl in *. split.
  - intros Hreg. destruct (proj1 (inv_queue _ Hinv name) Hreg) as [msgs Hq].
    assert (∀ msg, msg ∈ msgs → InternalMessage_AckedAt msg = None) as Hpending.
    { intros msg. by apply (inv_pending _ Hinv name). }
    assert (∀ ids, Acknowledge now name ids s =
              (Ok (), set_messages
                        (insert name
                           (filter (λ msg, InternalMessage_AckID msg ∉ ids) msgs)) s))
      as Hack.
    { intros ids. rewrite (Acknowledge_queue _ _ _ _ msgs) by done.
      by rewrite filter_ackKept_pending. }
    exists msgs. split_and!; [done|apply Hack| | |].
    + intros i msg Hi. rewrite ackLoop_eq. simpl. rewrite list_lookup_fmap, Hi. done.
    + intros unknown Hunknown. rewrite !Hack. do 3 f_equal.
      clear -Hunknown. induction msgs as [|msg rest IH]; [done|].
      assert (InternalMessage_AckID msg ∉ unknown) by (apply Hunknown; left).
      assert (filter (λ msg, InternalMessage_AckID msg ∉ ackIDs ++ unknown) rest
              = filter (λ msg, InternalMessage_AckID msg ∉ ackIDs) rest) as IH'.
      { apply IH. intros m Hm. apply Hunknown. by right. }
      destruct (decide (InternalMessage_AckID msg ∈ ackIDs)) as [Hin|Hin].
      * rewrite !filter_cons_False; [done|tauto|].
        rewrite elem_of_app. tauto.
      * rewrite !filter_cons_True; [by rewrite IH'|done|].
        rewrite elem_of_app. tauto.
    + intros Hnone. rewrite Hack. f_equal. apply Storage_eq; simpl; try done.
      apply insert_id. rewrite Hq. f_equal.
      clear -Hnone. induction msgs as [|msg rest IH]; [done|].
      rewrite filter_cons_True by (apply Hnone; left).
      f_equal. apply IH. intros m Hm. apply Hnone. by right.
  - intros s0. split_and!.
    + apply Acknowledge_unregistered.
    + apply Acknowledge_no_queue.
    + apply Acknowledge_failure.
    + apply Acknowledge_failure.
Qed.

(** C5.  For a registered subscription of a reachable state,
    acknowledging a token succeeds, and acknowledging it a second time
    succeeds too and leaves the state the first call left. *)
Theorem Acknowledge_twice uuid testing w name tok now1 now2 :
  reachable uuid testing w → registered w.1 name →
  let once := Acknowledge now1 name [tok] w.1 in
  once.1 = Ok ()
  ∧ Acknowledge now2 name [tok] once.2 = (Ok (), once.2).
Proof.
  intros Hreach Hreg. pose proof (reachable_StorageInv _ _ _ Hreach) as Hinv.
  destruct w as [s k]. simpl in *.
  destruct (proj1 (inv_queue _ Hinv name) Hreg) as [msgs Hq].
  rewrite (Acknowledge_queue _ _ _ _ msgs) by done. simpl. split; [done|].
  rewrite (Acknowledge_queue _ _ _ _ (filter (ackKept [tok]) msgs)).
  - f_equal. apply Storage_eq; simpl; try done.
    by rewrite insert_insert_eq, filter_ackKept_idemp.
  - done.
  - simpl. apply lookup_insert_eq.
Qed.

(** The theorem of C4 in the scenario: acknowledging the pulled lease
    empties the queue. *)
Lemma Acknowledge_prunes_exactly_witness :
  reachable scenario_uuid true scenario_pulled
  ∧ registered scenario_pulled.1 scenario_sub
  ∧ ∃ s', Acknowledge 2000%Z scenario_sub ["1"] scenario_pulled.1 = (Ok (), s')
          ∧ messages s' !! scenario_sub = Some [].
Proof.
  split; [apply scenario_pulled_reachable|].
  split; [apply scenario_pulled_registered|].
  destruct (Acknowledge_prunes_exactly scenario_uuid true scenario_pulled 2000%Z
              scenario_sub ["1"] scenario_pulled_reachable) as [Hack _].
  destruct (Hack scenario_pulled_registered) as (msgs & Hq & -> & _).
  eexists. split; [reflexivity|]. simpl. rewrite lookup_insert_eq. f_equal.
  assert (msgs = default [] (messages scenario_pulled.1 !! scenario_sub)) as ->
    by (by rewrite Hq).
  vm_compute. reflexivity.
Defined.

(** The theorem of C5 in the scenario: the pulled lease acknowledged
    twice. *)
Lemma Acknowledge_twice_witness :
  reachable scenario_uuid true scenario_pulled
  ∧ registered scenario_pulled.1 scenario_sub
  ∧ (Acknowledge 2000%Z scenario_sub ["1"] scenario_pulled.1).1 = Ok ()
  ∧ Acknowledge 3000%Z scenario_sub ["1"]
      (Acknowledge 2000%Z scenario_sub ["1"] scenario_pulled.1).2
    = (Ok (), (Acknowledge 2000%Z scenario_sub ["1"] scenario_pulled.1).2).
Proof.
  split; [apply scenario_pulled_reachable|].
  split; [apply scenario_pulled_registered|].
  apply (Acknowledge_twice scenario_uuid true scenario_pulled scenario_sub "1"
           2000%Z 3000%Z scenario_pulled_reachable scenario_pulled_registered).
Defined.

(** ** Pull: the leases granted *)



(** ** Publish: the fan-out *)

Lemma Acknowledge_other now name ackIDs other s :
  other ≠ name →
  messages (Acknowledge now name ackIDs s).2 !! other = messages s !! other.
Proof.
  intros Hne. unfold Acknowledge. destruct (subscriptions s !! name); [|done].
  destruct (messages s !! name); [|done]. destruct (ackLoop _ _ _ _). simpl.
  by rewrite lookup_insert_ne.
Qed.

Lemma bound_dec s topicName name : bound s topicName name ∨ ¬ bound s topicName name.
Proof.
  unfold bound. destruct (subscriptions s !! name) as [sub|];
    [|right; by intros (? & ? & ?)].
  destruct (decide (Subscription_Topic sub = topicName)); [left; eauto|right].
  intros (sub' & [= <-] & ?). done.
Qed.

(** The [i]-th lease [Publish] creates for a subscription pairs the
    [i]-th message with the [i]-th identifier. *)
Lemma newLeases_zip_lookup uuid now (msgs : list PubSubMessage) k base i m :
  msgs !! i = Some m →
  newLeases uuid now (zip msgs (map uuid (seq k (length msgs)))) base !! i =
  Some (newInternalMessage now m (uuid (k + i)%nat) (uuid (base + i)%nat)).
Proof.
  intros Hi. apply newLeases_lookup.
  pose proof (lookup_lt_Some _ _ _ Hi) as Hlt.
  apply lookup_zip_with_Some. exists m, (uuid (k + i)%nat). split_and!; [done|done|].
  change (map uuid ?l) with (uuid <$> l).
  by rewrite list_lookup_fmap, lookup_seq_lt.
Qed.

(** C3.  In a reachable state, [Publish] to a registered topic returns
    one generated identifier per message of the batch.  For each
    subscription bound to the topic it appends to the queue, in batch
    order, one lease per message: unacknowledged, with the zero deadline
    (expired at every clock reading after the zero time), carrying the
    identifier returned for that message and a lease token.  The tokens
    of two different copies differ, and differ from every token stored
    before.  Queues of subscriptions not bound to the topic are
    unchanged; with no subscription bound the state is unchanged and the
    identifiers are returned all the same.  Acknowledging in one
    subscription afterwards leaves the queue of every other subscription
    as it is.  (The statements that identifiers and tokens differ are
    for a generator that returns a new value at each call.) *)
Theorem Publish_fans_out uuid testing w order now topicName msgs :
  reachable uuid testing w → rangeOrder order w.1 →
  is_Some (topics w.1 !! topicName) →
  ∃ messageIDs s' k',
    Publish uuid order now topicName msgs w.1 w.2 = (Ok messageIDs, s', k')
    ∧ length messageIDs = length msgs
    ∧ (Inj (=) (=) uuid → NoDup messageIDs)
    ∧ topics s' = topics w.1
    ∧ subscriptions s' = subscriptions w.1
    ∧ (∀ name, bound w.1 topicName name →
         ∃ q leases,
           messages w.1 !! name = Some q
           ∧ messages s' !! name = Some (q ++ leases)
           ∧ length leases = length msgs
           ∧ ∀ i m, msgs !! i = Some m →
               ∃ messageID ackID,
                 messageIDs !! i = Some messageID
                 ∧ leases !! i =
                     Some {| InternalMessage_Message :=
                               {| Message_Data := PubSubMessage_Data m;
                                  Message_Attributes := PubSubMessage_Attributes m;
                                  Message_MessageID := messageID;
                                  Message_PublishTime := now |};
                             InternalMessage_AckID := ackID;
                             InternalMessage_AckedAt := None;
                             InternalMessage_DeadlineAt := zeroTime |})
    ∧ (∀ name i lease clock,
         bound w.1 topicName name →
         queue s' name !! (length (queue w.1 name) + i)%nat = Some lease →
         (zeroTime < clock)%Z → eligible clock lease)
    ∧ (Inj (=) (=) uuid →
       ∀ name1 name2 i1 i2 lease1 lease2,
         bound w.1 topicName name1 → bound w.1 topicName name2 →
         queue s' name1 !! (length (queue w.1 name1) + i1)%nat = Some lease1 →
         queue s' name2 !! (length (queue w.1 name2) + i2)%nat = Some lease2 →
         (name1, i1) ≠ (name2, i2) →
         InternalMessage_AckID lease1 ≠ InternalMessage_AckID lease2)
    ∧ (Inj (=) (=) uuid →
       ∀ name i lease other old,
         bound w.1 topicName name →
         queue s' name !! (length (queue w.1 name) + i)%nat = Some lease →
         old ∈ queue w.1 other →
         InternalMessage_AckID lease ≠ InternalMessage_AckID old)
    ∧ (∀ name, ¬ bound w.1 topicName name → messages s' !! name = messages w.1 !! name)
    ∧ ((∀ name, ¬ bound w.1 topicName name) → s' = w.1)
    ∧ (∀ clock name ackIDs other, other ≠ name →
         messages (Acknowledge clock name ackIDs s').2 !! other = messages s' !! other).
Proof.
  intros Hreach Hord Htopic.
  pose proof (reachable_StorageInv _ _ _ Hreach) as Hinv.
  pose proof (λ Hinj, reachable_TokenInv _ _ Hinj _ Hreach) as Htok.
  destruct w as [s k]. simpl in *.
  destruct (Publish_ok uuid order now topicName msgs s k Hinv Hord Htopic)
    as (msgs' & HPub & Hother & Hbound).
  set (n := length msgs) in *. set (slots := boundIn topicName order) in *.
  (* the new leases of a bound subscription, by position *)
  assert (∀ name i lease, bound s topicName name →
            queue (set_messages (λ _, msgs') s) name !! (length (queue s name) + i)%nat
              = Some lease →
            ∃ j sub m, slots !! j = Some (name, sub) ∧ msgs !! i = Some m
              ∧ lease = newInternalMessage now m (uuid (k + i)%nat)
                          (uuid (k + n + j * n + i)%nat)) as Hnew.
  { intros name i lease Hb. destruct (Hbound name Hb) as (j & sub & q & Hj & Hq & Hq').
    unfold queue. simpl. rewrite Hq, Hq'. simpl.
    rewrite lookup_app_r by lia. replace (length q + i - length q)%nat with i by lia.
    intros Hi. pose proof (lookup_lt_Some _ _ _ Hi) as Hlt.
    rewrite length_newLeases, length_zip_with, length_map, length_seq in Hlt.
    destruct (lookup_lt_is_Some_2 msgs i) as [m Hm]; [lia|].
    exists j, sub, m. split_and!; [done|done|].
    rewrite (newLeases_zip_lookup uuid now msgs k _ i m Hm) in Hi. congruence. }
  eexists _, _, _. split; [exact HPub|]. split_and!; try done.
  - by rewrite length_map, length_seq.
  - intros Hinj. apply (NoDup_fmap_2 uuid). apply NoDup_seq.
  - intros name Hb. destruct (Hbound name Hb) as (j & sub & q & Hj & Hq & Hq').
    eexists q, _. split_and!; [done|exact Hq'| |].
    + by rewrite length_newLeases, length_zip_with, length_map, length_seq, Nat.min_id.
    + intros i m Hm. pose proof (lookup_lt_Some _ _ _ Hm) as Hlt.
      eexists (uuid (k + i)%nat), _. split.
      * change (map uuid ?l) with (uuid <$> l).
        by rewrite list_lookup_fmap, lookup_seq_lt.
      * by rewrite (newLeases_zip_lookup uuid now msgs k _ i m Hm).
  - intros name i lease clock Hb Hi Hclock.
    destruct (Hnew name i lease Hb Hi) as (j & sub & m & _ & _ & ->).
    split; [done|]. simpl. done.
  - intros Hinj name1 name2 i1 i2 lease1 lease2 Hb1 Hb2 Hi1 Hi2 Hne.
    destruct (Hnew name1 i1 lease1 Hb1 Hi1) as (j1 & sub1 & m1 & Hj1 & Hm1 & ->).
    destruct (Hnew name2 i2 lease2 Hb2 Hi2) as (j2 & sub2 & m2 & Hj2 & Hm2 & ->).
    simpl. intros Heq. apply Hinj in Heq.
    apply lookup_lt_Some in Hm1, Hm2. fold n in Hm1, Hm2.
    assert (j1 = j2 ∧ i1 = i2) as [-> ->].
    { destruct (decide (j1 = j2)) as [->|Hj]; [split; [done|lia]|]. exfalso. nia. }
    rewrite Hj1 in Hj2. congruence.
  - intros Hinj name i lease other old Hb Hi Hold.
    destruct (Hnew name i lease Hb Hi) as (j & sub & m & _ & _ & ->). simpl.
    unfold queue in Hold. destruct (messages s !! other) as [q|] eqn:Hq;
      [|by apply elem_of_nil in Hold].
    destruct (inv_drawn _ _ (Htok Hinj) other q old Hq Hold) as (j' & Hj' & ->).
    simpl in Hj'. intros Heq. apply Hinj in Heq. lia.
  - intros Hnone. apply Storage_eq; simpl; try done.
    apply map_eq. intros name. by apply Hother.
  - intros clock name ackIDs other Hne. by apply Acknowledge_other.
Qed.

Lemma scenario_two_subs_reachable : reachable scenario_uuid true scenario_two_subs.
Proof.
  unfold scenario_two_subs. apply reachable_step; [apply scenario_created_reachable|done].
Qed.

(** The theorem of C3 in the fan-out scenario: one message published to
    a topic with two subscriptions gives one identifier and one lease in
    each queue, with different tokens. *)
Lemma Publish_fans_out_witness :
  reachable scenario_uuid true scenario_two_subs
  ∧ is_Some (topics scenario_two_subs.1 !! scenario_topic)
  ∧ ∃ messageIDs s' k' lease1 lease2,
      Publish scenario_uuid (map_to_list (subscriptions scenario_two_subs.1))
        "2024-01-01T00:00:00Z" scenario_topic [scenario_message]
        scenario_two_subs.1 scenario_two_subs.2 = (Ok messageIDs, s', k')
      ∧ length messageIDs = 1%nat
      ∧ messages s' !! scenario_sub = Some [lease1]
      ∧ messages s' !! scenario_sub2 = Some [lease2]
      ∧ InternalMessage_AckID lease1 ≠ InternalMessage_AckID lease2.
Proof.
  split; [apply scenario_two_subs_reachable|].
  assert (is_Some (topics scenario_two_subs.1 !! scenario_topic)) as Htopic.
  { eexists. vm_compute. reflexivity. }
  split; [exact Htopic|].
  destruct (Publish_fans_out scenario_uuid true scenario_two_subs
              (map_to_list (subscriptions scenario_two_subs.1))
              "2024-01-01T00:00:00Z" scenario_topic [scenario_message]
              scenario_two_subs_reachable
              ltac:(unfold rangeOrder; reflexivity) Htopic)
    as (messageIDs & s' & k' & HPub & Hlen & _).
  exists messageIDs, s', k'.
  assert (s' = (Publish scenario_uuid (map_to_list (subscriptions scenario_two_subs.1))
                  "2024-01-01T00:00:00Z" scenario_topic [scenario_message]
                  scenario_two_subs.1 scenario_two_subs.2).1.2) as ->
    by (by rewrite HPub).
  eexists _, _. split; [exact HPub|]. split; [exact Hlen|].
  split; [vm_compute; reflexivity|]. split; [vm_compute; reflexivity|].
  vm_compute. discriminate.
Defined.

(** ** ModifyAckDeadline *)

Lemma pendingWith_spec id msg :
  pendingWith id msg = true
  ↔ InternalMessage_AckID msg = id ∧ InternalMessage_AckedAt msg = None.
Proof. unfold pendingWith. by rewrite andb_true_iff, !bool_decide_eq_true. Qed.

Lemma tokens_valid_spec (msgs : list InternalMessage) (ackIDs : list string) :
  forallb (λ id, existsb (pendingWith id) msgs) ackIDs = true
  ↔ ∀ id, id ∈ ackIDs →
      ∃ msg, msg ∈ msgs ∧ InternalMessage_AckID msg = id
             ∧ InternalMessage_AckedAt msg = None.
Proof.
  rewrite forallb_forall. split.
  - intros H id Hid. apply list_elem_of_In, H, existsb_exists in Hid as (msg & Hin & Hp).
    exists msg. apply list_elem_of_In in Hin. apply pendingWith_spec in Hp. tauto.
  - intros H id Hid. apply list_elem_of_In, H in Hid as (msg & Hin & Hp).
    apply existsb_exists. exists msg. rewrite pendingWith_spec.
    apply list_elem_of_In in Hin. tauto.
Qed.

Lemma queue_alter f name s :
  queue (set_messages (alter (map f) name) s) name = map f (queue s name).
Proof. unfold queue. simpl. rewrite lookup_alter_eq. by destruct (messages s !! name). Qed.

(** C6, on the model of [ModifyAckDeadline] written from the spec.  For
    a registered subscription and [extensionSeconds >= 0]: if every
    supplied token is the token of a pending lease of the queue, the
    call succeeds, and each pending lease whose token is supplied gets
    the deadline [now] for [extensionSeconds = 0] (so it is visible at
    [now] in the words of the spec, and eligible for every pull that
    reads the clock after [now]) and the deadline
    [now + extensionSeconds] seconds for [extensionSeconds > 0],
    whatever its deadline was (so no pull takes it until that time has
    passed); every other lease, queue and registry entry is as before.
    If some supplied token is not the token of a pending lease of the
    queue, the call fails with the InvalidLeaseToken error and the state
    is unchanged. *)
Theorem ModifyAckDeadline_sets_deadline now name ackIDs extensionSeconds s :
  registered s name → (0 <= extensionSeconds)%Z →
  let msgs := queue s name in
  let pending id :=
    ∃ msg, msg ∈ msgs ∧ InternalMessage_AckID msg = id
           ∧ InternalMessage_AckedAt msg = None in
  ((∀ id, id ∈ ackIDs → pending id) →
     ∃ s',
       ModifyAckDeadline now name ackIDs extensionSeconds s = (Ok (), s')
       ∧ topics s' = topics s
       ∧ subscriptions s' = subscriptions s
       ∧ (∀ other, other ≠ name → messages s' !! other = messages s !! other)
       ∧ length (queue s' name) = length msgs
       ∧ (∀ i msg, msgs !! i = Some msg →
            InternalMessage_AckID msg ∈ ackIDs → InternalMessage_AckedAt msg = None →
            ∃ msg',
              queue s' name !! i = Some msg'
              ∧ InternalMessage_Message msg' = InternalMessage_Message msg
              ∧ InternalMessage_AckID msg' = InternalMessage_AckID msg
              ∧ InternalMessage_AckedAt msg' = None
              ∧ (extensionSeconds = 0%Z →
                   InternalMessage_DeadlineAt msg' = now
                   ∧ visibleAtOrAfter now msg'
                   ∧ ∀ clock, (now < clock)%Z → eligible clock msg')
              ∧ ((0 < extensionSeconds)%Z →
                   InternalMessage_DeadlineAt msg' = (now + extensionSeconds * Second)%Z
                   ∧ ∀ clock, (clock <= now + extensionSeconds * Second)%Z →
                       ¬ eligible clock msg'))
       ∧ (∀ i msg, msgs !! i = Some msg →
            ¬ (InternalMessage_AckID msg ∈ ackIDs ∧ InternalMessage_AckedAt msg = None) →
            queue s' name !! i = Some msg))
  ∧ ((∃ id, id ∈ ackIDs ∧ ¬ pending id) →
     ModifyAckDeadline now name ackIDs extensionSeconds s = (Err ErrInvalidLeaseToken, s)).
Proof.
  intros [sub Hsub] Hext msgs pending. unfold ModifyAckDeadline. rewrite Hsub.
  fold (queue s name). fold msgs. split.
  - intros Hvalid. apply tokens_valid_spec in Hvalid. rewrite Hvalid.
    eexists. split; [done|]. rewrite queue_alter. fold msgs. simpl.
    split_and!; try done.
    + intros other Hne. by rewrite lookup_alter_ne.
    + by rewrite length_map.
    + intros i msg Hi Hin Hack. eexists. split.
      { change (map ?f msgs) with (f <$> msgs). by rewrite list_lookup_fmap, Hi. }
      unfold modifyLease. rewrite !bool_decide_true by done. simpl.
      unfold newDeadline, Add, visibleAtOrAfter, eligible. simpl.
      split_and!; try done.
      * intros ->. simpl. split_and!; try done; lia.
      * intros Hpos. destruct (Z.eqb_spec extensionSeconds 0); [lia|].
        split; [done|]. intros clock Hclock [_ Hlt]. lia.
    + intros i msg Hi Hno.
      change (map ?f msgs) with (f <$> msgs). rewrite list_lookup_fmap, Hi. simpl.
      unfold modifyLease. destruct (bool_decide _ && bool_decide _) eqn:E; [|done].
      apply andb_true_iff in E as [E1 E2].
      apply bool_decide_eq_true in E1, E2. tauto.
  - intros (id & Hid & Hno).
    destruct (forallb _ ackIDs) eqn:E; [|done].
    exfalso. apply Hno. by apply (proj1 (tokens_valid_spec msgs ackIDs) E).
Qed.

(** The theorem of C6 in the scenario: the deadline of the pulled lease
    is set to the time of the call. *)
Lemma ModifyAckDeadline_sets_deadline_witness :
  registered scenario_pulled.1 scenario_sub
  ∧ ∃ s' msg',
      ModifyAckDeadline 2000%Z scenario_sub ["1"] 0%Z scenario_pulled.1 = (Ok (), s')
      ∧ queue s' scenario_sub !! 0%nat = Some msg'
      ∧ InternalMessage_DeadlineAt msg' = 2000%Z.
Proof.
  split; [apply scenario_pulled_registered|].
  destruct (ModifyAckDeadline_sets_deadline 2000%Z scenario_sub ["1"] 0%Z
              scenario_pulled.1 scenario_pulled_registered ltac:(lia)) as [Hok _].
  destruct Hok as (s' & Hmod & _ & _ & _ & _ & Hset & _).
  { intros id Hid. apply list_elem_of_singleton in Hid as ->.
    set (q := queue scenario_pulled.1 scenario_sub). vm_compute in q. subst q.
    eexists. split; [left|]. split; reflexivity. }
  set (q := queue scenario_pulled.1 scenario_sub) in Hset. vm_compute in q. subst q.
  edestruct (Hset 0%nat) as (msg' & Hmsg' & _ & _ & _ & Hzero & _);
    [reflexivity|left|reflexivity|].
  exists s', msg'. split; [exact Hmod|]. split; [exact Hmsg'|].
  by destruct (Hzero eq_refl) as [? _].
Defined.

(** * Further properties of the engine *)

(** ** The topic registry *)

(** X1.  Creating a topic under a free name succeeds; the topic is then
    found by [GetTopic], creating it again fails with AlreadyExists and
    changes nothing, and no other topic, subscription or queue is
    touched. *)
Theorem CreateTopic_then_GetTopic name s :
  topics s !! name = None →
  ∃ s',
    CreateTopic name s = (Ok {| Topic_Name := name |}, s')
    ∧ GetTopic name s' = (Ok {| Topic_Name := name |}, s')
    ∧ CreateTopic name s' = (Err ErrTopicAlreadyExists, s')
    ∧ (∀ other, other ≠ name → (GetTopic other s').1 = (GetTopic other s).1)
    ∧ subscriptions s' = subscriptions s
    ∧ messages s' = messages s.
Proof.
  intros Hfree. unfold CreateTopic at 1. rewrite Hfree. eexists. split; [done|].
  unfold GetTopic, CreateTopic. simpl. rewrite !lookup_insert_eq.
  split_and!; try done. intros other Hne. rewrite lookup_insert_ne by done.
  by destruct (topics s !! other).
Qed.

Lemma CreateTopic_then_GetTopic_witness :
  ∃ s', CreateTopic scenario_topic NewStorage = (Ok {| Topic_Name := scenario_topic |}, s')
        ∧ GetTopic scenario_topic s' = (Ok {| Topic_Name := scenario_topic |}, s').
Proof.
  destruct (CreateTopic_then_GetTopic scenario_topic NewStorage ltac:(reflexivity))
    as (s' & Hcreate & Hget & _).
  exists s'. by split.
Defined.

Lemma Publish_set_topics uuid order now topicName msgs s k f :
  is_Some (topics s !! topicName) → is_Some (f (topics s) !! topicName) →
  Publish uuid order now topicName msgs (set_topics f s) k =
  ((Publish uuid order now topicName msgs s k).1.1,
   set_topics f (Publish uuid order now topicName msgs s k).1.2,
   (Publish uuid order now topicName msgs s k).2).
Proof.
  intros [t Ht] [t' Ht']. unfold Publish. simpl. rewrite Ht, Ht'.
  destruct (genMessageIDs _ _ _) as [ids k1]. by destruct (fanOut _ _ _ _ _ _ _).
Qed.

(** X2.  After a registered topic is deleted it is not found, deleting it
    again fails with NotFound, and it can be created again under the same
    name.  Subscriptions are bound by name: on the topic created again
    [Publish] returns the identifiers and fills the queues exactly as it
    does before the deletion. *)
Theorem DeleteTopic_then_recreate name s :
  is_Some (topics s !! name) →
  ∃ s1 s2,
    DeleteTopic name s = (Ok (), s1)
    ∧ GetTopic name s1 = (Err ErrTopicNotFound, s1)
    ∧ DeleteTopic name s1 = (Err ErrTopicNotFound, s1)
    ∧ CreateTopic name s1 = (Ok {| Topic_Name := name |}, s2)
    ∧ GetTopic name s2 = (Ok {| Topic_Name := name |}, s2)
    ∧ subscriptions s2 = subscriptions s
    ∧ messages s2 = messages s
    ∧ (∀ uuid order now msgs k,
         let before := Publish uuid order now name msgs s k in
         let after := Publish uuid order now name msgs s2 k in
         after.1.1 = before.1.1
         ∧ subscriptions after.1.2 = subscriptions before.1.2
         ∧ messages after.1.2 = messages before.1.2
         ∧ after.2 = before.2).
Proof.
  intros Htopic. pose proof Htopic as [topic Ht].
  exists (set_topics (delete name) s),
    (set_topics (λ m, <[name := {| Topic_Name := name |}]> (delete name m)) s).
  unfold GetTopic, DeleteTopic, CreateTopic. simpl.
  rewrite Ht, !lookup_delete_eq, lookup_insert_eq.
  split_and!; try done.
  intros uuid order now msgs k.
  rewrite Publish_set_topics; [done|done|]. rewrite lookup_insert_eq. eauto.
Qed.

Lemma DeleteTopic_then_recreate_witness :
  is_Some (topics scenario_published.1 !! scenario_topic)
  ∧ ∃ s1 s2,
      DeleteTopic scenario_topic scenario_published.1 = (Ok (), s1)
      ∧ CreateTopic scenario_topic s1 = (Ok {| Topic_Name := scenario_topic |}, s2)
      ∧ messages s2 = messages scenario_published.1.
Proof.
  assert (is_Some (topics scenario_published.1 !! scenario_topic)) as Htopic.
  { eexists. vm_compute. reflexivity. }
  split; [exact Htopic|].
  destruct (DeleteTopic_then_recreate scenario_topic scenario_published.1 Htopic)
    as (s1 & s2 & Hdel & _ & _ & Hcreate & _ & _ & Hmsgs & _).
  exists s1, s2. by split_and!.
Defined.

(** ** The subscription registry *)



(** X4.  Deleting a registered subscription removes its registry entry
    and its queue record with every lease in it, and nothing else.
    Afterwards the subscription is not found by any operation, and
    creating it again gives an empty queue: the leases it held are
    gone. *)
Theorem DeleteSubscription_discards name s :
  is_Some (subscriptions s !! name) →
  ∃ s',
    DeleteSubscription name s = (Ok (), s')
    ∧ topics s' = topics s
    ∧ subscriptions s' = delete name (subscriptions s)
    ∧ messages s' = delete name (messages s)
    ∧ GetSubscription name s' = (Err ErrSubscriptionNotFound, s')
    ∧ DeleteSubscription name s' = (Err ErrSubscriptionNotFound, s')
    ∧ (∀ testing now maxMessages,
         Pull testing now name maxMessages s' = (Err ErrSubscriptionNotFound, s'))
    ∧ (∀ now ackIDs,
         Acknowledge now name ackIDs s' = (Err ErrSubscriptionNotFound, s'))
    ∧ (∀ topicName, is_Some (topics s !! topicName) →
         ∃ s'', CreateSubscription name topicName s'
                = (Ok {| Subscription_Name := name; Subscription_Topic := topicName |}, s'')
                ∧ messages s'' !! name = Some []).
Proof.
  intros [sub Hsub]. unfold DeleteSubscription at 1. rewrite Hsub.
  eexists. split; [done|]. set (s' := set_messages _ _).
  assert (subscriptions s' !! name = None) as Hgone by apply lookup_delete_eq.
  split_and!; try done.
  - unfold GetSubscription. by rewrite Hgone.
  - unfold DeleteSubscription. by rewrite Hgone.
  - intros. by apply Pull_unregistered.
  - intros. by apply Acknowledge_unregistered.
  - intros topicName [topic Htopic]. unfold CreateSubscription.
    rewrite Hgone. simpl. rewrite Htopic. eexists. split; [done|].
    simpl. apply lookup_insert_eq.
Qed.

Lemma DeleteSubscription_discards_witness :
  messages scenario_published.1 !! scenario_sub ≠ Some []
  ∧ ∃ s' s'',
      DeleteSubscription scenario_sub scenario_published.1 = (Ok (), s')
      ∧ (CreateSubscription scenario_sub scenario_topic s').2 = s''
      ∧ messages s'' !! scenario_sub = Some [].
Proof.
  split; [vm_compute; discriminate|].
  destruct (DeleteSubscription_discards scenario_sub scenario_published.1
              scenario_published_registered)
    as (s' & Hdel & _ & _ & _ & _ & _ & _ & _ & Hcreate).
  destruct (Hcreate scenario_topic ltac:(eexists; vm_compute; reflexivity))
    as (s'' & Hc & Hq).
  exists s', s''. split; [exact Hdel|]. split; [by rewrite Hc|exact Hq].
Defined.

(** ** Publish: calls that change nothing *)

Lemma fanOut_empty_batch uuid now topicName order k msgs :
  fanOut uuid now topicName [] order k msgs = (msgs, k).
Proof.
  revert k msgs. induction order as [|[key sub] rest IH]; intros k msgs; simpl; [done|].
  by case_decide.
Qed.

(** X5.  [Publish] to an unregistered topic fails with TopicNotFound, and
    [Publish] of an empty batch to a registered topic returns no
    identifier; in both cases no queue changes and no identifier is drawn
    from the generator, in any state and for any visiting order. *)
Theorem Publish_changes_nothing uuid order now topicName s k :
  (topics s !! topicName = None →
     ∀ msgs, Publish uuid order now topicName msgs s k = (Err ErrTopicNotFound, s, k))
  ∧ (is_Some (topics s !! topicName) →
     Publish uuid order now topicName [] s k = (Ok [], s, k)).
Proof.
  split.
  - intros Hnone msgs. by apply Publish_unregistered.
  - intros [topic Htopic]. unfold Publish. rewrite Htopic. simpl.
    rewrite fanOut_empty_batch. do 2 f_equal. by apply Storage_eq.
Qed.

(** ** Pull: what it leaves alone *)

(** The state after a pull: the state before it, or that state with the
    queue of the subscription replaced by the queue the loop leaves. *)
Lemma Pull_state_cases testing now name maxMessages s :
  (Pull testing now name maxMessages s).2 = s
  ∨ ∃ msgs, messages s !! name = Some msgs
            ∧ (Pull testing now name maxMessages s).2 =
              set_messages (insert name (grantUpTo testing now (Z.to_nat maxMessages) msgs)) s.
Proof.
  destruct (subscriptions s !! name) as [sub|] eqn:Hsub;
    [|left; by rewrite Pull_unregistered].
  assert (registered s name) as Hreg by (by exists sub).
  destruct (messages s !! name) as [msgs|] eqn:Hq; [|left; by rewrite Pull_no_queue].
  destruct (Z.ltb_spec maxMessages 0) as [Hneg|Hpos].
  { left. rewrite Pull_negative; eauto. }
  right. exists msgs. split; [done|]. by rewrite (Pull_queue _ _ _ _ _ msgs).
Qed.

(** X6.  Whatever its outcome, [Pull] leaves the registry and every other
    queue as they are, keeps the length and the order of the queue it
    reads, and keeps the message, the token and the acknowledgement
    status of every lease; the only field it writes is the deadline, and
    it never moves a deadline backwards. *)
Theorem Pull_only_moves_deadlines_forward testing now name maxMessages s :
  let s' := (Pull testing now name maxMessages s).2 in
  topics s' = topics s
  ∧ subscriptions s' = subscriptions s
  ∧ (∀ other, other ≠ name → messages s' !! other = messages s !! other)
  ∧ (is_Some (messages s' !! name) ↔ is_Some (messages s !! name))
  ∧ length (queue s' name) = length (queue s name)
  ∧ (∀ i msg, queue s name !! i = Some msg →
       ∃ msg',
         queue s' name !! i = Some msg'
         ∧ InternalMessage_Message msg' = InternalMessage_Message msg
         ∧ InternalMessage_AckID msg' = InternalMessage_AckID msg
         ∧ InternalMessage_AckedAt msg' = InternalMessage_AckedAt msg
         ∧ (InternalMessage_DeadlineAt msg <= InternalMessage_DeadlineAt msg')%Z).
Proof.
  intros s'. destruct (Pull_state_cases testing now name maxMessages s)
    as [Hsame|(msgs & Hq & Hs')]; subst s'.
  - rewrite Hsame. split_and!; try done.
    intros i msg Hi. exists msg. by split_and!.
  - rewrite Hs'. unfold queue. simpl. rewrite lookup_insert_eq, Hq. simpl.
    split_and!; try done.
    + intros other Hne. by rewrite lookup_insert_ne.
    + apply length_grantUpTo.
    + intros i msg Hi. rewrite grantUpTo_lookup, Hi. simpl. eexists. split; [done|].
      case_decide as Hsel; [|by split_and!].
      destruct Hsel as [[_ Hlt] _]. pose proof (leaseDuration_pos testing).
      simpl. unfold Add. split_and!; try done. lia.
Qed.

Lemma grantUpTo_nothing testing now n msgs :
  take n (filter (eligible now) msgs) = [] → grantUpTo testing now n msgs = msgs.
Proof.
  revert n. induction msgs as [|msg rest IH]; intros [|n]; simpl; try done.
  destruct (decide (eligible now msg)).
  - by rewrite (filter_cons_True _ msg rest).
  - rewrite filter_cons_False by done. intros H. by rewrite IH.
Qed.

(** X7.  A pull that returns no message has no effect: if [Pull] fails,
    or returns the empty list (a cap of 0, an empty queue, nothing
    eligible), the state after it is the state before it. *)
Theorem Pull_without_messages_changes_nothing testing now name maxMessages s :
  (∀ received, (Pull testing now name maxMessages s).1 = Ok received → received = []) →
  (Pull testing now name maxMessages s).2 = s.
Proof.
  destruct (subscriptions s !! name) as [sub|] eqn:Hsub;
    [|by rewrite Pull_unregistered].
  assert (registered s name) as Hreg by (by exists sub).
  destruct (messages s !! name) as [msgs|] eqn:Hq; [|by rewrite Pull_no_queue].
  destruct (Z.ltb_spec maxMessages 0) as [Hneg|Hpos].
  { rewrite Pull_negative; eauto. }
  rewrite (Pull_queue _ _ _ _ _ msgs) by done. simpl. intros Hempty.
  specialize (Hempty _ eq_refl). apply map_eq_nil in Hempty.
  rewrite grantUpTo_nothing by done. apply Storage_eq; try done.
  simpl. by apply insert_id.
Qed.

(** The theorem of X7 in the scenario: a pull with a cap of 0. *)
Lemma Pull_without_messages_changes_nothing_witness :
  (Pull true 1000%Z scenario_sub 0%Z scenario_published.1).1 = Ok []
  ∧ (Pull true 1000%Z scenario_sub 0%Z scenario_published.1).2 = scenario_published.1.
Proof.
  split; [vm_compute; reflexivity|].
  apply Pull_without_messages_changes_nothing.
  intros received. vm_compute. by intros [= <-].
Defined.

(** ** Acknowledge: composition *)

Lemma ackKept_ext ackIDs ackIDs' msg :
  (∀ id, id ∈ ackIDs ↔ id ∈ ackIDs') → ackKept ackIDs msg ↔ ackKept ackIDs' msg.
Proof. intros Hsame. unfold ackKept. by rewrite Hsame. Qed.

Lemma filter_ackKept_ext ackIDs ackIDs' (msgs : list InternalMessage) :
  (∀ id, id ∈ ackIDs ↔ id ∈ ackIDs') →
  filter (ackKept ackIDs) msgs = filter (ackKept ackIDs') msgs.
Proof.
  intros Hsame. induction msgs as [|msg rest IH]; [done|].
  pose proof (ackKept_ext ackIDs ackIDs' msg Hsame) as Hiff.
  destruct (decide (ackKept ackIDs msg)) as [Hk|Hk].
  - rewrite (filter_cons_True (ackKept ackIDs)) by done.
    rewrite (filter_cons_True (ackKept ackIDs')) by tauto. by rewrite IH.
  - rewrite (filter_cons_False (ackKept ackIDs)) by done.
    rewrite (filter_cons_False (ackKept ackIDs')) by tauto. done.
Qed.

Lemma ackKept_app ackIDs ackIDs' msg :
  ackKept (ackIDs ++ ackIDs') msg ↔ ackKept ackIDs msg ∧ ackKept ackIDs' msg.
Proof. unfold ackKept. rewrite elem_of_app. tauto. Qed.

Lemma filter_ackKept_app ackIDs ackIDs' (msgs : list InternalMessage) :
  filter (ackKept ackIDs') (filter (ackKept ackIDs) msgs)
  = filter (ackKept (ackIDs ++ ackIDs')) msgs.
Proof.
  induction msgs as [|msg rest IH]; [done|].
  pose proof (ackKept_app ackIDs ackIDs' msg) as Happ.
  destruct (decide (ackKept ackIDs msg)) as [Hk|Hk].
  - rewrite (filter_cons_True (ackKept ackIDs)) by done.
    destruct (decide (ackKept ackIDs' msg)) as [Hk'|Hk'].
    + rewrite (filter_cons_True (ackKept ackIDs')) by done.
      rewrite (filter_cons_True (ackKept (ackIDs ++ ackIDs'))) by tauto. by rewrite IH.
    + rewrite (filter_cons_False (ackKept ackIDs')) by done.
      rewrite (filter_cons_False (ackKept (ackIDs ++ ackIDs'))) by tauto. done.
  - rewrite (filter_cons_False (ackKept ackIDs)) by done.
    rewrite (filter_cons_False (ackKept (ackIDs ++ ackIDs'))) by tauto. done.
Qed.

(** X8.  In any state, acknowledging a list of tokens and then a second
    list is the same call, result and state, as acknowledging the two
    lists at once; and the outcome of [Acknowledge] depends only on
    which tokens occur in the list, not on their order or repetition nor
    on the clock. *)
Theorem Acknowledge_composes name s :
  (∀ now1 now2 now ackIDs1 ackIDs2,
     Acknowledge now2 name ackIDs2 (Acknowledge now1 name ackIDs1 s).2
     = Acknowledge now name (ackIDs1 ++ ackIDs2) s)
  ∧ (∀ now now' ackIDs ackIDs',
       (∀ id, id ∈ ackIDs ↔ id ∈ ackIDs') →
       Acknowledge now name ackIDs s = Acknowledge now' name ackIDs' s).
Proof.
  split.
  - intros now1 now2 now ackIDs1 ackIDs2.
    destruct (subscriptions s !! name) as [sub|] eqn:Hsub.
    2:{ rewrite !(Acknowledge_unregistered _ _ _ s) by done. done. }
    assert (registered s name) as Hreg by (by exists sub).
    destruct (messages s !! name) as [msgs|] eqn:Hq.
    2:{ rewrite !(Acknowledge_no_queue _ _ _ s) by done. done. }
    rewrite (Acknowledge_queue now1 _ _ s msgs), (Acknowledge_queue now _ _ s msgs) by done.
    cbn [snd].
    rewrite (Acknowledge_queue _ _ _ _ (filter (ackKept ackIDs1) msgs)).
    + f_equal. apply Storage_eq; simpl; try done.
      by rewrite insert_insert_eq, filter_ackKept_app.
    + done.
    + simpl. apply lookup_insert_eq.
  - intros now now' ackIDs ackIDs' Hsame.
    destruct (subscriptions s !! name) as [sub|] eqn:Hsub.
    2:{ by rewrite !Acknowledge_unregistered. }
    assert (registered s name) as Hreg by (by exists sub).
    destruct (messages s !! name) as [msgs|] eqn:Hq.
    2:{ by rewrite !Acknowledge_no_queue. }
    rewrite !(Acknowledge_queue _ _ _ s msgs) by done.
    by rewrite (filter_ackKept_ext ackIDs ackIDs').
Qed.

(** X9.  In any state, after a successful [Acknowledge] no lease of the
    queue carries a supplied token and none is acknowledged; the leases
    that stay are leases of the old queue, untouched and in their old
    order; the registry and the other queues are as before. *)
Theorem Acknowledge_leaves_the_rest now name ackIDs s :
  let s' := (Acknowledge now name ackIDs s).2 in
  topics s' = topics s
  ∧ subscriptions s' = subscriptions s
  ∧ (∀ other, other ≠ name → messages s' !! other = messages s !! other)
  ∧ queue s' name `sublist_of` queue s name
  ∧ ((Acknowledge now name ackIDs s).1 = Ok () →
       ∀ msg, msg ∈ queue s' name ↔
              msg ∈ queue s name
              ∧ (InternalMessage_AckID msg ∉ ackIDs)
              ∧ InternalMessage_AckedAt msg = None).
Proof.
  intros s'. subst s'.
  destruct (subscriptions s !! name) as [sub|] eqn:Hsub.
  2:{ rewrite Acknowledge_unregistered by done. by split_and!. }
  assert (registered s name) as Hreg by (by exists sub).
  destruct (messages s !! name) as [msgs|] eqn:Hq.
  2:{ rewrite Acknowledge_no_queue by done. by split_and!. }
  rewrite (Acknowledge_queue _ _ _ s msgs) by done. unfold queue. simpl.
  rewrite lookup_insert_eq, Hq. simpl. split_and!; try done.
  - intros other Hne. by rewrite lookup_insert_ne.
  - apply sublist_filter.
  - intros _ msg. rewrite list_elem_of_filter. unfold ackKept. tauto.
Qed.

(** ** Invariants of the reachable states *)

Lemma topicsNamed_exec uuid testing op w :
  topicsNamed w.1 → topicsNamed (exec uuid testing op w).1.
Proof.
  destruct w as [s k]. intros Hnamed.
  assert (∀ s', topics s' = topics s → topicsNamed s') as Hsame.
  { intros s' Heq. unfold topicsNamed. by rewrite Heq. }
  destruct op; simpl.
  - unfold CreateTopic. destruct (topics s !! name) as [old|] eqn:Hname; [done|].
    intros n t. simpl. destruct (decide (name = n)) as [->|Hne].
    + rewrite lookup_insert_eq. by intros [= <-].
    + rewrite lookup_insert_ne by done. apply Hnamed.
  - unfold GetTopic. by destruct (topics s !! name).
  - unfold DeleteTopic. destruct (topics s !! name) as [old|] eqn:Hname; [|done].
    intros n t. simpl. destruct (decide (name = n)) as [->|Hne].
    + by rewrite lookup_delete_eq.
    + rewrite lookup_delete_ne by done. apply Hnamed.
  - apply Hsame. unfold CreateSubscription.
    destruct (subscriptions s !! name); [done|]. by destruct (topics s !! topicName).
  - unfold GetSubscription. by destruct (subscriptions s !! name).
  - apply Hsame. unfold DeleteSubscription. by destruct (subscriptions s !! name).
  - apply Hsame. unfold Publish. destruct (topics s !! topicName); [|done].
    destruct (genMessageIDs _ _ _). by destruct (fanOut _ _ _ _ _ _ _).
  - apply Hsame. by destruct (Pull_state_cases testing now subscriptionName maxMessages s)
      as [->|(msgs & _ & ->)].
  - apply Hsame. unfold Acknowledge. destruct (subscriptions s !! subscriptionName); [|done].
    destruct (messages s !! subscriptionName); [|done]. by destruct (ackLoop _ _ _ _).
  - done.
  - done.
Qed.

Section TokensApart.

Context (uuid : nat → string) (testing : bool).
Hypothesis uuid_fresh : Inj (=) (=) uuid.

(** Replacing a queue by one whose tokens are tokens it held keeps the
    queues apart. *)
Lemma tokensApart_insert name msgs' s :
  (∀ msg', msg' ∈ msgs' →
     ∃ msg, msg ∈ queue s name ∧ InternalMessage_AckID msg = InternalMessage_AckID msg') →
  tokensApart s → tokensApart (set_messages (insert name msgs') s).
Proof.
  intros Hsub Hapart n1 n2 q1 q2 m1 m2 Hne. simpl.
  assert (∀ n q m other qo mo, n ≠ other →
            <[name := msgs']> (messages s) !! n = Some q → m ∈ q →
            messages s !! other = Some qo → mo ∈ qo → name = n →
            InternalMessage_AckID m ≠ InternalMessage_AckID mo) as Hone.
  { intros n q m other qo mo Hno Hq Hm Hqo Hmo <-.
    rewrite lookup_insert_eq in Hq. injection Hq as <-.
    destruct (Hsub m Hm) as (m0 & Hm0 & <-). unfold queue in Hm0.
    destruct (messages s !! name) as [q0|] eqn:Hq0; [|by apply elem_of_nil in Hm0].
    by apply (Hapart name other q0 qo). }
  destruct (decide (name = n1)) as [H1|H1]; destruct (decide (name = n2)) as [H2|H2].
  - congruence.
  - rewrite (lookup_insert_ne _ name n2) by done. intros Hq1 Hq2 Hm1 Hm2.
    by apply (Hone n1 q1 m1 n2 q2 m2).
  - rewrite (lookup_insert_ne _ name n1) by done. intros Hq1 Hq2 Hm1 Hm2.
    apply not_eq_sym. by apply (Hone n2 q2 m2 n1 q1 m1).
  - rewrite !lookup_insert_ne by done. intros Hq1 Hq2 Hm1 Hm2.
    by apply (Hapart n1 n2 q1 q2).
Qed.

Lemma tokensApart_Publish order now topicName msgs s k :
  StorageInv s → TokenInv uuid (s, k) → rangeOrder order s → tokensApart s →
  tokensApart (Publish uuid order now topicName msgs s k).1.2.
Proof.
  intros Hinv Htok Hord Hapart.
  destruct (topics s !! topicName) as [topic|] eqn:Htopic;
    [|by rewrite Publish_unregistered].
  destruct (Publish_ok uuid order now topicName msgs s k Hinv Hord)
    as (msgs' & -> & Hother & Hbound); [eauto|]. simpl.
  set (n := length msgs) in *.
  assert (length (zip msgs (map uuid (seq k n))) = n) as Hlen.
  { rewrite length_zip_with, length_map, length_seq. fold n. lia. }
  (* a lease of a queue after the call is an old lease of that queue, or
     a lease created at the slot of its subscription *)
  assert (∀ name q' m, msgs' !! name = Some q' → m ∈ q' →
            (∃ q, messages s !! name = Some q ∧ m ∈ q)
            ∨ (∃ j sub i, boundIn topicName order !! j = Some (name, sub) ∧ (i < n)%nat
                 ∧ InternalMessage_AckID m = uuid (k + n + j * n + i)%nat)) as Hcases.
  { intros name q' m Hq' Hm. destruct (bound_dec s topicName name) as [Hb|Hnb].
    - destruct (Hbound name Hb) as (j & sub & q & Hj & Hq & Hnew).
      rewrite Hnew in Hq'. injection Hq' as <-.
      apply elem_of_app in Hm as [Hm|Hm]; [left; eauto|right].
      apply elem_of_newLeases in Hm as (i & pm & id & Hi & ->).
      apply lookup_lt_Some in Hi. rewrite Hlen in Hi.
      exists j, sub, i. by split_and!.
    - rewrite (Hother name Hnb) in Hq'. left. eauto. }
  intros n1 n2 q1 q2 m1 m2 Hne Hq1 Hq2 Hm1 Hm2. simpl in *.
  destruct (Hcases n1 q1 m1 Hq1 Hm1) as [(p1 & Hp1 & Hin1)|(j1 & sub1 & i1 & Hj1 & Hi1 & Hid1)];
    destruct (Hcases n2 q2 m2 Hq2 Hm2) as [(p2 & Hp2 & Hin2)|(j2 & sub2 & i2 & Hj2 & Hi2 & Hid2)].
  - by apply (Hapart n1 n2 p1 p2).
  - destruct (inv_drawn _ _ Htok n1 p1 m1 Hp1 Hin1) as (j & Hj & Hid1). simpl in Hj.
    rewrite Hid1, Hid2. intros Heq. apply uuid_fresh in Heq. lia.
  - destruct (inv_drawn _ _ Htok n2 p2 m2 Hp2 Hin2) as (j & Hj & Hid2). simpl in Hj.
    rewrite Hid1, Hid2. intros Heq. apply uuid_fresh in Heq. lia.
  - rewrite Hid1, Hid2. intros Heq. apply uuid_fresh in Heq.
    assert (j1 = j2) as -> by nia. rewrite Hj1 in Hj2. congruence.
Qed.

Lemma tokensApart_exec op w :
  admissible op w → StorageInv w.1 → TokenInv uuid w → tokensApart w.1 →
  tokensApart (exec uuid testing op w).1.
Proof.
  destruct w as [s k]. intros Hadm Hinv Htok Hapart.
  assert (∀ s', messages s' = messages s → tokensApart s') as Hsame.
  { intros s' Heq. unfold tokensApart. by rewrite Heq. }
  destruct op; simpl in *.
  - apply Hsame. unfold CreateTopic. by destruct (topics s !! name).
  - unfold GetTopic. by destruct (topics s !! name).
  - apply Hsame. unfold DeleteTopic. by destruct (topics s !! name).
  - unfold CreateSubscription. destruct (subscriptions s !! name); [done|].
    destruct (topics s !! topicName); [|done]. simpl.
    apply (tokensApart_insert name [] (set_subscriptions _ s)); [|done].
    intros m Hm. by apply elem_of_nil in Hm.
  - unfold GetSubscription. by destruct (subscriptions s !! name).
  - unfold DeleteSubscription. destruct (subscriptions s !! name); [|done]. simpl.
    intros n1 n2 q1 q2 m1 m2 Hne. simpl. rewrite !lookup_delete_Some.
    intros [_ Hq1] [_ Hq2] Hm1 Hm2. by apply (Hapart n1 n2 q1 q2).
  - by apply tokensApart_Publish.
  - destruct (Pull_state_cases testing now subscriptionName maxMessages s)
      as [->|(msgs & Hq & ->)]; [done|].
    apply tokensApart_insert; [|done]. intros m' Hm'. unfold queue. rewrite Hq. simpl.
    apply elem_of_grantUpTo in Hm' as [Hm'|(m & Hm & _ & ->)]; eauto.
  - destruct (subscriptions s !! subscriptionName) as [sub|] eqn:Hsub;
      [|by rewrite Acknowledge_unregistered].
    destruct (messages s !! subscriptionName) as [msgs|] eqn:Hq;
      [|rewrite Acknowledge_no_queue; [done|by exists sub|done]].
    rewrite (Acknowledge_queue _ _ _ _ msgs); [|by exists sub|done]. simpl.
    apply tokensApart_insert; [|done]. intros m' Hm'. unfold queue. rewrite Hq. simpl.
    apply list_elem_of_filter in Hm' as [_ Hm']. eauto.
  - done.
  - done.
Qed.

Lemma reachable_tokensApart w : reachable uuid testing w → tokensApart w.1.
Proof.
  induction 1 as [k|op w Hreach IH Hadm].
  - intros n1 n2 q1 q2 m1 m2 _. simpl. by rewrite lookup_empty.
  - apply tokensApart_exec; try done.
    + by eapply reachable_StorageInv.
    + by apply (reachable_TokenInv uuid testing uuid_fresh).
Qed.

End TokensApart.

Lemma reachable_topicsNamed uuid testing w : reachable uuid testing w → topicsNamed w.1.
Proof.
  induction 1 as [k|op w Hreach IH Hadm].
  - intros name topic. simpl. by rewrite lookup_empty.
  - by apply topicsNamed_exec.
Qed.

(** X10.  In every state reachable by the operations of the engine,
    topics and subscriptions are stored under their own names and no
    acknowledged lease is stored in any queue; and, with a generator
    that returns a new value at each call, a lease token identifies one
    lease of the whole storage: two stored leases with the same token are
    the same position of the same queue. *)
Theorem reachable_leases_identified uuid testing w :
  reachable uuid testing w →
  (∀ name topic, topics w.1 !! name = Some topic → Topic_Name topic = name)
  ∧ (∀ name sub, subscriptions w.1 !! name = Some sub → Subscription_Name sub = name)
  ∧ (∀ name msgs msg,
       messages w.1 !! name = Some msgs → msg ∈ msgs →
       InternalMessage_AckedAt msg = None)
  ∧ (Inj (=) (=) uuid →
     ∀ name1 name2 msgs1 msgs2 i1 i2 msg1 msg2,
       messages w.1 !! name1 = Some msgs1 → messages w.1 !! name2 = Some msgs2 →
       msgs1 !! i1 = Some msg1 → msgs2 !! i2 = Some msg2 →
       InternalMessage_AckID msg1 = InternalMessage_AckID msg2 →
       name1 = name2 ∧ i1 = i2).
Proof.
  intros Hreach. pose proof (reachable_StorageInv _ _ _ Hreach) as Hinv.
  split_and!.
  - by apply (reachable_topicsNamed uuid testing).
  - apply (inv_name _ Hinv).
  - apply (inv_pending _ Hinv).
  - intros Hinj name1 name2 msgs1 msgs2 i1 i2 msg1 msg2 Hq1 Hq2 Hi1 Hi2 Hid.
    destruct (decide (name1 = name2)) as [->|Hne].
    + split; [done|]. rewrite Hq1 in Hq2. injection Hq2 as <-.
      pose proof (inv_nodup _ _ (reachable_TokenInv _ _ Hinj _ Hreach) name2 msgs1 Hq1)
        as Hnd.
      eapply (NoDup_lookup _ i1 i2 (InternalMessage_AckID msg1) Hnd).
      * change (map ?f ?l) with (f <$> l). by rewrite list_lookup_fmap, Hi1.
      * change (map ?f ?l) with (f <$> l). by rewrite list_lookup_fmap, Hi2, Hid.
    + exfalso.
      apply (reachable_tokensApart uuid testing Hinj w Hreach
               name1 name2 msgs1 msgs2 msg1 msg2); try done.
      * by eapply list_elem_of_lookup_2.
      * by eapply list_elem_of_lookup_2.
Qed.

(** The theorem of X10 at the state of the scenario after the pull. *)
Lemma reachable_leases_identified_witness :
  reachable scenario_uuid true scenario_pulled
  ∧ ∀ name msgs msg,
      messages scenario_pulled.1 !! name = Some msgs → msg ∈ msgs →
      InternalMessage_AckedAt msg = None.
Proof.
  split; [apply scenario_pulled_reachable|].
  apply (reachable_leases_identified scenario_uuid true scenario_pulled
           scenario_pulled_reachable).
Defined.

(** ** An acknowledged lease is not delivered again *)

Section Acknowledged.

Context (uuid : nat → string) (testing : bool).
Hypothesis uuid_fresh : Inj (=) (=) uuid.

Lemma absent_heldUntil name tok s :
  absent name tok s ↔ ∀ D, heldUntil name tok D s.
Proof.
  split.
  - intros Habs D msgs msg Hq Hm Hid. by destruct (Habs msgs msg Hq Hm).
  - intros Hheld msgs msg Hq Hm Hid.
    specialize (Hheld (InternalMessage_DeadlineAt msg + 1)%Z msgs msg Hq Hm Hid). lia.
Qed.

Lemma heldUntil_mono name tok D D' s :
  (D' <= D)%Z → heldUntil name tok D s → heldUntil name tok D' s.
Proof. intros Hle Hheld msgs msg Hq Hm Hid. specialize (Hheld msgs msg Hq Hm Hid). lia. Qed.

Lemma absent_exec op name j w :
  admissible op w → StorageInv w.1 → (j < w.2)%nat →
  absent name (uuid j) w.1 → absent name (uuid j) (exec uuid testing op w).1.
Proof.
  intros Hadm Hinv Hj Habs. apply absent_heldUntil. intros D.
  set (D0 := match pullTime op with Some t => Z.max D t | None => D end).
  apply (heldUntil_mono name (uuid j) D0).
  { unfold D0. destruct (pullTime op); lia. }
  apply heldUntil_exec; try done.
  - intros now Hnow. unfold D0. rewrite Hnow. lia.
  - by apply absent_heldUntil.
Qed.

Lemma absent_steps ops name j w w' :
  steps uuid testing ops w w' → reachable uuid testing w → (j < w.2)%nat →
  absent name (uuid j) w.1 → absent name (uuid j) w'.1.
Proof.
  induction 1 as [w|op ops w w' Hadm Hsteps IH]; [done|].
  intros Hreach Hj Habs. apply IH; [by constructor| |].
  - pose proof (exec_counter_le uuid testing op w). lia.
  - apply absent_exec; try done. by eapply reachable_StorageInv.
Qed.

End Acknowledged.

(** X11.  In a reachable state, with a generator that returns a new
    value at each call: once the token of a lease held by a subscription
    has been acknowledged, no pull on that subscription returns it again,
    whatever operations of the engine run in between and whenever the
    pull happens. *)
Theorem Acknowledged_never_redelivered uuid testing w now name ackIDs tok :
  Inj (=) (=) uuid → reachable uuid testing w →
  tok ∈ map InternalMessage_AckID (queue w.1 name) → tok ∈ ackIDs →
  ∃ s',
    Acknowledge now name ackIDs w.1 = (Ok (), s')
    ∧ ∀ ops w' now' maxMessages' received',
        steps uuid testing ops (s', w.2) w' →
        (Pull testing now' name maxMessages' w'.1).1 = Ok received' →
        tok ∉ map ReceivedMessage_AckID received'.
Proof.
  intros Hinj Hreach Htok Hin.
  pose proof (reachable_StorageInv _ _ _ Hreach) as Hinv.
  unfold queue in Htok. destruct (messages w.1 !! name) as [msgs|] eqn:Hq;
    [|by apply elem_of_nil in Htok].
  assert (registered w.1 name) as Hreg by (apply (inv_queue _ Hinv); eauto).
  apply list_elem_of_fmap in Htok as (msg & -> & Hmsg).
  destruct (inv_drawn _ _ (reachable_TokenInv _ _ Hinj _ Hreach) name msgs msg Hq Hmsg)
    as (j & Hj & Hid).
  rewrite Hid in *. eexists. split; [by apply Acknowledge_queue|].
  intros ops w' now' maxMessages' received' Hsteps HPull.
  eapply (heldUntil_not_pulled testing now' name maxMessages' _ now' w'.1); [|lia|done].
  apply absent_heldUntil.
  eapply (absent_steps uuid testing Hinj ops name j _ w' Hsteps); [|done|].
  - pose proof (reachable_step uuid testing (OpAcknowledge now name ackIDs) w Hreach I)
      as Hr. simpl in Hr. by rewrite (Acknowledge_queue _ _ _ _ msgs) in Hr.
  - intros q m. simpl. rewrite lookup_insert_eq. intros [= <-] Hm Hid'.
    apply list_elem_of_filter in Hm as [[Hnot _] _]. apply Hnot. by rewrite Hid'.
Qed.

(** The theorem of X11 in the scenario: the pulled lease acknowledged and
    a pull long after its deadline. *)
Lemma Acknowledged_never_redelivered_witness :
  reachable scenario_uuid true scenario_pulled
  ∧ "1" ∈ map InternalMessage_AckID (queue scenario_pulled.1 scenario_sub)
  ∧ ∃ s', Acknowledge 2000%Z scenario_sub ["1"] scenario_pulled.1 = (Ok (), s')
          ∧ ∀ received',
              (Pull true 100001000%Z scenario_sub 10%Z s').1 = Ok received' →
              "1" ∉ map ReceivedMessage_AckID received'.
Proof.
  split; [apply scenario_pulled_reachable|].
  assert ("1" ∈ map InternalMessage_AckID (queue scenario_pulled.1 scenario_sub)) as Hin.
  { set (l := map _ _). vm_compute in l. subst l. left. }
  split; [exact Hin|].
  destruct (Acknowledged_never_redelivered scenario_uuid true scenario_pulled 2000%Z
              scenario_sub ["1"] "1" pretty_nat_inj scenario_pulled_reachable Hin
              ltac:(left)) as (s' & Hack & Hnever).
  exists s'. split; [exact Hack|]. intros received'.
  apply (Hnever [] (s', scenario_pulled.2) 100001000%Z 10%Z received'). constructor.
Defined.

(** ** Publish, then Pull *)





(** ** Redelivery *)






(** ** The request handlers *)

(** X14.  The handlers of the registry answer with a status that tells
    the state they found, and never with 500: creating a topic answers
    200 with the topic when the name was free and 409 when it was taken;
    getting answers 200 or 404, deleting 204 or 404; creating a
    subscription answers 400 when the body does not decode, 409 when the
    name is taken, 404 when the name is free and the topic is missing,
    and 200 otherwise.  Every answer other than 200 to a create and 204
    to a delete leaves the storage as it was. *)
Theorem registry_handlers_status s :
  (∀ name,
     let r := handleCreateTopic name s in
     (topics s !! name = None
      ∧ r.1 = writeJSON StatusOK (BodyTopic {| Topic_Name := name |})
      ∧ r.2 = (CreateTopic name s).2)
     ∨ (is_Some (topics s !! name)
        ∧ r.1 = writeJSON StatusConflict (BodyError "topic already exists") ∧ r.2 = s))
  ∧ (∀ name,
     let r := handleGetTopic name s in
     r.2 = s
     ∧ ((∃ topic, topics s !! name = Some topic
                  ∧ r.1 = writeJSON StatusOK (BodyTopic topic))
        ∨ (topics s !! name = None
           ∧ r.1 = writeJSON StatusNotFound (BodyError "topic not found"))))
  ∧ (∀ name,
     let r := handleDeleteTopic name s in
     (is_Some (topics s !! name) ∧ statusOf r.1 = Some StatusNoContent
      ∧ r.2 = (DeleteTopic name s).2)
     ∨ (topics s !! name = None
        ∧ r.1 = writeJSON StatusNotFound (BodyError "topic not found") ∧ r.2 = s))
  ∧ (∀ body name,
     let r := handleCreateSubscription body name s in
     (body = None ∧ statusOf r.1 = Some StatusBadRequest ∧ r.2 = s)
     ∨ (∃ topicName, body = Some topicName
          ∧ ((is_Some (subscriptions s !! name)
              ∧ statusOf r.1 = Some StatusConflict ∧ r.2 = s)
             ∨ (subscriptions s !! name = None ∧ topics s !! topicName = None
                ∧ statusOf r.1 = Some StatusNotFound ∧ r.2 = s)
             ∨ (subscriptions s !! name = None ∧ is_Some (topics s !! topicName)
                ∧ r.1 = writeJSON StatusOK
                          (BodySubscription {| Subscription_Name := name;
                                               Subscription_Topic := topicName |})
                ∧ r.2 = (CreateSubscription name topicName s).2))))
  ∧ (∀ name,
     let r := handleGetSubscription name s in
     r.2 = s
     ∧ ((∃ sub, subscriptions s !! name = Some sub
                ∧ r.1 = writeJSON StatusOK (BodySubscription sub))
        ∨ (subscriptions s !! name = None
           ∧ r.1 = writeJSON StatusNotFound (BodyError "subscription not found"))))
  ∧ (∀ name,
     let r := handleDeleteSubscription name s in
     (is_Some (subscriptions s !! name) ∧ statusOf r.1 = Some StatusNoContent
      ∧ r.2 = (DeleteSubscription name s).2)
     ∨ (subscriptions s !! name = None
        ∧ r.1 = writeJSON StatusNotFound (BodyError "subscription not found")
        ∧ r.2 = s)).
Proof.
  split_and!.
  - intros name. unfold handleCreateTopic, CreateTopic.
    destruct (topics s !! name) as [topic|]; simpl; [right|left]; eauto.
  - intros name. unfold handleGetTopic, GetTopic.
    destruct (topics s !! name) as [topic|]; simpl; (split; [done|]); [left|right]; eauto.
  - intros name. unfold handleDeleteTopic, DeleteTopic.
    destruct (topics s !! name) as [topic|]; simpl; [left|right]; eauto.
  - intros [topicName|] name; [right|left; done]. exists topicName. split; [done|].
    unfold handleCreateSubscription, CreateSubscription.
    destruct (subscriptions s !! name) as [sub|]; simpl; [left; eauto|right].
    destruct (topics s !! topicName) as [topic|]; simpl; [right|left]; eauto 10.
  - intros name. unfold handleGetSubscription, GetSubscription.
    destruct (subscriptions s !! name) as [sub|]; simpl; (split; [done|]);
      [left|right]; eauto.
  - intros name. unfold handleDeleteSubscription, DeleteSubscription.
    destruct (subscriptions s !! name) as [sub|]; simpl; [left|right]; eauto.
Qed.

(** X15.  The handlers of the delivery engine.  A body that does not
    decode is answered 400 and changes nothing.  Publishing answers 200
    with one identifier per message when the topic is registered and 404
    otherwise.  Pulling answers 404 when the subscription is not
    registered; when it is, and the capacity the handler passes on,
    max(maxMessages, 1), is within the limit of the runtime, it answers
    200 with at most that many messages.  Acknowledging answers 404 for
    an unregistered subscription, 400 for a registered one without a
    queue record and 200 otherwise; in a reachable state it answers 200
    for every registered subscription.  In these cases no handler aborts
    or answers 500. *)
Theorem delivery_handlers_status uuid testing s :
  (∀ order k now body topicName,
     let r := handlePublish uuid order now body topicName s k in
     (body = None ∧ statusOf r.1.1 = Some StatusBadRequest ∧ r.1.2 = s ∧ r.2 = k)
     ∨ (∃ msgs, body = Some msgs
          ∧ ((topics s !! topicName = None
              ∧ statusOf r.1.1 = Some StatusNotFound ∧ r.1.2 = s ∧ r.2 = k)
             ∨ (is_Some (topics s !! topicName)
                ∧ ∃ messageIDs,
                    r.1.1 = writeJSON StatusOK (BodyPublishResponse messageIDs)
                    ∧ length messageIDs = length msgs
                    ∧ r = (r.1.1, (Publish uuid order now topicName msgs s k).1.2,
                           (Publish uuid order now topicName msgs s k).2)))))
  ∧ (∀ now body name,
     let r := handlePull testing now body name s in
     (body = None ∧ statusOf r.1 = Some StatusBadRequest ∧ r.2 = s)
     ∨ (∃ reqMaxMessages, body = Some reqMaxMessages
          ∧ ((subscriptions s !! name = None
              ∧ statusOf r.1 = Some StatusNotFound ∧ r.2 = s)
             ∨ (registered s name
                ∧ handlePull_MaxMessages reqMaxMessages = Z.max reqMaxMessages 1
                ∧ (capInRange (Z.max reqMaxMessages 1) →
                   ∃ received,
                     r.1 = writeJSON StatusOK (BodyPullResponse received)
                     ∧ (Z.of_nat (length received) <= Z.max reqMaxMessages 1)%Z)))))
  ∧ (∀ now body name,
     let r := handleAcknowledge now body name s in
     (body = None ∧ statusOf r.1 = Some StatusBadRequest ∧ r.2 = s)
     ∨ (∃ ackIDs, body = Some ackIDs
          ∧ ((subscriptions s !! name = None
              ∧ statusOf r.1 = Some StatusNotFound ∧ r.2 = s)
             ∨ (registered s name ∧ messages s !! name = None
                ∧ statusOf r.1 = Some StatusBadRequest ∧ r.2 = s)
             ∨ (registered s name ∧ is_Some (messages s !! name)
                ∧ statusOf r.1 = Some StatusOK
                ∧ r.2 = (Acknowledge now name ackIDs s).2))))
  ∧ (∀ k now ackIDs name,
       reachable uuid testing (s, k) → registered s name →
       statusOf (handleAcknowledge now (Some ackIDs) name s).1 = Some StatusOK).
Proof.
  split_and!.
  - intros order k now [msgs|] topicName; [right|left; done].
    exists msgs. split; [done|]. unfold handlePublish.
    destruct (topics s !! topicName) as [topic|] eqn:Htopic; [right|left].
    + split; [eauto|]. unfold Publish. rewrite Htopic. rewrite genMessageIDs_eq.
      destruct (fanOut _ _ _ _ _ _ _) as [msgs' k2]. simpl.
      eexists. split; [done|]. split; [|done]. by rewrite length_map, length_seq.
    + rewrite Publish_unregistered by done. simpl. done.
  - intros now [req|] name; [right|left; done].
    exists req. split; [done|]. unfold handlePull.
    destruct (subscriptions s !! name) as [sub|] eqn:Hsub; [right|left].
    + assert (registered s name) as Hreg by (by exists sub). split; [done|].
      assert (handlePull_MaxMessages req = Z.max req 1) as Hmax.
      { unfold handlePull_MaxMessages. destruct (Z.leb_spec req 0); lia. }
      split; [done|]. rewrite Hmax. intros [Hpos _].
      destruct (Pull_result testing now name (Z.max req 1) s Hreg Hpos)
        as (s' & -> & _).
      simpl. eexists. split; [done|]. rewrite length_map, length_take. lia.
    + rewrite Pull_unregistered by done. simpl. done.
  - intros now [ackIDs|] name; [right|left; done].
    exists ackIDs. split; [done|]. unfold handleAcknowledge.
    destruct (subscriptions s !! name) as [sub|] eqn:Hsub; [right|left].
    + assert (registered s name) as Hreg by (by exists sub).
      destruct (messages s !! name) as [msgs|] eqn:Hq; [right|left].
      * rewrite (Acknowledge_queue _ _ _ _ msgs) by done. simpl. eauto.
      * rewrite Acknowledge_no_queue by done. simpl. done.
    + rewrite Acknowledge_unregistered by done. simpl. done.
  - intros k now ackIDs name Hreach Hreg.
    pose proof (reachable_StorageInv _ _ _ Hreach) as Hinv. simpl in Hinv.
    destruct (proj1 (inv_queue _ Hinv name) Hreg) as [msgs Hq].
    unfold handleAcknowledge. by rewrite (Acknowledge_queue _ _ _ _ msgs).
Qed.

(** ** Listing by project *)

Lemma append_cons c (pre rest : string) :
  String c pre +:+ rest = String c (pre +:+ rest).
Proof. done. Qed.

Lemma append_assoc (a b c : string) : (a +:+ b) +:+ c = a +:+ (b +:+ c).
Proof. induction a as [|x a IH]; [done|]. by rewrite !append_cons, IH. Qed.

Lemma prefix_cons c d (p q : string) :
  String.prefix (String c p) (String d q)
  = if ascii_dec c d then String.prefix p q else false.
Proof. done. Qed.

Lemma HasPrefix_append pre rest : HasPrefix (pre +:+ rest) pre = true.
Proof.
  unfold HasPrefix. induction pre as [|c pre IH]; [by destruct rest|].
  rewrite append_cons, prefix_cons. by destruct (ascii_dec c c).
Qed.

Lemma HasPrefix_append_inv pre x y :
  HasPrefix (pre +:+ x) (pre +:+ y) = HasPrefix x y.
Proof.
  unfold HasPrefix. induction pre as [|c pre IH]; [done|].
  rewrite !append_cons, prefix_cons. by destruct (ascii_dec c c).
Qed.

Lemma HasPrefix_segment p q x y :
  noSlash p = true → noSlash q = true →
  HasPrefix (q +:+ String "/" y) (p +:+ String "/" x) = true → p = q.
Proof.
  unfold HasPrefix. revert q.
  induction p as [|c p IH]; intros [|d q]; rewrite ?append_cons;
    change (("" +:+ ?s)%string) with s; rewrite ?prefix_cons; cbn [noSlash].
  - done.
  - intros _ Hq. destruct (ascii_dec "/" d) as [<-|]; [|done].
    by rewrite Ascii.eqb_refl in Hq.
  - intros Hp _. destruct (ascii_dec c "/") as [->|]; [|done].
    by rewrite Ascii.eqb_refl in Hp.
  - intros Hp Hq. apply andb_true_iff in Hp as [_ Hp], Hq as [_ Hq].
    destruct (ascii_dec c d) as [->|]; [|done]. intros H. f_equal. by apply IH.
Qed.

Lemma NoDup_List_filter {A} (f : A → bool) (l : list A) :
  NoDup l → NoDup (List.filter f l).
Proof.
  induction 1 as [|a l Ha Hl IH]; simpl; [constructor|].
  destruct (f a); [|done]. constructor; [|done].
  rewrite list_elem_of_In, List.filter_In, <- list_elem_of_In. tauto.
Qed.

(** The entries a listing handler keeps: those of the registry whose
    name has the prefix, each once. *)
Lemma listing_filter {A} (nameOf : A → string) (m : gmap string A)
    (order : list (string * A)) (pre : string) :
  order ≡ₚ map_to_list m → (∀ key a, m !! key = Some a → nameOf a = key) →
  let listed := List.filter (λ a, HasPrefix (nameOf a) pre) order.*2 in
  NoDup listed
  ∧ ∀ a, a ∈ listed ↔ m !! nameOf a = Some a ∧ HasPrefix (nameOf a) pre = true.
Proof.
  intros Hord Hnamed listed.
  assert (∀ a, a ∈ order.*2 ↔ m !! nameOf a = Some a) as Hin.
  { intros a. rewrite list_elem_of_fmap. split.
    - intros ([key a'] & -> & Hka). rewrite Hord in Hka.
      apply elem_of_map_to_list in Hka. simpl. by rewrite (Hnamed _ _ Hka).
    - intros Ha. exists (nameOf a, a). split; [done|]. rewrite Hord.
      by apply elem_of_map_to_list. }
  split.
  - apply NoDup_List_filter. apply (NoDup_fmap_1 nameOf).
    assert (nameOf <$> order.*2 = order.*1) as ->.
    { rewrite <- list_fmap_compose. apply list_fmap_ext. intros i [key a] Hi. simpl.
      apply Hnamed. apply elem_of_map_to_list. rewrite <- Hord.
      by eapply list_elem_of_lookup_2. }
    rewrite Hord. apply NoDup_fst_map_to_list.
  - intros a. unfold listed. rewrite list_elem_of_In, List.filter_In, <- list_elem_of_In.
    by rewrite Hin.
Qed.

(** X16.  In a reachable state, listing the topics of a project answers
    200 with the registered topics whose name starts with
    "projects/<project>/topics/", each exactly once: every topic of the
    project is listed, and no topic of another project is, since a
    project identifier holds no slash.  Listing changes nothing. *)
Theorem handleListTopics_lists_project uuid testing w order projectID :
  reachable uuid testing w → order ≡ₚ map_to_list (topics w.1) →
  ∃ listed,
    handleListTopics order projectID w.1
    = (writeJSON StatusOK (BodyListTopicsResponse listed), w.1)
    ∧ NoDup listed
    ∧ (∀ topic, topic ∈ listed ↔
         topics w.1 !! Topic_Name topic = Some topic
         ∧ HasPrefix (Topic_Name topic) (topicsPrefix projectID) = true)
    ∧ (∀ topicID,
         is_Some (topics w.1 !! (topicsPrefix projectID +:+ topicID)) →
         {| Topic_Name := topicsPrefix projectID +:+ topicID |} ∈ listed)
    ∧ (noSlash projectID = true →
       ∀ other topicID topic,
         noSlash other = true → other ≠ projectID →
         Topic_Name topic = topicsPrefix other +:+ topicID → topic ∉ listed).
Proof.
  intros Hreach Hord. pose proof (reachable_topicsNamed _ _ _ Hreach) as Hnamed.
  destruct (listing_filter Topic_Name (topics w.1) order (topicsPrefix projectID)
              Hord Hnamed) as [Hnd Hin].
  eexists. split; [done|]. split_and!; [done|done| |].
  - intros topicID [topic Htopic]. apply Hin.
    pose proof (Hnamed _ _ Htopic) as Hname. destruct topic as [n]. simpl in *. subst n.
    split; [done|]. apply HasPrefix_append.
  - intros Hseg other topicID topic Hother Hne Hname Hlisted.
    apply Hin in Hlisted as [_ Hpre]. rewrite Hname in Hpre.
    unfold topicsPrefix in Hpre.
    rewrite (append_assoc "projects/"), HasPrefix_append_inv in Hpre.
    rewrite (append_assoc other) in Hpre.
    apply Hne. symmetry. by eapply HasPrefix_segment.
Qed.

Lemma handleListTopics_lists_project_witness :
  reachable scenario_uuid true scenario_created
  ∧ ∃ listed,
      handleListTopics (map_to_list (topics scenario_created.1)) "test" scenario_created.1
      = (writeJSON StatusOK (BodyListTopicsResponse listed), scenario_created.1)
      ∧ {| Topic_Name := scenario_topic |} ∈ listed.
Proof.
  split; [apply scenario_created_reachable|].
  destruct (handleListTopics_lists_project scenario_uuid true scenario_created
              (map_to_list (topics scenario_created.1)) "test"
              scenario_created_reachable ltac:(reflexivity))
    as (listed & Heq & _ & _ & Hall & _).
  exists listed. split; [done|]. apply (Hall "topic1"). by eexists.
Defined.

(** X17.  In a reachable state, listing the subscriptions of a project
    answers 200 with the registered subscriptions whose own name starts
    with "projects/<project>/subscriptions/", each exactly once and
    whatever topic they are attached to; no subscription named in another
    project is listed.  Listing changes nothing. *)
Theorem handleListSubscriptions_lists_project uuid testing w order projectID :
  reachable uuid testing w → rangeOrder order w.1 →
  ∃ listed,
    handleListSubscriptions order projectID w.1
    = (writeJSON StatusOK (BodyListSubscriptionsResponse listed), w.1)
    ∧ NoDup listed
    ∧ (∀ sub, sub ∈ listed ↔
         subscriptions w.1 !! Subscription_Name sub = Some sub
         ∧ HasPrefix (Subscription_Name sub) (subscriptionsPrefix projectID) = true)
    ∧ (∀ subID sub,
         subscriptions w.1 !! (subscriptionsPrefix projectID +:+ subID) = Some sub →
         sub ∈ listed)
    ∧ (noSlash projectID = true →
       ∀ other subID sub,
         noSlash other = true → other ≠ projectID →
         Subscription_Name sub = subscriptionsPrefix other +:+ subID → sub ∉ listed).
Proof.
  intros Hreach Hord.
  pose proof (inv_name _ (reachable_StorageInv _ _ _ Hreach)) as Hnamed.
  destruct (listing_filter Subscription_Name (subscriptions w.1) order
              (subscriptionsPrefix projectID) Hord Hnamed) as [Hnd Hin].
  eexists. split; [done|]. split_and!; [done|done| |].
  - intros subID sub Hsub. apply Hin. rewrite (Hnamed _ _ Hsub).
    split; [done|]. apply HasPrefix_append.
  - intros Hseg other subID sub Hother Hne Hname Hlisted.
    apply Hin in Hlisted as [_ Hpre]. rewrite Hname in Hpre.
    unfold subscriptionsPrefix in Hpre.
    rewrite (append_assoc "projects/"), HasPrefix_append_inv in Hpre.
    rewrite (append_assoc other) in Hpre.
    apply Hne. symmetry. by eapply HasPrefix_segment.
Qed.

Lemma handleListSubscriptions_lists_project_witness :
  reachable scenario_uuid true scenario_created
  ∧ ∃ listed,
      handleListSubscriptions (map_to_list (subscriptions scenario_created.1)) "test"
        scenario_created.1
      = (writeJSON StatusOK (BodyListSubscriptionsResponse listed), scenario_created.1)
      ∧ mkSubscription scenario_sub scenario_topic ∈ listed.
Proof.
  split; [apply scenario_created_reachable|].
  destruct (handleListSubscriptions_lists_project scenario_uuid true scenario_created
              (map_to_list (subscriptions scenario_created.1)) "test"
              scenario_created_reachable ltac:(unfold rangeOrder; reflexivity))
    as (listed & Heq & _ & _ & Hall & _).
  exists listed. split; [done|]. by apply (Hall "sub1").
Defined.

(** ** The router *)

Lemma append_nil_r (s : string) : s +:+ "" = s.
Proof. induction s as [|c s IH]; [done|]. by rewrite append_cons, IH. Qed.

Lemma append_inj_l (a x y : string) : a +:+ x = a +:+ y → x = y.
Proof.
  induction a as [|c a IH]; [done|]. rewrite !append_cons. intros [= H]. by apply IH.
Qed.

Lemma length_append (a b : string) :
  String.length (a +:+ b) = (String.length a + String.length b)%nat.
Proof. induction a as [|c a IH]; [done|]. rewrite append_cons. simpl. by rewrite IH. Qed.

Lemma append_inj_r (a x y : string) : x +:+ a = y +:+ a → x = y.
Proof.
  revert y. induction x as [|c x IH]; intros [|d y] H.
  - done.
  - apply (f_equal String.length) in H. rewrite !length_append in H. simpl in H. lia.
  - apply (f_equal String.length) in H. rewrite !length_append in H. simpl in H. lia.
  - rewrite !append_cons in H. injection H as -> H. f_equal. by apply IH.
Qed.

(** Two slash-free texts, each followed by a slash: the texts and what
    follows them are equal. *)
Lemma segment_split (p q x y : string) :
  noSlash p = true → noSlash q = true →
  p +:+ String "/" x = q +:+ String "/" y → p = q ∧ x = y.
Proof.
  revert q. induction p as [|c p IH]; intros [|d q]; rewrite ?append_cons;
    change (("" +:+ ?s)%string) with s; cbn [noSlash].
  - by intros _ _ [= ->].
  - intros _ Hq [= <- _]. by rewrite Ascii.eqb_refl in Hq.
  - intros Hp _ [= -> _]. by rewrite Ascii.eqb_refl in Hp.
  - intros Hp Hq [= -> H]. apply andb_true_iff in Hp as [_ Hp], Hq as [_ Hq].
    destruct (IH q Hp Hq H) as [-> ->]. done.
Qed.

Lemma afterLiteral_Some text s rest :
  afterLiteral text s = Some rest ↔ s = text +:+ rest.
Proof.
  revert s. induction text as [|c text IH]; intros s; simpl.
  - change ("" +:+ rest) with rest. split; [by intros [= ->]|by intros ->].
  - rewrite append_cons. destruct s as [|d s]; [done|].
    destruct (Ascii.eqb_spec c d) as [->|Hne].
    + rewrite IH. split; [by intros ->|by intros [= ->]].
    + split; [done|]. by intros [= -> _].
Qed.

Lemma matchGroup_sound k s group groups :
  matchGroup k s = Some (group, groups) →
  ∃ rest, s = group +:+ rest ∧ segment group ∧ k rest = Some groups.
Proof.
  revert group. induction s as [|c s IH]; intros group; simpl; [done|].
  destruct (Ascii.eqb_spec c "/") as [->|Hc]; [done|].
  assert (negb (Ascii.eqb c "/") = true) as Hc'.
  { by destruct (Ascii.eqb_spec c "/"). }
  destruct (matchGroup k s) as [[g gs]|].
  - intros [= <- <-]. destruct (IH g eq_refl) as (rest & -> & [_ Hg] & Hk).
    exists rest. split; [done|]. split; [|done]. split; [done|].
    simpl. by rewrite Hc', Hg.
  - destruct (k s) as [gs|] eqn:Hk; [|done]. intros [= <- <-].
    exists s. split; [done|]. split; [|done]. split; [done|].
    simpl. by rewrite Hc'.
Qed.

Lemma matchGroup_complete k group rest groups :
  segment group → k rest = Some groups → is_Some (matchGroup k (group +:+ rest)).
Proof.
  intros [Hne Hg] Hk. induction group as [|c group IH]; [done|].
  rewrite append_cons. simpl in *. apply andb_true_iff in Hg as [Hc Hg].
  destruct (Ascii.eqb c "/"); [done|].
  destruct group as [|d group].
  - change ("" +:+ rest) with rest. destruct (matchGroup k rest) as [[g gs]|]; [done|].
    by rewrite Hk.
  - destruct IH as [[g gs] ->]; done.
Qed.

Lemma matchPieces_sound re s groups :
  matchPieces re s = Some groups → Matches re s groups.
Proof.
  revert s groups. induction re as [|[text|] re IH]; intros s groups; simpl.
  - case_decide; [|done]. by intros [= <-].
  - destruct (afterLiteral text s) as [rest|] eqn:Hrest; [|done]. simpl. intros H.
    exists rest. split; [by apply afterLiteral_Some|by apply IH].
  - destruct (matchGroup (matchPieces re) s) as [[g gs]|] eqn:Hg; [|done].
    intros [= <-]. apply matchGroup_sound in Hg as (rest & -> & Hseg & Hk).
    exists g, gs, rest. split_and!; [done|done|done|by apply IH].
Qed.

Lemma matchPieces_complete re s groups :
  Matches re s groups → is_Some (matchPieces re s).
Proof.
  revert s groups. induction re as [|[text|] re IH]; intros s groups; simpl.
  - intros [-> _]. done.
  - intros (rest & -> & H). rewrite (proj2 (afterLiteral_Some text _ rest) eq_refl).
    simpl. by eapply IH.
  - intros (g & gs & rest & -> & -> & Hseg & H).
    destruct (IH _ _ H) as [gs' Hk].
    destruct (matchGroup_complete _ g rest gs' Hseg Hk) as [m ->]. done.
Qed.

(** [FindStringSubmatch] on a pattern that gives a text at most one
    list of groups. *)
Lemma FindStringSubmatch_Matches re s matches :
  (∀ groups groups', Matches re s groups → Matches re s groups' → groups = groups') →
  FindStringSubmatch re s = Some matches ↔ ∃ groups, Matches re s groups ∧ matches = s :: groups.
Proof.
  intros Huniq. unfold FindStringSubmatch. split.
  - destruct (matchPieces re s) as [groups|] eqn:H; [|done]. intros [= <-].
    exists groups. split; [by apply matchPieces_sound|done].
  - intros (groups & H & ->). destruct (matchPieces_complete _ _ _ H) as [groups' H'].
    rewrite H'. simpl. do 2 f_equal. apply Huniq; [|done]. by apply matchPieces_sound.
Qed.

(** The patterns with one group. *)
Lemma FindStringSubmatch_one l0 l1 s matches :
  FindStringSubmatch [Lit l0; Seg; Lit l1] s = Some matches
  ↔ ∃ p, segment p ∧ s = l0 +:+ p +:+ l1 ∧ matches = [s; p].
Proof.
  assert (∀ groups, Matches [Lit l0; Seg; Lit l1] s groups
                    ↔ ∃ p, segment p ∧ s = l0 +:+ p +:+ l1 ∧ groups = [p]) as Hshape.
  { intros groups. simpl. split.
    - intros (r0 & -> & p & gs & r1 & -> & -> & Hp & r2 & -> & -> & ->).
      exists p. by rewrite append_nil_r.
    - intros (p & Hp & -> & ->). eexists. split; [done|]. eexists p, [], _.
      split_and!; [done|done|done|]. exists "". by rewrite append_nil_r. }
  rewrite FindStringSubmatch_Matches.
  - split.
    + intros (groups & H & ->). apply Hshape in H as (p & Hp & Hs & ->). eauto.
    + intros (p & Hp & Hs & ->). exists [p]. split; [|done]. apply Hshape. eauto.
  - intros groups groups' H H'.
    apply Hshape in H as (p & Hp & Hs & ->), H' as (p' & Hp' & Hs' & ->).
    rewrite Hs in Hs'. apply append_inj_l, append_inj_r in Hs'. by rewrite Hs'.
Qed.

(** The patterns with two groups, the second of them before a literal
    (possibly empty) that ends the text. *)
Lemma FindStringSubmatch_two l0 l1 l2 s matches :
  FindStringSubmatch [Lit l0; Seg; Lit (String "/" l1); Seg; Lit l2] s = Some matches
  ↔ ∃ p t, segment p ∧ segment t
           ∧ s = l0 +:+ p +:+ String "/" l1 +:+ t +:+ l2 ∧ matches = [s; p; t].
Proof.
  assert (∀ groups, Matches [Lit l0; Seg; Lit (String "/" l1); Seg; Lit l2] s groups
                    ↔ ∃ p t, segment p ∧ segment t
                             ∧ s = l0 +:+ p +:+ String "/" l1 +:+ t +:+ l2
                             ∧ groups = [p; t]) as Hshape.
  { intros groups. simpl. split.
    - intros (r0 & -> & p & gs & r1 & -> & -> & Hp & r2 & -> & t & gs' & r3 & -> & ->
              & Ht & r4 & -> & -> & ->).
      exists p, t. by rewrite append_nil_r.
    - intros (p & t & Hp & Ht & -> & ->). eexists. split; [done|]. eexists p, _, _.
      split_and!; [done|done|done|]. eexists. split; [done|]. eexists t, [], _.
      split_and!; [done|done|done|]. exists "". by rewrite append_nil_r. }
  rewrite FindStringSubmatch_Matches.
  - split.
    + intros (groups & H & ->). apply Hshape in H as (p & t & Hp & Ht & Hs & ->).
      eauto 10.
    + intros (p & t & Hp & Ht & Hs & ->). exists [p; t]. split; [|done].
      apply Hshape. eauto 10.
  - intros groups groups' H H'.
    apply Hshape in H as (p & t & Hp & Ht & Hs & ->),
                    H' as (p' & t' & Hp' & Ht' & Hs' & ->).
    rewrite Hs in Hs'. apply append_inj_l in Hs'.
    apply segment_split in Hs' as [-> Hs']; [|apply Hp|apply Hp'].
    apply append_inj_l, append_inj_r in Hs'. by rewrite Hs'.
Qed.

Lemma FindStringSubmatch_two_end l0 l1 s matches :
  FindStringSubmatch [Lit l0; Seg; Lit (String "/" l1); Seg] s = Some matches
  ↔ ∃ p t, segment p ∧ segment t
           ∧ s = l0 +:+ p +:+ String "/" l1 +:+ t ∧ matches = [s; p; t].
Proof.
  assert (∀ groups, Matches [Lit l0; Seg; Lit (String "/" l1); Seg] s groups
                    ↔ ∃ p t, segment p ∧ segment t
                             ∧ s = l0 +:+ p +:+ String "/" l1 +:+ t
                             ∧ groups = [p; t]) as Hshape.
  { intros groups. simpl. split.
    - intros (r0 & -> & p & gs & r1 & -> & -> & Hp & r2 & -> & t & gs' & r3 & -> & ->
              & Ht & -> & ->).
      exists p, t. by rewrite append_nil_r.
    - intros (p & t & Hp & Ht & -> & ->). eexists. split; [done|]. eexists p, _, _.
      split_and!; [done|done|done|]. eexists. split; [done|]. eexists t, [], "".
      by rewrite append_nil_r. }
  rewrite FindStringSubmatch_Matches.
  - split.
    + intros (groups & H & ->). apply Hshape in H as (p & t & Hp & Ht & Hs & ->).
      eauto 10.
    + intros (p & t & Hp & Ht & Hs & ->). exists [p; t]. split; [|done].
      apply Hshape. eauto 10.
  - intros groups groups' H H'.
    apply Hshape in H as (p & t & Hp & Ht & Hs & ->),
                    H' as (p' & t' & Hp' & Ht' & Hs' & ->).
    rewrite Hs in Hs'. apply append_inj_l in Hs'.
    apply segment_split in Hs' as [-> Hs']; [|apply Hp|apply Hp'].
    apply append_inj_l in Hs'. by rewrite Hs'.
Qed.

(** *** What a handler does to the storage *)

Lemma handleCreateTopic_state name s :
  (handleCreateTopic name s).2 = (CreateTopic name s).2.
Proof. unfold handleCreateTopic, CreateTopic. by destruct (topics s !! name). Qed.

Lemma handleGetTopic_state name s : (handleGetTopic name s).2 = s.
Proof. unfold handleGetTopic, GetTopic. by destruct (topics s !! name). Qed.

Lemma handleDeleteTopic_state name s :
  (handleDeleteTopic name s).2 = (DeleteTopic name s).2.
Proof. unfold handleDeleteTopic, DeleteTopic. by destruct (topics s !! name). Qed.

Lemma handleCreateSubscription_state body name s :
  (handleCreateSubscription body name s).2
  = match body with
    | Some topicName => (CreateSubscription name topicName s).2
    | None => s
    end.
Proof.
  unfold handleCreateSubscription, CreateSubscription. destruct body as [topicName|]; [|done].
  destruct (subscriptions s !! name); [done|]. by destruct (topics s !! topicName).
Qed.

Lemma handleGetSubscription_state name s : (handleGetSubscription name s).2 = s.
Proof. unfold handleGetSubscription, GetSubscription. by destruct (subscriptions s !! name). Qed.

Lemma handleDeleteSubscription_state name s :
  (handleDeleteSubscription name s).2 = (DeleteSubscription name s).2.
Proof.
  unfold handleDeleteSubscription, DeleteSubscription. by destruct (subscriptions s !! name).
Qed.

Lemma handlePublish_state uuid testing order now body topicName w :
  let answer := handlePublish uuid order now body topicName w.1 w.2 in
  (answer.1.2, answer.2)
  = match body with
    | Some msgs => exec uuid testing (OpPublish order now topicName msgs) w
    | None => w
    end.
Proof.
  destruct w as [s k]. unfold handlePublish. destruct body as [msgs|]; [|done]. simpl.
  destruct (Publish uuid order now topicName msgs s k) as [[[ids|err|] s'] k']; simpl;
    [done| |done].
  by repeat case_decide.
Qed.

Lemma handlePull_state testing now body name s :
  (handlePull testing now body name s).2
  = match body with
    | Some reqMaxMessages =>
        (Pull testing now name (handlePull_MaxMessages reqMaxMessages) s).2
    | None => s
    end.
Proof.
  unfold handlePull. destruct body as [req|]; [|done]. simpl.
  destruct (Pull testing now name (handlePull_MaxMessages req) s) as [[received|err|] s'];
    simpl; [done| |done].
  by repeat case_decide.
Qed.

Lemma handleAcknowledge_state now body name s :
  (handleAcknowledge now body name s).2
  = match body with
    | Some ackIDs => (Acknowledge now name ackIDs s).2
    | None => s
    end.
Proof.
  unfold handleAcknowledge. destruct body as [ackIDs|]; [|done].
  destruct (Acknowledge now name ackIDs s) as [[[]|err|] s']; simpl; [done| |done].
  case_decide; [done|]. by destruct (Contains _ _).
Qed.

(** *** What a handler answers *)

(** The statuses of the server. *)
Lemma handleCreateTopic_answer name s :
  ∃ response,
    (handleCreateTopic name s).1 = Responded response
    ∧ Response_Status response ∈ [StatusOK; StatusConflict]
    ∧ (Response_Status response ≠ StatusOK → (handleCreateTopic name s).2 = s).
Proof.
  unfold handleCreateTopic, CreateTopic.
  destruct (topics s !! name); simpl; eexists; (split; [done|]); simpl;
    (split; [repeat constructor|done]).
Qed.

Lemma handleGetTopic_answer name s :
  ∃ response,
    (handleGetTopic name s).1 = Responded response
    ∧ Response_Status response ∈ [StatusOK; StatusNotFound].
Proof.
  unfold handleGetTopic, GetTopic.
  destruct (topics s !! name); simpl; eexists; (split; [done|]); simpl; repeat constructor.
Qed.

Lemma handleDeleteTopic_answer name s :
  ∃ response,
    (handleDeleteTopic name s).1 = Responded response
    ∧ Response_Status response ∈ [StatusNoContent; StatusNotFound]
    ∧ (Response_Status response ≠ StatusNoContent → (handleDeleteTopic name s).2 = s).
Proof.
  unfold handleDeleteTopic, DeleteTopic.
  destruct (topics s !! name); simpl; eexists; (split; [done|]); simpl;
    (split; [repeat constructor|done]).
Qed.

Lemma handleCreateSubscription_answer body name s :
  ∃ response,
    (handleCreateSubscription body name s).1 = Responded response
    ∧ Response_Status response
      ∈ [StatusOK; StatusBadRequest; StatusNotFound; StatusConflict]
    ∧ (Response_Status response ≠ StatusOK →
       (handleCreateSubscription body name s).2 = s).
Proof.
  unfold handleCreateSubscription, CreateSubscription. destruct body as [topicName|].
  - destruct (subscriptions s !! name); simpl.
    { eexists; (split; [done|]); simpl; (split; [repeat constructor|done]). }
    destruct (topics s !! topicName); simpl;
      eexists; (split; [done|]); simpl; (split; [repeat constructor|done]).
  - eexists; (split; [done|]); simpl; (split; [repeat constructor|done]).
Qed.

Lemma handleGetSubscription_answer name s :
  ∃ response,
    (handleGetSubscription name s).1 = Responded response
    ∧ Response_Status response ∈ [StatusOK; StatusNotFound].
Proof.
  unfold handleGetSubscription, GetSubscription.
  destruct (subscriptions s !! name); simpl; eexists; (split; [done|]); simpl; repeat constructor.
Qed.

Lemma handleDeleteSubscription_answer name s :
  ∃ response,
    (handleDeleteSubscription name s).1 = Responded response
    ∧ Response_Status response ∈ [StatusNoContent; StatusNotFound]
    ∧ (Response_Status response ≠ StatusNoContent →
       (handleDeleteSubscription name s).2 = s).
Proof.
  unfold handleDeleteSubscription, DeleteSubscription.
  destruct (subscriptions s !! name); simpl; eexists; (split; [done|]); simpl;
    (split; [repeat constructor|done]).
Qed.

Lemma handlePublish_answer uuid order now body topicName s k :
  let answer := handlePublish uuid order now body topicName s k in
  ∃ response,
    answer.1.1 = Responded response
    ∧ Response_Status response ∈ [StatusOK; StatusBadRequest; StatusNotFound]
    ∧ (Response_Status response ≠ StatusOK → answer.1.2 = s ∧ answer.2 = k).
Proof.
  unfold handlePublish. destruct body as [msgs|].
  - destruct (topics s !! topicName) as [topic|] eqn:Htopic.
    + unfold Publish. rewrite Htopic. destruct (genMessageIDs _ _ _) as [ids k1].
      destruct (fanOut _ _ _ _ _ _ _) as [msgs' k2]. simpl.
      eexists; (split; [done|]); simpl; (split; [repeat constructor|done]).
    + rewrite Publish_unregistered by done. simpl.
      eexists; (split; [done|]); simpl; (split; [repeat constructor|done]).
  - eexists; (split; [done|]); simpl; (split; [repeat constructor|done]).
Qed.

Lemma handlePull_answer testing now body name s :
  ∃ response,
    (handlePull testing now body name s).1 = Responded response
    ∧ Response_Status response ∈ [StatusOK; StatusBadRequest; StatusNotFound]
    ∧ (Response_Status response ≠ StatusOK → (handlePull testing now body name s).2 = s).
Proof.
  unfold handlePull. destruct body as [req|].
  - destruct (subscriptions s !! name) as [sub|] eqn:Hsub.
    + assert (registered s name) as Hreg by (by exists sub).
      pose proof (handlePull_MaxMessages_pos req) as Hpos.
      destruct (Pull_result testing now name (handlePull_MaxMessages req) s Hreg
                  ltac:(lia)) as (s' & -> & _).
      simpl. eexists; (split; [done|]); simpl; (split; [repeat constructor|done]).
    + rewrite Pull_unregistered by done. simpl.
      eexists; (split; [done|]); simpl; (split; [repeat constructor|done]).
  - eexists; (split; [done|]); simpl; (split; [repeat constructor|done]).
Qed.

Lemma handleAcknowledge_answer now body name s :
  ∃ response,
    (handleAcknowledge now body name s).1 = Responded response
    ∧ Response_Status response ∈ [StatusOK; StatusBadRequest; StatusNotFound]
    ∧ (Response_Status response ≠ StatusOK → (handleAcknowledge now body name s).2 = s).
Proof.
  unfold handleAcknowledge. destruct body as [ackIDs|].
  - destruct (subscriptions s !! name) as [sub|] eqn:Hsub.
    + assert (registered s name) as Hreg by (by exists sub).
      destruct (messages s !! name) as [msgs|] eqn:Hq.
      * rewrite (Acknowledge_queue _ _ _ _ msgs) by done. simpl.
        eexists; (split; [done|]); simpl; (split; [repeat constructor|done]).
      * rewrite Acknowledge_no_queue by done. simpl.
        eexists; (split; [done|]); simpl; (split; [repeat constructor|done]).
    + rewrite Acknowledge_unregistered by done. simpl.
      eexists; (split; [done|]); simpl; (split; [repeat constructor|done]).
  - eexists; (split; [done|]); simpl; (split; [repeat constructor|done]).
Qed.

(** *** The cases of the router *)

(** Whatever the request, the router answers as one of its seven
    branches does, on a path of the shape of that branch, or with
    [http.NotFound]. *)
Lemma ServeHTTP_cases uuid testing env r w :
  let path := Request_Path r in
  let method := Request_Method r in
  let inWorld (answer : Outcome * Storage) := (answer.1, (answer.2, w.2)) in
  let notAllowed := (httpError "Method not allowed" StatusMethodNotAllowed, w) in
  (∃ p t, segment p ∧ segment t
     ∧ path = "/v1/projects/" +:+ p +:+ "/topics/" +:+ t +:+ ":publish"
     ∧ ServeHTTP uuid testing env r w =
       if decide (method = MethodPost)
       then
         let answer :=
           handlePublish uuid (Env_subscriptions env) (Env_publishTime env)
             (Request_Messages r) ("projects/" +:+ p +:+ "/topics/" +:+ t) w.1 w.2 in
         (answer.1.1, (answer.1.2, answer.2))
       else notAllowed)
  ∨ (∃ p t, segment p ∧ segment t
       ∧ path = "/v1/projects/" +:+ p +:+ "/subscriptions/" +:+ t +:+ ":pull"
       ∧ ServeHTTP uuid testing env r w =
         if decide (method = MethodPost)
         then inWorld (handlePull testing (Env_now env) (Request_MaxMessages r)
                         ("projects/" +:+ p +:+ "/subscriptions/" +:+ t) w.1)
         else notAllowed)
  ∨ (∃ p t, segment p ∧ segment t
       ∧ path = "/v1/projects/" +:+ p +:+ "/subscriptions/" +:+ t +:+ ":acknowledge"
       ∧ ServeHTTP uuid testing env r w =
         if decide (method = MethodPost)
         then inWorld (handleAcknowledge (Env_now env) (Request_AckIDs r)
                         ("projects/" +:+ p +:+ "/subscriptions/" +:+ t) w.1)
         else notAllowed)
  ∨ (∃ p, segment p ∧ path = "/v1/projects/" +:+ p +:+ "/topics"
       ∧ ServeHTTP uuid testing env r w =
         if decide (method = MethodGet)
         then inWorld (handleListTopics (Env_topics env) p w.1)
         else notAllowed)
  ∨ (∃ p, segment p ∧ path = "/v1/projects/" +:+ p +:+ "/subscriptions"
       ∧ ServeHTTP uuid testing env r w =
         if decide (method = MethodGet)
         then inWorld (handleListSubscriptions (Env_subscriptions env) p w.1)
         else notAllowed)
  ∨ (∃ p t, segment p ∧ segment t
       ∧ path = "/v1/projects/" +:+ p +:+ "/topics/" +:+ t
       ∧ ServeHTTP uuid testing env r w =
         let topicName := "projects/" +:+ p +:+ "/topics/" +:+ t in
         if decide (method = MethodPut)
         then inWorld (handleCreateTopic topicName w.1)
         else if decide (method = MethodGet)
         then inWorld (handleGetTopic topicName w.1)
         else if decide (method = MethodDelete)
         then inWorld (handleDeleteTopic topicName w.1)
         else notAllowed)
  ∨ (∃ p t, segment p ∧ segment t
       ∧ path = "/v1/projects/" +:+ p +:+ "/subscriptions/" +:+ t
       ∧ ServeHTTP uuid testing env r w =
         let subscriptionName := "projects/" +:+ p +:+ "/subscriptions/" +:+ t in
         if decide (method = MethodPut)
         then inWorld (handleCreateSubscription (Request_Topic r) subscriptionName w.1)
         else if decide (method = MethodGet)
         then inWorld (handleGetSubscription subscriptionName w.1)
         else if decide (method = MethodDelete)
         then inWorld (handleDeleteSubscription subscriptionName w.1)
         else notAllowed)
  ∨ ServeHTTP uuid testing env r w = (NotFound, w).
Proof.
  intros path method inWorld notAllowed. unfold ServeHTTP. fold path method.
  unfold topicPublishRegex, subscriptionPullRegex, subscriptionAckRegex, listTopicsRegex,
    listSubscriptionsRegex, topicPathRegex, subscriptionPathRegex.
  destruct (FindStringSubmatch _ path) as [matches|] eqn:H1.
  { apply FindStringSubmatch_two in H1 as (p & t & Hp & Ht & Hpath & ->).
    left. by exists p, t. }
  clear H1. right.
  destruct (FindStringSubmatch _ path) as [matches|] eqn:H1.
  { apply FindStringSubmatch_two in H1 as (p & t & Hp & Ht & Hpath & ->).
    left. by exists p, t. }
  clear H1. right.
  destruct (FindStringSubmatch _ path) as [matches|] eqn:H1.
  { apply FindStringSubmatch_two in H1 as (p & t & Hp & Ht & Hpath & ->).
    left. by exists p, t. }
  clear H1. right.
  destruct (FindStringSubmatch _ path) as [matches|] eqn:H1.
  { apply FindStringSubmatch_one in H1 as (p & Hp & Hpath & ->).
    left. by exists p. }
  clear H1. right.
  destruct (FindStringSubmatch _ path) as [matches|] eqn:H1.
  { apply FindStringSubmatch_one in H1 as (p & Hp & Hpath & ->).
    left. by exists p. }
  clear H1. right.
  destruct (FindStringSubmatch _ path) as [matches|] eqn:H1.
  { apply FindStringSubmatch_two_end in H1 as (p & t & Hp & Ht & Hpath & ->).
    left. by exists p, t. }
  clear H1. right.
  destruct (FindStringSubmatch _ path) as [matches|] eqn:H1.
  { apply FindStringSubmatch_two_end in H1 as (p & t & Hp & Ht & Hpath & ->).
    left. by exists p, t. }
  by right.
Qed.

Ltac member :=
  repeat match goal with
         | H : _ ∈ _ |- _ => rewrite ?elem_of_cons, ?elem_of_nil in H
         end;
  rewrite ?elem_of_cons, ?elem_of_nil; intuition congruence.

(** X18.  A request whose pull capacity, if it is a POST, is within the
    limit of the runtime is answered (no branch of the router aborts on
    it) with one of the statuses 200, 204, 400, 404, 405 and 409, never
    with 500, and with 404 or 405 when its method is none of GET, POST,
    PUT and DELETE.  Whatever the request, an answer with a status other
    than 200 and 204 comes with an unchanged state, and a GET request
    changes nothing. *)
Theorem ServeHTTP_answers uuid testing env r w :
  let answer := ServeHTTP uuid testing env r w in
  ((Request_Method r = MethodPost →
    ∀ reqMaxMessages,
      Request_MaxMessages r = Some reqMaxMessages →
      capInRange (handlePull_MaxMessages reqMaxMessages)) →
   ∃ response,
     answer.1 = Responded response
     ∧ Response_Status response
       ∈ [StatusOK; StatusNoContent; StatusBadRequest; StatusNotFound;
          StatusMethodNotAllowed; StatusConflict]
     ∧ (Request_Method r ∉ [MethodGet; MethodPost; MethodPut; MethodDelete] →
        Response_Status response ∈ [StatusNotFound; StatusMethodNotAllowed]))
  ∧ (∀ response,
       answer.1 = Responded response →
       Response_Status response ≠ StatusOK →
       Response_Status response ≠ StatusNoContent → answer.2 = w)
  ∧ (Request_Method r = MethodGet → answer.2 = w).
Proof.
  destruct w as [s k]. intros answer.
  assert (∃ response,
            answer.1 = Responded response
            ∧ Response_Status response
              ∈ [StatusOK; StatusNoContent; StatusBadRequest; StatusNotFound;
                 StatusMethodNotAllowed; StatusConflict]
            ∧ (Response_Status response ≠ StatusOK →
               Response_Status response ≠ StatusNoContent → answer.2 = (s, k))
            ∧ (Request_Method r = MethodGet → answer.2 = (s, k))
            ∧ (Request_Method r ∉ [MethodGet; MethodPost; MethodPut; MethodDelete] →
               Response_Status response ∈ [StatusNotFound; StatusMethodNotAllowed]))
    as (response & Hanswer & Hstatus & Hquiet & Hget & Hother).
  { unfold answer.
    assert (∀ w' : World, ∃ response,
              (httpError "Method not allowed" StatusMethodNotAllowed, w').1
              = Responded response
              ∧ Response_Status response
                ∈ [StatusOK; StatusNoContent; StatusBadRequest; StatusNotFound;
                   StatusMethodNotAllowed; StatusConflict]
              ∧ (Response_Status response ≠ StatusOK →
                 Response_Status response ≠ StatusNoContent →
                 (httpError "Method not allowed" StatusMethodNotAllowed, w').2 = w')
              ∧ (Request_Method r = MethodGet →
                 (httpError "Method not allowed" StatusMethodNotAllowed, w').2 = w')
              ∧ (Request_Method r ∉ [MethodGet; MethodPost; MethodPut; MethodDelete] →
                 Response_Status response ∈ [StatusNotFound; StatusMethodNotAllowed]))
      as Hnot.
    { intros w'. eexists. split; [done|]. simpl. split_and!; [member|done|done|member]. }
    destruct (ServeHTTP_cases uuid testing env r (s, k))
      as [(p & t & _ & _ & _ & ->)|[(p & t & _ & _ & _ & ->)|[(p & t & _ & _ & _ & ->)
         |[(p & _ & _ & ->)|[(p & _ & _ & ->)|[(p & t & _ & _ & _ & ->)
         |[(p & t & _ & _ & _ & ->)| ->]]]]]]]; simpl.
    - case_decide as Hm; [|apply Hnot].
      destruct (handlePublish_answer uuid (Env_subscriptions env) (Env_publishTime env)
                  (Request_Messages r) ("projects/" +:+ p +:+ "/topics/" +:+ t) s k)
        as (response & Hanswer & Hstatus & Hsame).
      exists response. simpl. split_and!; [done|member| | |].
      + intros Hok _. destruct (Hsame Hok) as [-> ->]. done.
      + by rewrite Hm.
      + intros Hout. exfalso. apply Hout. rewrite Hm. member.
    - case_decide as Hm; [|apply Hnot].
      destruct (handlePull_answer testing (Env_now env) (Request_MaxMessages r)
                  ("projects/" +:+ p +:+ "/subscriptions/" +:+ t) s)
        as (response & Hanswer & Hstatus & Hsame).
      exists response. simpl. split_and!; [done|member| | |].
      + intros Hok _. by rewrite (Hsame Hok).
      + by rewrite Hm.
      + intros Hout. exfalso. apply Hout. rewrite Hm. member.
    - case_decide as Hm; [|apply Hnot].
      destruct (handleAcknowledge_answer (Env_now env) (Request_AckIDs r)
                  ("projects/" +:+ p +:+ "/subscriptions/" +:+ t) s)
        as (response & Hanswer & Hstatus & Hsame).
      exists response. simpl. split_and!; [done|member| | |].
      + intros Hok _. by rewrite (Hsame Hok).
      + by rewrite Hm.
      + intros Hout. exfalso. apply Hout. rewrite Hm. member.
    - case_decide as Hm; [|apply Hnot].
      eexists. split; [done|]. simpl. split_and!; [member|done|done|].
      intros Hout. exfalso. apply Hout. rewrite Hm. member.
    - case_decide as Hm; [|apply Hnot].
      eexists. split; [done|]. simpl. split_and!; [member|done|done|].
      intros Hout. exfalso. apply Hout. rewrite Hm. member.
    - case_decide as Hput; [|case_decide as Hget; [|case_decide as Hdel; [|apply Hnot]]].
      + destruct (handleCreateTopic_answer ("projects/" +:+ p +:+ "/topics/" +:+ t) s)
          as (response & Hanswer & Hstatus & Hsame).
        exists response. simpl. split_and!; [done|member| | |].
        * intros Hok _. by rewrite (Hsame Hok).
        * by rewrite Hput.
        * intros Hout. exfalso. apply Hout. rewrite Hput. member.
      + destruct (handleGetTopic_answer ("projects/" +:+ p +:+ "/topics/" +:+ t) s)
          as (response & Hanswer & Hstatus).
        exists response. simpl. rewrite handleGetTopic_state.
        split_and!; [done|member|done|done|].
        intros Hout. exfalso. apply Hout. rewrite Hget. member.
      + destruct (handleDeleteTopic_answer ("projects/" +:+ p +:+ "/topics/" +:+ t) s)
          as (response & Hanswer & Hstatus & Hsame).
        exists response. simpl. split_and!; [done|member| | |].
        * intros _ Hno. by rewrite (Hsame Hno).
        * by rewrite Hdel.
        * intros Hout. exfalso. apply Hout. rewrite Hdel. member.
    - case_decide as Hput; [|case_decide as Hget; [|case_decide as Hdel; [|apply Hnot]]].
      + destruct (handleCreateSubscription_answer (Request_Topic r)
                    ("projects/" +:+ p +:+ "/subscriptions/" +:+ t) s)
          as (response & Hanswer & Hstatus & Hsame).
        exists response. simpl. split_and!; [done|member| | |].
        * intros Hok _. by rewrite (Hsame Hok).
        * by rewrite Hput.
        * intros Hout. exfalso. apply Hout. rewrite Hput. member.
      + destruct (handleGetSubscription_answer
                    ("projects/" +:+ p +:+ "/subscriptions/" +:+ t) s)
          as (response & Hanswer & Hstatus).
        exists response. simpl. rewrite handleGetSubscription_state.
        split_and!; [done|member|done|done|].
        intros Hout. exfalso. apply Hout. rewrite Hget. member.
      + destruct (handleDeleteSubscription_answer
                    ("projects/" +:+ p +:+ "/subscriptions/" +:+ t) s)
          as (response & Hanswer & Hstatus & Hsame).
        exists response. simpl. split_and!; [done|member| | |].
        * intros _ Hno. by rewrite (Hsame Hno).
        * by rewrite Hdel.
        * intros Hout. exfalso. apply Hout. rewrite Hdel. member.
    - eexists. split; [done|]. simpl. split_and!; [member|done|done|member]. }
  split_and!; [|intros response' Hanswer'|done].
  - intros _. by exists response.
  - rewrite Hanswer in Hanswer'. by injection Hanswer' as <-.
Qed.

(** X19.  Serving a request performs at most one operation of the
    storage: when the visiting order of the request is an order of the
    subscriptions, the state after it is the state before, or the state
    one operation of the engine leaves.  So a request takes a reachable
    state of the engine to a reachable state, and the invariants of the
    reachable states hold for every state a server reaches by HTTP
    requests. *)
Theorem ServeHTTP_one_operation uuid testing env r w :
  rangeOrder (Env_subscriptions env) w.1 →
  let w' := (ServeHTTP uuid testing env r w).2 in
  (w' = w ∨ ∃ op, admissible op w ∧ w' = exec uuid testing op w)
  ∧ (reachable uuid testing w → reachable uuid testing w').
Proof.
  intros Hord w'.
  assert (w' = w ∨ ∃ op, admissible op w ∧ w' = exec uuid testing op w) as Hstep.
  { unfold w'. destruct w as [s k].
    destruct (ServeHTTP_cases uuid testing env r (s, k))
      as [(p & t & _ & _ & _ & ->)|[(p & t & _ & _ & _ & ->)|[(p & t & _ & _ & _ & ->)
         |[(p & _ & _ & ->)|[(p & _ & _ & ->)|[(p & t & _ & _ & _ & ->)
         |[(p & t & _ & _ & _ & ->)| ->]]]]]]]; simpl.
    - case_decide; [|by left].
      pose proof (handlePublish_state uuid testing (Env_subscriptions env)
                    (Env_publishTime env) (Request_Messages r)
                    ("projects/" +:+ p +:+ "/topics/" +:+ t) (s, k)) as Hstate.
      simpl in Hstate. rewrite Hstate.
      destruct (Request_Messages r) as [msgs|]; [|by left].
      right. by eexists (OpPublish _ _ _ _).
    - case_decide; [|by left]. simpl. rewrite handlePull_state.
      destruct (Request_MaxMessages r) as [req|]; [|by left].
      right. by eexists (OpPull _ _ _).
    - case_decide; [|by left]. simpl. rewrite handleAcknowledge_state.
      destruct (Request_AckIDs r) as [ackIDs|]; [|by left].
      right. by eexists (OpAcknowledge _ _ _).
    - case_decide; by left.
    - case_decide; by left.
    - repeat case_decide; simpl.
      + rewrite handleCreateTopic_state. right. by eexists (OpCreateTopic _).
      + rewrite handleGetTopic_state. by left.
      + rewrite handleDeleteTopic_state. right. by eexists (OpDeleteTopic _).
      + by left.
    - repeat case_decide; simpl.
      + rewrite handleCreateSubscription_state.
        destruct (Request_Topic r) as [topicName|]; [|by left].
        right. by eexists (OpCreateSubscription _ _).
      + rewrite handleGetSubscription_state. by left.
      + rewrite handleDeleteSubscription_state. right. by eexists (OpDeleteSubscription _).
      + by left.
    - by left. }
  split; [done|]. intros Hreach.
  destruct Hstep as [->|(op & Hadm & ->)]; [done|]. by apply reachable_step.
Qed.

Lemma ServeHTTP_one_operation_witness :
  (ServeHTTP scenario_uuid true
     {| Env_now := 1000%Z; Env_publishTime := "2024-01-01T00:00:00Z";
        Env_subscriptions := map_to_list (subscriptions scenario_created.1);
        Env_topics := map_to_list (topics scenario_created.1) |}
     {| Request_Method := "POST";
        Request_Path := "/v1/projects/test/topics/topic1:publish";
        Request_Topic := None;
        Request_Messages := Some [scenario_message];
        Request_MaxMessages := None;
        Request_AckIDs := None |}
     scenario_created).2 = scenario_published
  ∧ reachable scenario_uuid true scenario_published.
Proof.
  split; [by vm_compute|].
  apply (proj2 (ServeHTTP_one_operation scenario_uuid true
           {| Env_now := 1000%Z; Env_publishTime := "2024-01-01T00:00:00Z";
              Env_subscriptions := map_to_list (subscriptions scenario_created.1);
              Env_topics := map_to_list (topics scenario_created.1) |}
           {| Request_Method := "POST";
              Request_Path := "/v1/projects/test/topics/topic1:publish";
              Request_Topic := None;
              Request_Messages := Some [scenario_message];
              Request_MaxMessages := None;
              Request_AckIDs := None |}
           scenario_created ltac:(unfold rangeOrder; simpl; reflexivity))
           scenario_created_reachable).
Defined.

(** *** Paths of the API *)

Lemma append_nil_l (s : string) : "" +:+ s = s.
Proof. done. Qed.

Lemma FindStringSubmatch_two_match l0 l1 l2 p t :
  segment p → segment t →
  let s := l0 +:+ p +:+ String "/" l1 +:+ t +:+ l2 in
  FindStringSubmatch [Lit l0; Seg; Lit (String "/" l1); Seg; Lit l2] s = Some [s; p; t].
Proof. intros Hp Ht s. apply FindStringSubmatch_two. by exists p, t. Qed.

Lemma FindStringSubmatch_two_end_match l0 l1 p t :
  segment p → segment t →
  let s := l0 +:+ p +:+ String "/" l1 +:+ t in
  FindStringSubmatch [Lit l0; Seg; Lit (String "/" l1); Seg] s = Some [s; p; t].
Proof. intros Hp Ht s. apply FindStringSubmatch_two_end. by exists p, t. Qed.

Lemma FindStringSubmatch_one_match l0 l1 p :
  segment p →
  let s := l0 +:+ p +:+ l1 in
  FindStringSubmatch [Lit l0; Seg; Lit l1] s = Some [s; p].
Proof. intros Hp s. apply FindStringSubmatch_one. by exists p. Qed.

(** Two texts made of literals and segments are compared from the left:
    common literal text is dropped, and a segment before a slash is the
    same on both sides. *)
Ltac path_eq H :=
  repeat (rewrite append_cons in H || rewrite append_nil_l in H
          || rewrite append_nil_r in H);
  simplify_eq;
  try match type of H with
      | ?p +:+ String "/"%char _ = ?q +:+ String "/"%char _ =>
          apply segment_split in H as [? H];
          [simplify_eq|by match goal with Hp : segment p |- _ => apply Hp end
                      |by match goal with Hq : segment q |- _ => apply Hq end]
      end.

(** A path that none of the earlier patterns of the router matches. *)
Ltac no_route :=
  match goal with
  | |- context [FindStringSubmatch ?re ?path] =>
      let H := fresh "Hroute" in
      let Heq := fresh "Heq" in
      destruct (FindStringSubmatch re path) as [?|] eqn:H;
      [exfalso;
       first [apply FindStringSubmatch_two in H as (? & ? & ? & ? & Heq & _)
             |apply FindStringSubmatch_two_end in H as (? & ? & ? & ? & Heq & _)
             |apply FindStringSubmatch_one in H as (? & ? & Heq & _)];
       path_eq Heq
      |clear H]
  end.

(** X20.  Paths of topics.  For a project and a topic identifier that
    are not empty and hold no slash: a request on
    /v1/projects/<project>/topics/<topic>:publish is a publication to
    the topic projects/<project>/topics/<topic> when its method is POST
    and is answered 405 otherwise, also when it is a PUT, a GET or a
    DELETE (the pattern of publication is tried before the pattern of
    topics); a request on /v1/projects/<project>/topics/<topic>, for an
    identifier that does not end in ":publish" after some other text,
    creates (PUT), reads (GET) or deletes (DELETE) the topic of that
    name and is answered 405 otherwise; a request on
    /v1/projects/<project>/topics lists the topics of the project when
    its method is GET and is answered 405 otherwise. *)
Theorem ServeHTTP_topic_paths uuid testing env r w p t :
  segment p → segment t →
  let topicName := "projects/" +:+ p +:+ "/topics/" +:+ t in
  let inWorld (answer : Outcome * Storage) := (answer.1, (answer.2, w.2)) in
  let notAllowed := (httpError "Method not allowed" StatusMethodNotAllowed, w) in
  (Request_Path r = "/v1/projects/" +:+ p +:+ "/topics/" +:+ t +:+ ":publish" →
   ServeHTTP uuid testing env r w =
   if decide (Request_Method r = MethodPost)
   then
     let answer :=
       handlePublish uuid (Env_subscriptions env) (Env_publishTime env)
         (Request_Messages r) topicName w.1 w.2 in
     (answer.1.1, (answer.1.2, answer.2))
   else notAllowed)
  ∧ (Request_Path r = "/v1/projects/" +:+ p +:+ "/topics/" +:+ t →
     (∀ t', segment t' → t ≠ t' +:+ ":publish") →
     ServeHTTP uuid testing env r w =
     if decide (Request_Method r = MethodPut)
     then inWorld (handleCreateTopic topicName w.1)
     else if decide (Request_Method r = MethodGet)
     then inWorld (handleGetTopic topicName w.1)
     else if decide (Request_Method r = MethodDelete)
     then inWorld (handleDeleteTopic topicName w.1)
     else notAllowed)
  ∧ (Request_Path r = "/v1/projects/" +:+ p +:+ "/topics" →
     ServeHTTP uuid testing env r w =
     if decide (Request_Method r = MethodGet)
     then inWorld (handleListTopics (Env_topics env) p w.1)
     else notAllowed).
Proof.
  intros Hp Ht topicName inWorld notAllowed.
  unfold ServeHTTP, topicPublishRegex, subscriptionPullRegex, subscriptionAckRegex,
    listTopicsRegex, listSubscriptionsRegex, topicPathRegex, subscriptionPathRegex.
  split_and!; intros Hpath; rewrite !Hpath.
  - by rewrite FindStringSubmatch_two_match.
  - intros Hplain.
    destruct (FindStringSubmatch _ _) as [?|] eqn:Hroute.
    { exfalso. apply FindStringSubmatch_two in Hroute as (p' & t' & Hp' & Ht' & Heq & _).
      path_eq Heq. by apply (Hplain t'). }
    clear Hroute. do 4 no_route.
    by rewrite FindStringSubmatch_two_end_match.
  - do 3 no_route.
    by rewrite FindStringSubmatch_one_match.
Qed.

Lemma ServeHTTP_topic_paths_witness :
  ServeHTTP scenario_uuid true
    {| Env_now := 1000%Z; Env_publishTime := "2024-01-01T00:00:00Z";
       Env_subscriptions := []; Env_topics := [] |}
    {| Request_Method := "PUT";
       Request_Path := "/v1/projects/test/topics/topic1:publish";
       Request_Topic := None; Request_Messages := None;
       Request_MaxMessages := None; Request_AckIDs := None |}
    (NewStorage, 0%nat)
  = (httpError "Method not allowed" StatusMethodNotAllowed, (NewStorage, 0%nat)).
Proof.
  exact (proj1 (ServeHTTP_topic_paths scenario_uuid true
                  {| Env_now := 1000%Z; Env_publishTime := "2024-01-01T00:00:00Z";
                     Env_subscriptions := []; Env_topics := [] |}
                  {| Request_Method := "PUT";
                     Request_Path := "/v1/projects/test/topics/topic1:publish";
                     Request_Topic := None; Request_Messages := None;
                     Request_MaxMessages := None; Request_AckIDs := None |}
                  (NewStorage, 0%nat) "test" "topic1"
                  ltac:(by split) ltac:(by split)) eq_refl).
Defined.

Lemma append_last_char (x y a b : string) (c d : ascii) :
  x +:+ a +:+ String c "" = y +:+ b +:+ String d "" → c = d.
Proof.
  intros H.
  assert (∀ x a c, String.get (String.length (x +:+ a)) (x +:+ a +:+ String c "")
                   = Some c) as Hlast.
  { clear. intros x a c. rewrite <- append_assoc.
    rewrite <- (Nat.add_0_l (String.length (x +:+ a))).
    by rewrite <- String.append_correct2. }
  assert (String.length (x +:+ a) = String.length (y +:+ b)) as Hlen.
  { apply (f_equal String.length) in H. rewrite <- !append_assoc in H.
    rewrite (length_append (x +:+ a)), (length_append (y +:+ b)) in H. simpl in H. lia. }
  pose proof (Hlast x a c) as Hc. rewrite H, Hlen, Hlast in Hc. by injection Hc.
Qed.

(** X21.  Paths of subscriptions.  For a project and a subscription
    identifier that are not empty and hold no slash: a POST on
    /v1/projects/<project>/subscriptions/<subscription>:pull pulls from,
    and a POST on .../<subscription>:acknowledge acknowledges on, the
    subscription projects/<project>/subscriptions/<subscription>, and
    any other method on these paths is answered 405; a request on
    /v1/projects/<project>/subscriptions/<subscription>, for an
    identifier that does not end in ":pull" or ":acknowledge" after some
    other text, creates (PUT), reads (GET) or deletes (DELETE) the
    subscription of that name and is answered 405 otherwise; a request
    on /v1/projects/<project>/subscriptions lists the subscriptions of
    the project when its method is GET and is answered 405 otherwise. *)
Theorem ServeHTTP_subscription_paths uuid testing env r w p t :
  segment p → segment t →
  let subscriptionName := "projects/" +:+ p +:+ "/subscriptions/" +:+ t in
  let inWorld (answer : Outcome * Storage) := (answer.1, (answer.2, w.2)) in
  let notAllowed := (httpError "Method not allowed" StatusMethodNotAllowed, w) in
  (Request_Path r = "/v1/projects/" +:+ p +:+ "/subscriptions/" +:+ t +:+ ":pull" →
   ServeHTTP uuid testing env r w =
   if decide (Request_Method r = MethodPost)
   then inWorld (handlePull testing (Env_now env) (Request_MaxMessages r)
                   subscriptionName w.1)
   else notAllowed)
  ∧ (Request_Path r
     = "/v1/projects/" +:+ p +:+ "/subscriptions/" +:+ t +:+ ":acknowledge" →
     ServeHTTP uuid testing env r w =
     if decide (Request_Method r = MethodPost)
     then inWorld (handleAcknowledge (Env_now env) (Request_AckIDs r)
                     subscriptionName w.1)
     else notAllowed)
  ∧ (Request_Path r = "/v1/projects/" +:+ p +:+ "/subscriptions/" +:+ t →
     (∀ t', segment t' → t ≠ t' +:+ ":pull" ∧ t ≠ t' +:+ ":acknowledge") →
     ServeHTTP uuid testing env r w =
     if decide (Request_Method r = MethodPut)
     then inWorld (handleCreateSubscription (Request_Topic r) subscriptionName w.1)
     else if decide (Request_Method r = MethodGet)
     then inWorld (handleGetSubscription subscriptionName w.1)
     else if decide (Request_Method r = MethodDelete)
     then inWorld (handleDeleteSubscription subscriptionName w.1)
     else notAllowed)
  ∧ (Request_Path r = "/v1/projects/" +:+ p +:+ "/subscriptions" →
     ServeHTTP uuid testing env r w =
     if decide (Request_Method r = MethodGet)
     then inWorld (handleListSubscriptions (Env_subscriptions env) p w.1)
     else notAllowed).
Proof.
  intros Hp Ht subscriptionName inWorld notAllowed.
  unfold ServeHTTP, topicPublishRegex, subscriptionPullRegex, subscriptionAckRegex,
    listTopicsRegex, listSubscriptionsRegex, topicPathRegex, subscriptionPathRegex.
  split_and!; intros Hpath; rewrite !Hpath.
  - no_route. by rewrite FindStringSubmatch_two_match.
  - no_route.
    destruct (FindStringSubmatch _ _) as [?|] eqn:Hroute.
    { exfalso. apply FindStringSubmatch_two in Hroute as (p' & t' & Hp' & Ht' & Heq & _).
      path_eq Heq.
      match goal with
      | H : t +:+ _ = t' +:+ _ |- _ =>
          assert ("e" = "l")%char
            by (apply (append_last_char t t' ":acknowledg" ":pul"); exact H)
      end.
      done. }
    clear Hroute. by rewrite FindStringSubmatch_two_match.
  - intros Hplain. no_route.
    destruct (FindStringSubmatch _ _) as [?|] eqn:Hroute.
    { exfalso. apply FindStringSubmatch_two in Hroute as (p' & t' & Hp' & Ht' & Heq & _).
      path_eq Heq. by destruct (Hplain t') as [? ?]. }
    clear Hroute.
    destruct (FindStringSubmatch _ _) as [?|] eqn:Hroute.
    { exfalso. apply FindStringSubmatch_two in Hroute as (p' & t' & Hp' & Ht' & Heq & _).
      path_eq Heq. by destruct (Hplain t') as [? ?]. }
    clear Hroute. do 3 no_route. by rewrite FindStringSubmatch_two_end_match.
  - do 4 no_route. by rewrite FindStringSubmatch_one_match.
Qed.

Lemma ServeHTTP_subscription_paths_witness :
  ServeHTTP scenario_uuid true
    {| Env_now := 1000%Z; Env_publishTime := "2024-01-01T00:00:00Z";
       Env_subscriptions := []; Env_topics := [] |}
    {| Request_Method := "DELETE";
       Request_Path := "/v1/projects/test/subscriptions/sub1:pull";
       Request_Topic := None; Request_Messages := None;
       Request_MaxMessages := None; Request_AckIDs := None |}
    scenario_created
  = (httpError "Method not allowed" StatusMethodNotAllowed, scenario_created).
Proof.
  exact (proj1 (ServeHTTP_subscription_paths scenario_uuid true
                  {| Env_now := 1000%Z; Env_publishTime := "2024-01-01T00:00:00Z";
                     Env_subscriptions := []; Env_topics := [] |}
                  {| Request_Method := "DELETE";
                     Request_Path := "/v1/projects/test/subscriptions/sub1:pull";
                     Request_Topic := None; Request_Messages := None;
                     Request_MaxMessages := None; Request_AckIDs := None |}
                  scenario_created "test" "sub1"
                  ltac:(by split) ltac:(by split)) eq_refl).
Defined.

(** *** The registry and the requests *)

Lemma Publish_registry uuid order now topicName msgs s k :
  topics (Publish uuid order now topicName msgs s k).1.2 = topics s
  ∧ subscriptions (Publish uuid order now topicName msgs s k).1.2 = subscriptions s.
Proof.
  unfold Publish. destruct (topics s !! topicName); [|done].
  destruct (genMessageIDs _ _ _). by destruct (fanOut _ _ _ _ _ _ _).
Qed.

Lemma Pull_registry testing now name maxMessages s :
  topics (Pull testing now name maxMessages s).2 = topics s
  ∧ subscriptions (Pull testing now name maxMessages s).2 = subscriptions s.
Proof.
  by destruct (Pull_state_cases testing now name maxMessages s) as [->|(msgs & _ & ->)].
Qed.

Lemma Acknowledge_registry now name ackIDs s :
  topics (Acknowledge now name ackIDs s).2 = topics s
  ∧ subscriptions (Acknowledge now name ackIDs s).2 = subscriptions s.
Proof.
  unfold Acknowledge. destruct (subscriptions s !! name); [|done].
  destruct (messages s !! name); [|done]. by destruct (ackLoop _ _ _ _).
Qed.

Lemma CreateTopic_registry name s other :
  subscriptions (CreateTopic name s).2 = subscriptions s
  ∧ (topics (CreateTopic name s).2 !! other ≠ topics s !! other →
     other = name ∧ topics s !! name = None
     ∧ topics (CreateTopic name s).2 !! name = Some {| Topic_Name := name |}).
Proof.
  unfold CreateTopic. destruct (topics s !! name) as [old|] eqn:Hname; simpl; [done|].
  split; [done|]. destruct (decide (name = other)) as [<-|Hne].
  - by rewrite lookup_insert_eq.
  - by rewrite lookup_insert_ne.
Qed.

Lemma DeleteTopic_registry name s other :
  subscriptions (DeleteTopic name s).2 = subscriptions s
  ∧ (topics (DeleteTopic name s).2 !! other ≠ topics s !! other →
     other = name ∧ is_Some (topics s !! name)
     ∧ topics (DeleteTopic name s).2 !! name = None).
Proof.
  unfold DeleteTopic. destruct (topics s !! name) as [old|] eqn:Hname; simpl; [|done].
  split; [done|]. destruct (decide (name = other)) as [<-|Hne].
  - rewrite lookup_delete_eq. by rewrite Hname.
  - by rewrite lookup_delete_ne.
Qed.

Lemma CreateSubscription_registry name topicName s other :
  topics (CreateSubscription name topicName s).2 = topics s
  ∧ (subscriptions (CreateSubscription name topicName s).2 !! other
     ≠ subscriptions s !! other →
     other = name ∧ subscriptions s !! name = None
     ∧ subscriptions (CreateSubscription name topicName s).2 !! name
       = Some {| Subscription_Name := name; Subscription_Topic := topicName |}).
Proof.
  unfold CreateSubscription.
  destruct (subscriptions s !! name) as [old|] eqn:Hname; simpl; [done|].
  destruct (topics s !! topicName); simpl; [|done].
  split; [done|]. destruct (decide (name = other)) as [<-|Hne].
  - by rewrite lookup_insert_eq.
  - by rewrite lookup_insert_ne.
Qed.

Lemma DeleteSubscription_registry name s other :
  topics (DeleteSubscription name s).2 = topics s
  ∧ (subscriptions (DeleteSubscription name s).2 !! other ≠ subscriptions s !! other →
     other = name ∧ is_Some (subscriptions s !! name)
     ∧ subscriptions (DeleteSubscription name s).2 !! name = None).
Proof.
  unfold DeleteSubscription.
  destruct (subscriptions s !! name) as [old|] eqn:Hname; simpl; [|done].
  split; [done|]. destruct (decide (name = other)) as [<-|Hne].
  - rewrite lookup_delete_eq. by rewrite Hname.
  - by rewrite lookup_delete_ne.
Qed.

(** X22.  The registry changes only by a PUT or a DELETE on the path of
    the resource: if a request changes what is registered under a topic
    name, its path is /v1/<name> and it is either a PUT that registers
    the topic, the name having been free, or a DELETE that removes it;
    and the same for a subscription name.  No other request, and no
    request on another path, creates or removes a topic or a
    subscription. *)
Theorem ServeHTTP_registry_changes uuid testing env r w name :
  let w' := (ServeHTTP uuid testing env r w).2 in
  (topics w'.1 !! name ≠ topics w.1 !! name →
   Request_Path r = "/v1/" +:+ name
   ∧ ((Request_Method r = MethodPut ∧ topics w.1 !! name = None
       ∧ topics w'.1 !! name = Some {| Topic_Name := name |})
      ∨ (Request_Method r = MethodDelete ∧ is_Some (topics w.1 !! name)
         ∧ topics w'.1 !! name = None)))
  ∧ (subscriptions w'.1 !! name ≠ subscriptions w.1 !! name →
     Request_Path r = "/v1/" +:+ name
     ∧ ((∃ topicName,
           Request_Method r = MethodPut ∧ Request_Topic r = Some topicName
           ∧ subscriptions w.1 !! name = None
           ∧ subscriptions w'.1 !! name
             = Some {| Subscription_Name := name; Subscription_Topic := topicName |})
        ∨ (Request_Method r = MethodDelete ∧ is_Some (subscriptions w.1 !! name)
           ∧ subscriptions w'.1 !! name = None))).
Proof.
  destruct w as [s k]. intros w'. unfold w'.
  destruct (ServeHTTP_cases uuid testing env r (s, k))
    as [(p & t & _ & _ & _ & ->)|[(p & t & _ & _ & _ & ->)|[(p & t & _ & _ & _ & ->)
       |[(p & _ & _ & ->)|[(p & _ & _ & ->)|[(p & t & _ & _ & Hpath & ->)
       |[(p & t & _ & _ & Hpath & ->)| ->]]]]]]]; simpl.
  - case_decide; [|done]. simpl.
    pose proof (handlePublish_state uuid testing (Env_subscriptions env)
                  (Env_publishTime env) (Request_Messages r)
                  ("projects/" +:+ p +:+ "/topics/" +:+ t) (s, k)) as Hstate.
    simpl in Hstate. apply (f_equal fst) in Hstate. simpl in Hstate. rewrite Hstate.
    destruct (Request_Messages r) as [msgs|]; [|done]. simpl.
    by destruct (Publish_registry uuid (Env_subscriptions env) (Env_publishTime env)
                   ("projects/" +:+ p +:+ "/topics/" +:+ t) msgs s k) as [-> ->].
  - case_decide; [|done]. simpl. rewrite handlePull_state.
    destruct (Request_MaxMessages r) as [req|]; [|done].
    by destruct (Pull_registry testing (Env_now env)
                   ("projects/" +:+ p +:+ "/subscriptions/" +:+ t)
                   (handlePull_MaxMessages req) s) as [-> ->].
  - case_decide; [|done]. simpl. rewrite handleAcknowledge_state.
    destruct (Request_AckIDs r) as [ackIDs|]; [|done].
    by destruct (Acknowledge_registry (Env_now env)
                   ("projects/" +:+ p +:+ "/subscriptions/" +:+ t) ackIDs s) as [-> ->].
  - by case_decide.
  - by case_decide.
  - case_decide as Hput; [|case_decide as Hget; [|case_decide as Hdel; [|done]]]; simpl.
    + rewrite handleCreateTopic_state.
      destruct (CreateTopic_registry ("projects/" +:+ p +:+ "/topics/" +:+ t) s name)
        as [-> Htopics].
      split; [|done]. intros Hne. destruct (Htopics Hne) as (-> & Hfree & Hnew).
      split; [by rewrite Hpath|]. left. done.
    + by rewrite handleGetTopic_state.
    + rewrite handleDeleteTopic_state.
      destruct (DeleteTopic_registry ("projects/" +:+ p +:+ "/topics/" +:+ t) s name)
        as [-> Htopics].
      split; [|done]. intros Hne. destruct (Htopics Hne) as (-> & Hold & Hnew).
      split; [by rewrite Hpath|]. right. done.
  - case_decide as Hput; [|case_decide as Hget; [|case_decide as Hdel; [|done]]]; simpl.
    + rewrite handleCreateSubscription_state.
      destruct (Request_Topic r) as [topicName|] eqn:Hbody; [|done].
      destruct (CreateSubscription_registry
                  ("projects/" +:+ p +:+ "/subscriptions/" +:+ t) topicName s name)
        as [-> Hsubs].
      split; [done|]. intros Hne. destruct (Hsubs Hne) as (-> & Hfree & Hnew).
      split; [by rewrite Hpath|]. left. by exists topicName.
    + by rewrite handleGetSubscription_state.
    + rewrite handleDeleteSubscription_state.
      destruct (DeleteSubscription_registry
                  ("projects/" +:+ p +:+ "/subscriptions/" +:+ t) s name)
        as [-> Hsubs].
      split; [done|]. intros Hne. destruct (Hsubs Hne) as (-> & Hold & Hnew).
      split; [by rewrite Hpath|]. right. done.
  - done.
Qed.
